(** * Ironwood router: a shallow embedding of the tree router

    This development embeds the announcement store, the forwarding
    lookup, the Merkle request handler, the wire codecs of the router
    messages and the peer-port allocator of the ironwood overlay network
    ([network/router.go], [network/peers.go]) and proves properties of
    them.  Bytes are 8-bit values held in [Z]; 64-bit counters are [Z]
    values in [0, 2^64).  Go maps are [gmap]s; where the order of a Go map
    iteration matters, the map is an association list in one iteration
    order and the lemmas quantify over every such order. *)

From Stdlib Require Import ZArith Lia.
From stdpp Require Import base gmap list fin_maps.

(* ------------------------------------------------------------------ *)
(** ** Keys *)

(** [publicKey] is a fixed-size byte array ([[32]byte] for ed25519). *)
Abbreviation publicKey := (list Z).

Definition publicKeySize : nat := 32.
Definition signatureSize : nat := 64.
Definition digestSize : nat := 32.

(** The zero value of a Go [publicKey]. *)
Definition zero_key : publicKey := repeat 0%Z publicKeySize.

(** A well-formed key: the right length, every byte in [0, 256). *)
Definition key_wf (k : publicKey) : Prop :=
  length k = publicKeySize /\ Forall (fun b => 0 <= b < 256)%Z k.

(** Modelled from the spec: [publicKey.less] (in crypto.go, not among the
    sources) is "lexicographic on keys" (§3); it is written as the
    source's own lexicographic comparison [treeLess]. *)
Fixpoint less (key1 key2 : publicKey) : bool :=
  match key1, key2 with
  | b1 :: r1, b2 :: r2 =>
      if (b1 <? b2)%Z then true
      else if (b2 <? b1)%Z then false
      else less r1 r2
  | _, _ => false
  end.

(* ------------------------------------------------------------------ *)
(** ** Router messages and stored infos *)

Record routerSigReq := { seq : Z; nonce : Z }.

(** [routerSigRes] embeds [routerSigReq]; [port] is a [peerPort]. *)
Record routerSigRes := { res_req : routerSigReq; port : Z; psig : list Z }.

(** [routerAnnounce] embeds [routerSigRes]. *)
Record routerAnnounce := {
  ann_key : publicKey;
  ann_parent : publicKey;
  ann_res : routerSigRes;
  ann_sig : list Z }.

Record routerInfo := {
  parent : publicKey;
  info_res : routerSigRes;
  info_sig : list Z;
  expired : bool }.

Definition ann_seq (a : routerAnnounce) : Z := seq (res_req (ann_res a)).
Definition ann_nonce (a : routerAnnounce) : Z := nonce (res_req (ann_res a)).
Definition ann_port (a : routerAnnounce) : Z := port (ann_res a).
Definition info_seq (i : routerInfo) : Z := seq (res_req (info_res i)).
Definition info_nonce (i : routerInfo) : Z := nonce (res_req (info_res i)).
Definition info_port (i : routerInfo) : Z := port (info_res i).

(** [routerInfo.getAnnounce] *)
Definition getAnnounce (info : routerInfo) (key : publicKey) : routerAnnounce :=
  {| ann_key := key; ann_parent := parent info;
     ann_res := info_res info; ann_sig := info_sig info |}.

(** A [*time.Timer] of the store: its identity (the pointer) and the time
    at which it fires. [Reset] keeps the identity and moves [due]. *)
Record timer := { tid : nat; due : Z }.

(** A link to a peer ([*peer]): identity, key, local port, priority and
    the time the link came up. *)
Record peer := {
  peer_id : nat;
  peer_key : publicKey;
  peer_port : Z;
  prio : Z;
  ptime : Z }.

(** The state of the [router] actor used by the claims. [peers] is the Go
    map [map[publicKey]map[*peer]struct{}] in one iteration order. *)
Record router := {
  infos : gmap publicKey routerInfo;
  timers : gmap publicKey timer;
  cache : gmap publicKey (list Z);
  peers : list (publicKey * list peer);
  refresh : bool;
  now : Z;
  next_tid : nat }.

Definition set_infos (st : router) (m : gmap publicKey routerInfo) : router :=
  {| infos := m; timers := timers st; cache := cache st; peers := peers st;
     refresh := refresh st; now := now st; next_tid := next_tid st |}.
Definition set_timers (st : router) (m : gmap publicKey timer) : router :=
  {| infos := infos st; timers := m; cache := cache st; peers := peers st;
     refresh := refresh st; now := now st; next_tid := next_tid st |}.
Definition set_cache (st : router) (m : gmap publicKey (list Z)) : router :=
  {| infos := infos st; timers := timers st; cache := m; peers := peers st;
     refresh := refresh st; now := now st; next_tid := next_tid st |}.
Definition set_refresh (st : router) (b : bool) : router :=
  {| infos := infos st; timers := timers st; cache := cache st; peers := peers st;
     refresh := b; now := now st; next_tid := next_tid st |}.
Definition set_now (st : router) (t : Z) : router :=
  {| infos := infos st; timers := timers st; cache := cache st; peers := peers st;
     refresh := refresh st; now := t; next_tid := next_tid st |}.
Definition set_next_tid (st : router) (n : nat) : router :=
  {| infos := infos st; timers := timers st; cache := cache st; peers := peers st;
     refresh := refresh st; now := now st; next_tid := n |}.


(* ------------------------------------------------------------------ *)
(** ** Wire helpers *)

(** Modelled from the spec: [wireAppendUint] (wire.go, not among the
    sources) appends the varint of a 64-bit value (§6 "integers are
    varint"), in the layout of Go's [binary.AppendUvarint]: seven bits per
    byte, low group first, high bit set on every byte but the last. A
    64-bit value needs at most ten bytes, which bounds the loop. *)
Fixpoint put_uvarint (fuel : nat) (x : Z) : list Z :=
  match fuel with
  | O => [x]
  | S f =>
      if (x <? 128)%Z then [x]
      else Z.lor (Z.land x 255) 128 :: put_uvarint f (Z.shiftr x 7)
  end.

Definition wireAppendUint (out : list Z) (x : Z) : list Z :=
  out ++ put_uvarint 10 x.

(** Modelled from the spec: [wireChopUint] (wire.go) reads one varint off
    the front, as Go's [binary.Uvarint]: [i] counts the bytes read, [s]
    is the shift and [x] the value so far; more than ten bytes, or a
    tenth byte above 1, is an overflow. *)
Fixpoint uvarint (i : nat) (s x : Z) (buf : list Z) : option (Z * list Z) :=
  match buf with
  | [] => None
  | b :: rest =>
      if Nat.eqb i 10 then None
      else if (b <? 128)%Z then
        if Nat.eqb i 9 && (b >? 1)%Z then None
        else Some (Z.lor x (Z.shiftl b s), rest)
      else uvarint (S i) (s + 7) (Z.lor x (Z.shiftl (Z.land b 127) s)) rest
  end.

Definition wireChopUint (data : list Z) : option (Z * list Z) :=
  uvarint 0 0 0 data.

(** Modelled from the spec: [wireChopSlice] (wire.go) copies the next
    [n] bytes (the length of the fixed-size destination) off the front. *)
Definition wireChopSlice (n : nat) (data : list Z) : option (list Z * list Z) :=
  if Nat.ltb (length data) n then None else Some (take n data, drop n data).

(* ------------------------------------------------------------------ *)
(** ** Codecs of the router messages *)

Record routerMerkleReq := { prefixLen : Z; prefix : publicKey }.
Record routerMerkleRes := { mres_req : routerMerkleReq; digest : list Z }.

Definition sigReq_encode (req : routerSigReq) (out : list Z) : list Z :=
  wireAppendUint (wireAppendUint out (seq req)) (nonce req).

Definition sigReq_chop (data : list Z) : option (routerSigReq * list Z) :=
  match wireChopUint data with
  | None => None
  | Some (s, d1) =>
      match wireChopUint d1 with
      | None => None
      | Some (n, d2) => Some ({| seq := s; nonce := n |}, d2)
      end
  end.

(** The [decode] methods: [chop], then refuse leftover bytes. *)
Definition decode_with {A} (chop : list Z -> option (A * list Z)) (data : list Z) : option A :=
  match chop data with
  | None => None
  | Some (x, rest) => match rest with [] => Some x | _ :: _ => None end
  end.

Definition sigReq_decode := decode_with sigReq_chop.

(** [routerSigReq.bytesForSig] *)
Definition sigReq_bytesForSig (req : routerSigReq) (node par : publicKey) : list Z :=
  sigReq_encode req (node ++ par).

Definition sigRes_encode (res : routerSigRes) (out : list Z) : list Z :=
  wireAppendUint (sigReq_encode (res_req res) out) (port res) ++ psig res.

Definition sigRes_chop (data : list Z) : option (routerSigRes * list Z) :=
  match sigReq_chop data with
  | None => None
  | Some (req, d1) =>
      match wireChopUint d1 with
      | None => None
      | Some (p, d2) =>
          match wireChopSlice signatureSize d2 with
          | None => None
          | Some (sg, d3) => Some ({| res_req := req; port := p; psig := sg |}, d3)
          end
      end
  end.

Definition sigRes_decode := decode_with sigRes_chop.

(** [routerSigRes.bytesForSig] *)
Definition sigRes_bytesForSig (res : routerSigRes) (node par : publicKey) : list Z :=
  wireAppendUint (sigReq_bytesForSig (res_req res) node par) (port res).

Definition announce_encode (ann : routerAnnounce) (out : list Z) : list Z :=
  sigRes_encode (ann_res ann) (out ++ ann_key ann ++ ann_parent ann) ++ ann_sig ann.

(** [routerAnnounce.decode] chops its fields in place and then checks
    that nothing is left. *)
Definition announce_chop (data : list Z) : option (routerAnnounce * list Z) :=
  match wireChopSlice publicKeySize data with
  | None => None
  | Some (k, d1) =>
      match wireChopSlice publicKeySize d1 with
      | None => None
      | Some (p, d2) =>
          match sigRes_chop d2 with
          | None => None
          | Some (res, d3) =>
              match wireChopSlice signatureSize d3 with
              | None => None
              | Some (sg, d4) =>
                  Some ({| ann_key := k; ann_parent := p; ann_res := res; ann_sig := sg |}, d4)
              end
          end
      end
  end.

Definition announce_decode := decode_with announce_chop.

Definition merkleReq_encode (req : routerMerkleReq) (out : list Z) : list Z :=
  wireAppendUint out (prefixLen req) ++ prefix req.

Definition merkleReq_chop (data : list Z) : option (routerMerkleReq * list Z) :=
  match wireChopUint data with
  | None => None
  | Some (l, d1) =>
      match wireChopSlice publicKeySize d1 with
      | None => None
      | Some (p, d2) => Some ({| prefixLen := l; prefix := p |}, d2)
      end
  end.

Definition merkleReq_decode := decode_with merkleReq_chop.

Definition merkleRes_encode (res : routerMerkleRes) (out : list Z) : list Z :=
  merkleReq_encode (mres_req res) out ++ digest res.

Definition merkleRes_chop (data : list Z) : option (routerMerkleRes * list Z) :=
  match merkleReq_chop data with
  | None => None
  | Some (req, d1) =>
      match wireChopSlice digestSize d1 with
      | None => None
      | Some (dg, d2) => Some ({| mres_req := req; digest := dg |}, d2)
      end
  end.

Definition merkleRes_decode := decode_with merkleRes_chop.

(** The values of the Go types: 64-bit integers and fixed-size arrays. *)
Definition u64 (x : Z) : Prop := (0 <= x < 2 ^ 64)%Z.

Definition sigReq_wf (req : routerSigReq) : Prop := u64 (seq req) /\ u64 (nonce req).
Definition sigRes_wf (res : routerSigRes) : Prop :=
  sigReq_wf (res_req res) /\ u64 (port res) /\ length (psig res) = signatureSize.
Definition announce_wf (ann : routerAnnounce) : Prop :=
  length (ann_key ann) = publicKeySize /\ length (ann_parent ann) = publicKeySize /\
  sigRes_wf (ann_res ann) /\ length (ann_sig ann) = signatureSize.
Definition merkleReq_wf (req : routerMerkleReq) : Prop :=
  u64 (prefixLen req) /\ length (prefix req) = publicKeySize.
Definition merkleRes_wf (res : routerMerkleRes) : Prop :=
  merkleReq_wf (mres_req res) /\ length (digest res) = digestSize.

Section Router.

(** [r.core.crypto.publicKey] and the configuration. *)
Variable self_key : publicKey.
Variable routerTimeout routerRefresh : Z.
Variable routerMaxInfos : nat.

(** [_fix] (parent selection) runs at the end of several handlers. Its
    only effect on [infos] and [timers] is an [_update] of the local key's
    announcement (via [_useResponse] or [_becomeRoot]); it is a parameter
    here, constrained below where a lemma depends on it. *)
Variable fix_router : router -> router.

(** The [switch] of [_update]: [true] when the code does not exit. *)
Definition update_proceeds (info : routerInfo) (ann : routerAnnounce) : bool :=
  if (info_seq info >? ann_seq ann)%Z then false
  else if (info_seq info <? ann_seq ann)%Z then true
  else if less (parent info) (ann_parent ann) then false
  else if less (ann_parent ann) (parent info) then true
  else if (ann_nonce ann <? info_nonce info)%Z then true
  else false.

(** The [routerInfo] that [_update] stores for an accepted announcement. *)
Definition info_of (ann : routerAnnounce) : routerInfo :=
  {| parent := ann_parent ann; info_res := ann_res ann;
     info_sig := ann_sig ann; expired := false |}.

(** [_update]; [jitter] is [mrand.Intn(1024)]. The previous timer of the
    key is stopped: it leaves [timers], so its callback's identity check
    fails from now on. *)
Definition update (st : router) (ann : routerAnnounce) (jitter : Z) : bool * router :=
  let proceed :=
    match infos st !! ann_key ann with
    | Some info => update_proceeds info ann
    | None => true
    end in
  if negb proceed then (false, st) else
  let info := info_of ann in
  let key := ann_key ann in
  let delay := if decide (key = self_key) then (routerRefresh + jitter)%Z
               else routerTimeout in
  let tm := {| tid := next_tid st; due := (now st + delay)%Z |} in
  let st1 := set_cache st ∅ in
  let st2 := set_infos st1 (<[key := info]> (infos st1)) in
  let st3 := set_timers st2 (<[key := tm]> (timers st2)) in
  (true, set_next_tid st3 (S (next_tid st))).

(** [info.expired = true] on a copy of the info. *)
Definition expire (info : routerInfo) : routerInfo :=
  {| parent := parent info; info_res := info_res info;
     info_sig := info_sig info; expired := true |}.

(** The callback of the timer [id] created by [_update] for [key], run
    by the actor at time [now st]. *)
Definition fire_timer (st : router) (key : publicKey) (id : nat) : router :=
  match timers st !! key with
  | Some tm =>
      if Nat.eqb (tid tm) id then
        if decide (key = self_key) then fix_router (set_refresh st true)
        else
          match infos st !! key with
          | Some info =>
              if expired info then
                fix_router (set_cache (set_timers (set_infos st (delete key (infos st)))
                                  (delete key (timers st))) ∅)
              else
                let info' := expire info in
                let tm' := {| tid := tid tm; due := (now st + 2 * routerTimeout)%Z |} in
                fix_router (set_timers (set_infos st (<[key := info']> (infos st)))
                       (<[key := tm']> (timers st)))
          | None =>
              fix_router (set_cache (set_timers (set_infos st (delete key (infos st)))
                                (delete key (timers st))) ∅)
          end
      else st
  | None => st
  end.

(** The Go runtime for the timer of one key: up to time [t], whenever the
    key's current timer is due, the actor runs its callback at its due
    time ([fuel] bounds the number of firings). *)
Fixpoint run_key (fuel : nat) (st : router) (key : publicKey) (t : Z) : router :=
  match fuel with
  | O => set_now st t
  | S f =>
      match timers st !! key with
      | Some tm =>
          if (due tm <=? t)%Z
          then run_key f (fire_timer (set_now st (due tm)) key (tid tm)) key t
          else set_now st t
      | None => set_now st t
      end
  end.

(** The search for the worst (highest) non-self key in [_handleAnnounce],
    over the keys of [infos] in a Go iteration order. *)
Definition worst_step (fw : bool * publicKey) (k : publicKey) : bool * publicKey :=
  if decide (k = self_key) then fw
  else if negb (fst fw) || less (snd fw) k then (true, k) else fw.

Definition find_worst (ks : list publicKey) : bool * publicKey :=
  fold_left worst_step ks (false, zero_key).

(** [_handleAnnounce]; [ks] is the order in which the Go loop visits the
    keys of [infos]. *)
Definition handleAnnounce_in (ks : list publicKey) (st : router)
    (ann : routerAnnounce) (jitter : Z) : router :=
  let '(doUpdate, found, worst) :=
    if Nat.ltb (size (infos st)) routerMaxInfos then (true, false, zero_key)
    else if bool_decide (is_Some (infos st !! ann_key ann)) then (true, false, zero_key)
    else let '(found, worst) := find_worst ks in
         (less (ann_key ann) worst, found, worst) in
  if negb doUpdate then st else
  match update st ann jitter with
  | (true, st1) =>
      let st2 := if found
                 then set_cache (set_timers (set_infos st1 (delete worst (infos st1)))
                                   (delete worst (timers st1))) ∅
                 else st1 in
      let st3 := if decide (ann_key ann = self_key) then set_refresh st2 true else st2 in
      fix_router st3
  | (false, _) => st
  end.

(** [router.handleAnnounce]: the actor runs [_handleAnnounce] on the
    announce as given; the Go runtime's order of [infos] is here the one
    of [map_to_list]. *)
Definition handleAnnounce (st : router) (ann : routerAnnounce) (jitter : Z) : router :=
  handleAnnounce_in (map fst (map_to_list (infos st))) st ann jitter.



(* ------------------------------------------------------------------ *)
(** ** Forwarding *)

(** The fields of a [traffic] packet used by the lookup. *)
Record traffic := { tr_path : list Z; watermark : Z; tr_dest : publicKey }.

Definition set_watermark (tr : traffic) (w : Z) : traffic :=
  {| tr_path := tr_path tr; watermark := w; tr_dest := tr_dest tr |}.

(** The loop of [_getRootAndPath]: [None] is the [return dest, nil] of a
    loop or a dead end, [Some (root, ports)] the [break] at a root, with
    the ports from [dest] up. Each pass that goes on visits a new stored
    key, so [size infos + 1] passes are enough. *)
Fixpoint root_walk (m : gmap publicKey routerInfo) (fuel : nat) (next : publicKey)
    (visited : list publicKey) (ports : list Z) : option (publicKey * list Z) :=
  match fuel with
  | O => None
  | S f =>
      if decide (next ∈ visited) then None
      else match m !! next with
           | Some info =>
               if expired info then None
               else if decide (next = parent info) then Some (next, ports)
               else root_walk m f (parent info) (next :: visited) (ports ++ [info_port info])
           | None => None
           end
  end.

(** [_getRootAndPath] *)
Definition getRootAndPath (st : router) (dest : publicKey) : publicKey * list Z :=
  match root_walk (infos st) (S (size (infos st))) dest [] [] with
  | Some (root, ports) => (root, rev ports)
  | None => (dest, [])
  end.

(** The number of leading equal ports, the loop of [_getDist]. *)
Fixpoint common_prefix (keyPath destPath : list Z) : nat :=
  match keyPath, destPath with
  | a :: r1, b :: r2 => if (a =? b)%Z then S (common_prefix r1 r2) else O
  | _, _ => O
  end.

(** [_getDist]: the path of [key] comes from [cache] or is computed and
    cached. *)
Definition getDist (st : router) (destPath : list Z) (key : publicKey) : Z * router :=
  let '(keyPath, st1) :=
    match cache st !! key with
    | Some cached => (cached, st)
    | None => let kp := snd (getRootAndPath st key) in
              (kp, set_cache st (<[key := kp]> (cache st)))
    end in
  ((Z.of_nat (length keyPath) + Z.of_nat (length destPath)
    - 2 * Z.of_nat (common_prefix keyPath destPath))%Z, st1).

(** The [switch] over the links [ps] of one peer key in [_lookup]. *)
Definition pick_link (best : option peer) (p : peer) : option peer :=
  match best with
  | Some b =>
      if (prio p >? prio b)%Z then best
      else if (ptime p >? ptime b)%Z then best
      else Some p
  | None => Some p
  end.

(** One peer key of the loop of [_lookup]. *)
Definition lookup_step (path : list Z) (acc : option peer * Z * router)
    (kps : publicKey * list peer) : option peer * Z * router :=
  let '(bestPeer, bestDist, st) := acc in
  let '(d, st1) := getDist st path (fst kps) in
  if (d <? bestDist)%Z then (fold_left pick_link (snd kps) bestPeer, d, st1)
  else (bestPeer, bestDist, st1).

(** [_lookup]: the next hop, the packet (its watermark updated) and the
    router (its path cache updated). *)
Definition lookup (st : router) (tr : traffic) : option peer * traffic * router :=
  let '(dself, st1) := getDist st (tr_path tr) self_key in
  if (dself <? watermark tr)%Z then
    let tr1 := set_watermark tr dself in
    let '(bestPeer, _, st2) := fold_left (lookup_step (tr_path tr)) (peers st1) (None, dself, st1) in
    (bestPeer, tr1, st2)
  else (None, tr, st1).

(* ------------------------------------------------------------------ *)
(** ** Lemmas on the wire helpers *)

Section WireLemmas.
Local Open Scope Z_scope.

Lemma lor_shiftl_add a b s :
  0 <= s -> 0 <= a < 2 ^ s -> Z.lor a (Z.shiftl b s) = a + b * 2 ^ s.
Proof.
  intros Hs Ha. rewrite Z.shiftl_mul_pow2 by lia.
  assert (Hd : Z.land a (b * 2 ^ s) = 0).
  { apply Z.bits_inj'. intros n Hn. rewrite Z.land_spec, Z.bits_0.
    destruct (Z.lt_ge_cases n s) as [Hlt | Hge].
    - rewrite Z.mul_pow2_bits_low by lia. apply andb_false_r.
    - rewrite <- (Z.mod_small a (2 ^ s)) by lia.
      rewrite Z.mod_pow2_bits_high by lia. reflexivity. }
  rewrite <- Z.lxor_lor by exact Hd. symmetry. apply Z.add_nocarry_lxor. exact Hd.
Qed.

(** A continuation byte [byte(x) | 0x80] holds the low seven bits. *)
Lemma cont_byte y : Z.lor (Z.land y 255) 128 = y mod 128 + 128.
Proof.
  replace (y mod 128 + 128) with (Z.lor (y mod 2 ^ 7) (Z.shiftl 1 7)).
  2:{ rewrite lor_shiftl_add; [reflexivity | lia |].
      pose proof (Z.mod_pos_bound y (2 ^ 7)). lia. }
  change 255 with (Z.ones 8). change 128 with (2 ^ 7).
  apply Z.bits_inj'. intros n Hn.
  rewrite !Z.lor_spec, Z.land_spec, Z.shiftl_spec by lia.
  rewrite Z.pow2_bits_eqb by lia.
  destruct (Z.lt_ge_cases n 7) as [Hlt | Hge].
  - rewrite Z.ones_spec_low, Z.mod_pow2_bits_low by lia.
    rewrite (Z.testbit_neg_r 1 (n - 7)) by lia.
    replace (7 =? n) with false by (symmetry; apply Z.eqb_neq; lia).
    rewrite andb_true_r. reflexivity.
  - rewrite Z.mod_pow2_bits_high by lia.
    destruct (Z.eq_dec n 7) as [-> | Hne].
    + rewrite Z.eqb_refl, orb_true_r. reflexivity.
    + replace (7 =? n) with false by (symmetry; apply Z.eqb_neq; lia).
      rewrite orb_false_r.
      destruct (Z.lt_ge_cases n 8).
      * lia.
      * rewrite Z.ones_spec_high by lia. rewrite andb_false_r.
        rewrite (Z.bits_above_log2 1 (n - 7)); [reflexivity | lia |].
        change (Z.log2 1) with 0. lia.
Qed.

Lemma put_uvarint_spec (n : nat) (i : nat) (acc y : Z) (rest : list Z) :
  (i + n = 10)%nat ->
  0 <= acc < 2 ^ (7 * Z.of_nat i) ->
  0 <= y < 2 ^ (64 - 7 * Z.of_nat i) ->
  uvarint i (7 * Z.of_nat i) acc (put_uvarint n y ++ rest)
  = Some (acc + y * 2 ^ (7 * Z.of_nat i), rest).
Proof.
  revert i acc y. induction n as [| f IH]; intros i acc y Hin Hacc Hy.
  - assert (i = 10%nat) by lia. subst i.
    rewrite Z.pow_neg_r in Hy by lia. lia.
  - assert (Hi10 : Nat.eqb i 10 = false) by (apply Nat.eqb_neq; lia).
    simpl put_uvarint. destruct (y <? 128) eqn:Hy128.
    + apply Z.ltb_lt in Hy128. simpl. rewrite Hi10, (proj2 (Z.ltb_lt _ _) Hy128).
      assert (Hnot : (Nat.eqb i 9 && (y >? 1)) = false).
      { destruct (Nat.eqb i 9) eqn:E9; [|reflexivity]. apply Nat.eqb_eq in E9. subst i.
        simpl. rewrite Z.gtb_ltb. apply Z.ltb_ge. change (2 ^ (64 - 7 * Z.of_nat 9)) with 2 in Hy. lia. }
      rewrite Hnot. rewrite lor_shiftl_add by lia. reflexivity.
    + apply Z.ltb_ge in Hy128.
      assert (Hi8 : (i <= 8)%nat).
      { destruct (Nat.le_gt_cases i 8) as [|H9]; [assumption|].
        assert (i = 9%nat) by lia. subst i.
        change (2 ^ (64 - 7 * Z.of_nat 9)) with 2 in Hy. lia. }
      simpl. rewrite Hi10, cont_byte.
      pose proof (Z.mod_pos_bound y 128 ltac:(lia)) as Hm.
      replace (y mod 128 + 128 <? 128) with false by (symmetry; apply Z.ltb_ge; lia).
      replace (Z.land (y mod 128 + 128) 127) with (y mod 128).
      2:{ change 127 with (Z.ones 7). rewrite Z.land_ones by lia.
          change (2 ^ 7) with 128.
          replace (y mod 128 + 128) with (y mod 128 + 1 * 128) by lia.
          rewrite Z.mod_add, Z.mod_mod by lia. reflexivity. }
      rewrite lor_shiftl_add by lia.
      replace (7 * Z.of_nat i + 7) with (7 * Z.of_nat (S i)) by lia.
      rewrite Z.shiftr_div_pow2 by lia. change (2 ^ 7) with 128.
      assert (Hp : 2 ^ (7 * Z.of_nat (S i)) = 2 ^ (7 * Z.of_nat i) * 128).
      { replace (7 * Z.of_nat (S i)) with (7 * Z.of_nat i + 7) by lia.
        rewrite Z.pow_add_r by lia. reflexivity. }
      assert (Hq : 2 ^ (64 - 7 * Z.of_nat i) = 2 ^ (64 - 7 * Z.of_nat (S i)) * 128).
      { replace (64 - 7 * Z.of_nat i) with (64 - 7 * Z.of_nat (S i) + 7) by lia.
        rewrite Z.pow_add_r by lia. reflexivity. }
      pose proof (Z.div_mod y 128 ltac:(lia)) as Hdm.
      pose proof (Z.pow_pos_nonneg 2 (7 * Z.of_nat i) ltac:(lia) ltac:(lia)) as Hpos.
      rewrite IH; [| lia | rewrite Hp; nia |].
      * f_equal. f_equal. rewrite Hp. nia.
      * split; [apply Z.div_pos; lia |]. apply Z.div_lt_upper_bound; lia.
Qed.

Lemma wireChopUint_append (x : Z) (rest : list Z) :
  u64 x -> wireChopUint (put_uvarint 10 x ++ rest) = Some (x, rest).
Proof.
  intros Hx. unfold wireChopUint.
  pose proof (put_uvarint_spec 10 0 0 x rest eq_refl) as H.
  simpl Z.of_nat in H. rewrite Z.mul_0_r, Z.pow_0_r, Z.mul_1_r, Z.add_0_l in H.
  apply H; unfold u64 in Hx; lia.
Qed.

Lemma wireChopSlice_append (n : nat) (l rest : list Z) :
  length l = n -> wireChopSlice n (l ++ rest) = Some (l, rest).
Proof.
  intros <-. unfold wireChopSlice. rewrite length_app.
  replace (Nat.ltb (length l + length rest) (length l)) with false
    by (symmetry; apply Nat.ltb_ge; lia).
  rewrite take_app_length, drop_app_length. reflexivity.
Qed.

End WireLemmas.

(** *** Round trips of the message codecs *)

Section CodecLemmas.

Lemma decode_with_app {A} (chop : list Z -> option (A * list Z)) (x : A) (enc extra : list Z) :
  (forall rest, chop (enc ++ rest) = Some (x, rest)) ->
  decode_with chop (enc ++ extra) = match extra with [] => Some x | _ :: _ => None end.
Proof. intros H. unfold decode_with. rewrite H. reflexivity. Qed.

Lemma sigReq_encode_out (req : routerSigReq) (out : list Z) :
  sigReq_encode req out = out ++ sigReq_encode req [].
Proof.
  unfold sigReq_encode, wireAppendUint. rewrite (app_nil_l (put_uvarint 10 (seq req))).
  rewrite <- !app_assoc. reflexivity.
Qed.

Lemma sigRes_encode_out (res : routerSigRes) (out : list Z) :
  sigRes_encode res out = out ++ sigRes_encode res [].
Proof.
  unfold sigRes_encode, wireAppendUint. rewrite (sigReq_encode_out _ out).
  rewrite <- !app_assoc. reflexivity.
Qed.

Lemma merkleReq_encode_out (req : routerMerkleReq) (out : list Z) :
  merkleReq_encode req out = out ++ merkleReq_encode req [].
Proof.
  unfold merkleReq_encode, wireAppendUint. rewrite (app_nil_l (put_uvarint 10 (prefixLen req))).
  rewrite <- !app_assoc. reflexivity.
Qed.

Lemma sigReq_chop_encode (req : routerSigReq) (rest : list Z) :
  sigReq_wf req -> sigReq_chop (sigReq_encode req [] ++ rest) = Some (req, rest).
Proof.
  intros [Hs Hn]. unfold sigReq_chop, sigReq_encode, wireAppendUint.
  rewrite app_nil_l, <- app_assoc, (wireChopUint_append _ _ Hs).
  rewrite (wireChopUint_append _ _ Hn). destruct req. reflexivity.
Qed.

Lemma sigRes_chop_encode (res : routerSigRes) (rest : list Z) :
  sigRes_wf res -> sigRes_chop (sigRes_encode res [] ++ rest) = Some (res, rest).
Proof.
  intros (Hq & Hp & Hl). unfold sigRes_chop, sigRes_encode, wireAppendUint.
  rewrite <- !app_assoc, (sigReq_chop_encode _ _ Hq).
  rewrite (wireChopUint_append _ _ Hp).
  rewrite (wireChopSlice_append _ _ _ Hl). destruct res. reflexivity.
Qed.

Lemma announce_chop_encode (ann : routerAnnounce) (rest : list Z) :
  announce_wf ann -> announce_chop (announce_encode ann [] ++ rest) = Some (ann, rest).
Proof.
  intros (Hk & Hp & Hr & Hs). unfold announce_chop, announce_encode.
  rewrite sigRes_encode_out, app_nil_l, <- !app_assoc.
  rewrite (wireChopSlice_append _ _ _ Hk).
  rewrite (wireChopSlice_append _ _ _ Hp).
  rewrite (sigRes_chop_encode _ _ Hr).
  rewrite (wireChopSlice_append _ _ _ Hs). destruct ann. reflexivity.
Qed.

Lemma merkleReq_chop_encode (req : routerMerkleReq) (rest : list Z) :
  merkleReq_wf req -> merkleReq_chop (merkleReq_encode req [] ++ rest) = Some (req, rest).
Proof.
  intros [Hl Hp]. unfold merkleReq_chop, merkleReq_encode, wireAppendUint.
  rewrite app_nil_l, <- app_assoc, (wireChopUint_append _ _ Hl).
  rewrite (wireChopSlice_append _ _ _ Hp). destruct req. reflexivity.
Qed.

Lemma merkleRes_chop_encode (res : routerMerkleRes) (rest : list Z) :
  merkleRes_wf res -> merkleRes_chop (merkleRes_encode res [] ++ rest) = Some (res, rest).
Proof.
  intros [Hq Hd]. unfold merkleRes_chop, merkleRes_encode.
  rewrite <- app_assoc, (merkleReq_chop_encode _ _ Hq).
  rewrite (wireChopSlice_append _ _ _ Hd). destruct res. reflexivity.
Qed.

Lemma roundtrip_of {A} (chop : list Z -> option (A * list Z)) (x : A) (enc extra : list Z) :
  (forall rest, chop (enc ++ rest) = Some (x, rest)) ->
  decode_with chop enc = Some x /\ (extra <> [] -> decode_with chop (enc ++ extra) = None).
Proof.
  intros H. split.
  - rewrite <- (app_nil_r enc). rewrite (decode_with_app chop x enc [] H). reflexivity.
  - intros Hne. rewrite (decode_with_app chop x enc extra H).
    destruct extra; [congruence | reflexivity].
Qed.

End CodecLemmas.

(** ** C8: codec round trips *)

(** C8: for every value of [routerSigReq], [routerSigRes], [routerAnnounce],
    [routerMerkleReq] and [routerMerkleRes] (integers in 64 bits, arrays of
    their fixed sizes), decoding the encoding gives the value back, and
    decoding the encoding followed by any non-empty trailing bytes fails. *)
Theorem router_codecs_roundtrip :
  (forall (x : routerSigReq) (extra : list Z), sigReq_wf x ->
     sigReq_decode (sigReq_encode x []) = Some x /\
     (extra <> [] -> sigReq_decode (sigReq_encode x [] ++ extra) = None)) /\
  (forall (x : routerSigRes) (extra : list Z), sigRes_wf x ->
     sigRes_decode (sigRes_encode x []) = Some x /\
     (extra <> [] -> sigRes_decode (sigRes_encode x [] ++ extra) = None)) /\
  (forall (x : routerAnnounce) (extra : list Z), announce_wf x ->
     announce_decode (announce_encode x []) = Some x /\
     (extra <> [] -> announce_decode (announce_encode x [] ++ extra) = None)) /\
  (forall (x : routerMerkleReq) (extra : list Z), merkleReq_wf x ->
     merkleReq_decode (merkleReq_encode x []) = Some x /\
     (extra <> [] -> merkleReq_decode (merkleReq_encode x [] ++ extra) = None)) /\
  (forall (x : routerMerkleRes) (extra : list Z), merkleRes_wf x ->
     merkleRes_decode (merkleRes_encode x []) = Some x /\
     (extra <> [] -> merkleRes_decode (merkleRes_encode x [] ++ extra) = None)).
Proof.
  split; [| split; [| split; [| split]]]; intros x extra Hwf;
    apply roundtrip_of; intros rest;
    [ apply sigReq_chop_encode | apply sigRes_chop_encode | apply announce_chop_encode
    | apply merkleReq_chop_encode | apply merkleRes_chop_encode ]; exact Hwf.
Qed.

(* ------------------------------------------------------------------ *)
(** ** The announcement store *)

(** [routerAnnounce.check]; [verify] is [publicKey.verify] (crypto.go),
    left abstract. *)
Definition announce_check (verify : publicKey -> list Z -> list Z -> bool)
    (ann : routerAnnounce) : bool :=
  if (ann_port ann =? 0)%Z && negb (bool_decide (ann_key ann = ann_parent ann)) then false
  else
    let bs := sigRes_bytesForSig (ann_res ann) (ann_key ann) (ann_parent ann) in
    verify (ann_key ann) bs (ann_sig ann) && verify (ann_parent ann) bs (psig (ann_res ann)).

(** The acceptance order of §4.2 in the words of the spec: the first
    differing rule decides. *)
Definition crdt_accepts (i : routerInfo) (a : routerAnnounce) : bool :=
  if (ann_seq a >? info_seq i)%Z then true
  else if (ann_seq a <? info_seq i)%Z then false
  else if less (ann_parent a) (parent i) then true
  else if less (parent i) (ann_parent a) then false
  else (ann_nonce a <? info_nonce i)%Z.

Section LessLemmas.

Lemma less_irrefl (k : publicKey) : less k k = false.
Proof. induction k as [| b k IH]; simpl; [reflexivity |]. rewrite Z.ltb_irrefl. exact IH. Qed.

Lemma less_trans (a b c : publicKey) : less a b = true -> less b c = true -> less a c = true.
Proof.
  revert b c. induction a as [| x a IH]; intros [| y b] [| z c]; simpl; try discriminate.
  intros H1 H2.
  destruct (x <? y)%Z eqn:Exy; destruct (y <? x)%Z eqn:Eyx;
  destruct (y <? z)%Z eqn:Eyz; destruct (z <? y)%Z eqn:Ezy;
  rewrite ?Z.ltb_lt, ?Z.ltb_ge in *; try discriminate;
  destruct (x <? z)%Z eqn:Exz; destruct (z <? x)%Z eqn:Ezx;
  rewrite ?Z.ltb_lt, ?Z.ltb_ge in *; try lia; try reflexivity.
  assert (x = y) by lia. assert (y = z) by lia. subst. eauto.
Qed.

Lemma less_asym (a b : publicKey) : less a b = true -> less b a = false.
Proof.
  intros H. destruct (less b a) eqn:E; [| reflexivity].
  pose proof (less_trans _ _ _ H E) as H'. rewrite less_irrefl in H'. discriminate.
Qed.

Lemma less_zero_key (k : publicKey) : Forall (fun b => 0 <= b)%Z k -> less k zero_key = false.
Proof.
  unfold zero_key. generalize publicKeySize as n. intros n Hk. revert n.
  induction Hk as [| b k Hb Hk IH]; intros [| n]; simpl; try reflexivity.
  destruct (b <? 0)%Z eqn:E1; [apply Z.ltb_lt in E1; lia |].
  destruct (0 <? b)%Z; [reflexivity | apply IH].
Qed.

Lemma less_total (a b : publicKey) :
  length a = length b -> a <> b -> less a b = true \/ less b a = true.
Proof.
  revert b. induction a as [| x a IH]; intros [| y b]; simpl; intros Hl Hne;
    try discriminate; [congruence |].
  destruct (x <? y)%Z eqn:E1; [left; reflexivity |].
  destruct (y <? x)%Z eqn:E2; [right; reflexivity |].
  apply Z.ltb_ge in E1, E2. assert (x = y) by lia. subst.
  apply IH; [lia | congruence].
Qed.

End LessLemmas.

Section StoreLemmas.

(** What [_fix] does to the store: it changes the entry of the local key
    only ([_useResponse] and [_becomeRoot] [_update] the local
    announcement), keeps that entry present, and takes no time. *)
Hypothesis fix_other : forall st k, k <> self_key ->
  infos (fix_router st) !! k = infos st !! k /\ timers (fix_router st) !! k = timers st !! k.
Hypothesis fix_self : forall st, is_Some (infos st !! self_key) ->
  is_Some (infos (fix_router st) !! self_key).
Hypothesis fix_now : forall st, now (fix_router st) = now st.

Lemma fix_size st :
  is_Some (infos st !! self_key) -> size (infos (fix_router st)) = size (infos st).
Proof.
  intros Hs. rewrite <- !(size_dom (D := gset publicKey)). f_equal.
  apply set_eq. intros k. rewrite !elem_of_dom.
  destruct (decide (k = self_key)) as [-> | Hne].
  - split; [intros _; exact Hs | intros _; apply fix_self, Hs].
  - rewrite (proj1 (fix_other st k Hne)). reflexivity.
Qed.

Lemma update_reject st ann jitter :
  fst (update st ann jitter) = false -> update st ann jitter = (false, st).
Proof.
  unfold update. destruct (negb _); [reflexivity | discriminate].
Qed.

Lemma update_accept st ann jitter st1 :
  update st ann jitter = (true, st1) ->
  infos st1 = <[ann_key ann := info_of ann]> (infos st) /\
  timers st1 = <[ann_key ann := {| tid := next_tid st;
                                   due := (now st + if decide (ann_key ann = self_key)
                                           then routerRefresh + jitter else routerTimeout)%Z |}]>
                 (timers st) /\
  now st1 = now st.
Proof.
  unfold update. destruct (negb _); [discriminate |]. intros H. injection H as <-.
  repeat split.
Qed.

(** C1: against a stored info [i] for the same key, [_update] accepts
    exactly when the first differing rule of §4.2 accepts; an announce
    with the same seq, parent and nonce is refused, and [_handleAnnounce]
    then leaves the router untouched (no [_fix], nothing sent back). *)
Theorem update_crdt_order (st : router) (ann : routerAnnounce) (jitter : Z) (i : routerInfo) :
  infos st !! ann_key ann = Some i ->
  fst (update st ann jitter) = crdt_accepts i ann /\
  (ann_seq ann = info_seq i -> ann_parent ann = parent i -> ann_nonce ann = info_nonce i ->
   update st ann jitter = (false, st) /\
   forall ks, handleAnnounce_in ks st ann jitter = st).
Proof.
  intros Hi. split.
  - unfold update. rewrite Hi. unfold update_proceeds, crdt_accepts.
    destruct (info_seq i >? ann_seq ann)%Z eqn:E1;
      [rewrite Z.gtb_ltb, Z.ltb_lt in E1;
       replace (ann_seq ann >? info_seq i)%Z with false
         by (symmetry; rewrite Z.gtb_ltb; apply Z.ltb_ge; lia);
       replace (ann_seq ann <? info_seq i)%Z with true by (symmetry; apply Z.ltb_lt; lia);
       reflexivity |].
    rewrite Z.gtb_ltb, Z.ltb_ge in E1.
    destruct (info_seq i <? ann_seq ann)%Z eqn:E2;
      [apply Z.ltb_lt in E2;
       replace (ann_seq ann >? info_seq i)%Z with true
         by (symmetry; rewrite Z.gtb_ltb; apply Z.ltb_lt; lia); reflexivity |].
    apply Z.ltb_ge in E2.
    replace (ann_seq ann >? info_seq i)%Z with false
      by (symmetry; rewrite Z.gtb_ltb; apply Z.ltb_ge; lia).
    replace (ann_seq ann <? info_seq i)%Z with false by (symmetry; apply Z.ltb_ge; lia).
    destruct (less (parent i) (ann_parent ann)) eqn:E3.
    + rewrite (less_asym _ _ E3). reflexivity.
    + destruct (less (ann_parent ann) (parent i)); [reflexivity |].
      destruct (ann_nonce ann <? info_nonce i)%Z; reflexivity.
  - intros Hs Hp Hn.
    assert (Hrej : update st ann jitter = (false, st)).
    { unfold update. rewrite Hi. unfold update_proceeds.
      rewrite Hs, Hp, Hn, less_irrefl, Z.gtb_ltb, !Z.ltb_irrefl. reflexivity. }
    split; [exact Hrej |]. intros ks. unfold handleAnnounce_in.
    destruct (Nat.ltb _ _); [rewrite Hrej; reflexivity |].
    rewrite bool_decide_true by (rewrite Hi; eauto). rewrite Hrej. reflexivity.
Qed.

(** C9: for a key with no stored entry, [_update] accepts any announce:
    it stores [info_of ann] and a fresh timer, with no comparison and no
    signature or port check. *)
Theorem update_new_key (st : router) (ann : routerAnnounce) (jitter : Z) :
  infos st !! ann_key ann = None ->
  exists st1, update st ann jitter = (true, st1) /\
    infos st1 = <[ann_key ann := info_of ann]> (infos st) /\
    timers st1 = <[ann_key ann := {| tid := next_tid st;
                                     due := (now st + if decide (ann_key ann = self_key)
                                             then routerRefresh + jitter else routerTimeout)%Z |}]>
                   (timers st).
Proof.
  intros Hn. unfold update. rewrite Hn. simpl. eexists. split; [reflexivity |]. split; reflexivity.
Qed.

(** The search for the worst key keeps the highest non-self key seen. *)
Definition worst_inv (seen : list publicKey) (fw : bool * publicKey) : Prop :=
  (fst fw = true -> snd fw ∈ seen /\ snd fw <> self_key /\
     forall k, k ∈ seen -> k <> self_key -> less (snd fw) k = false) /\
  (fst fw = false -> snd fw = zero_key /\ forall k, k ∈ seen -> k = self_key).

Lemma worst_fold (ks seen : list publicKey) (fw : bool * publicKey) :
  worst_inv seen fw -> worst_inv (seen ++ ks) (fold_left worst_step ks fw).
Proof.
  revert seen fw. induction ks as [| k ks IH]; intros seen [found worst] [Hf Hnf].
  - rewrite app_nil_r. split; assumption.
  - simpl. replace (seen ++ k :: ks) with ((seen ++ [k]) ++ ks) by (rewrite <- app_assoc; reflexivity).
    apply IH. unfold worst_step. simpl in Hf, Hnf.
    destruct (decide (k = self_key)) as [-> | Hne].
    + split; simpl.
      * intros Ht. destruct (Hf Ht) as (Hin & Hns & Hmax). split; [set_solver |]. split; [exact Hns |].
        intros k' Hk' Hk's. apply elem_of_app in Hk' as [Hk' | Hk']; [auto | set_solver].
      * intros Ht. destruct (Hnf Ht) as [Hz Hall]. split; [exact Hz |].
        intros k' Hk'. apply elem_of_app in Hk' as [Hk' | Hk']; [auto | set_solver].
    + destruct found; simpl.
      * destruct (less worst k) eqn:Ewk; simpl.
        -- split; simpl; [| discriminate]. intros _. split; [set_solver |]. split; [exact Hne |].
           intros k' Hk' Hk's. apply elem_of_app in Hk' as [Hk' | Hk'].
           ++ destruct (Hf eq_refl) as (_ & _ & Hmax). specialize (Hmax k' Hk' Hk's).
              destruct (less k k') eqn:Ekk; [| reflexivity].
              rewrite (less_trans _ _ _ Ewk Ekk) in Hmax. discriminate.
           ++ apply list_elem_of_singleton in Hk'. subst. apply less_irrefl.
        -- split; simpl; [| discriminate]. intros _. destruct (Hf eq_refl) as (Hin & Hns & Hmax).
           split; [set_solver |]. split; [exact Hns |].
           intros k' Hk' Hk's. apply elem_of_app in Hk' as [Hk' | Hk']; [auto |].
           apply list_elem_of_singleton in Hk'. subst. exact Ewk.
      * split; simpl; [| discriminate]. intros _. split; [set_solver |]. split; [exact Hne |].
        intros k' Hk' Hk's. apply elem_of_app in Hk' as [Hk' | Hk'].
        -- destruct (Hnf eq_refl) as [_ Hall]. specialize (Hall k' Hk'). contradiction.
        -- apply list_elem_of_singleton in Hk'. subst. apply less_irrefl.
Qed.

Lemma find_worst_spec (ks : list publicKey) : worst_inv ks (find_worst ks).
Proof.
  unfold find_worst. change ks with ([] ++ ks) at 1. apply worst_fold.
  split; simpl; [discriminate |]. intros _. split; [reflexivity |]. intros k Hk. set_solver.
Qed.

(** C3: with the local key stored and at most [routerMaxInfos] infos,
    [_handleAnnounce] (in any iteration order [ks] of [infos]) keeps at
    most [routerMaxInfos] infos. At capacity, a new key is stored only if
    it is below the highest non-self key, which is then evicted together
    with its timer. *)
Theorem handleAnnounce_capacity (ks : list publicKey) (st : router)
    (ann : routerAnnounce) (jitter : Z) :
  is_Some (infos st !! self_key) ->
  size (infos st) <= routerMaxInfos ->
  Forall (fun b => 0 <= b)%Z (ann_key ann) ->
  (forall k, k ∈ ks <-> is_Some (infos st !! k)) ->
  size (infos (handleAnnounce_in ks st ann jitter)) <= routerMaxInfos /\
  (routerMaxInfos <= size (infos st) -> infos st !! ann_key ann = None ->
   is_Some (infos (handleAnnounce_in ks st ann jitter) !! ann_key ann) ->
   exists worst, worst <> self_key /\ is_Some (infos st !! worst) /\
     (forall k, k <> self_key -> is_Some (infos st !! k) -> less worst k = false) /\
     less (ann_key ann) worst = true /\
     infos (handleAnnounce_in ks st ann jitter) !! worst = None /\
     timers (handleAnnounce_in ks st ann jitter) !! worst = None).
Proof.
  intros Hself Hsize Hbytes Hks. unfold handleAnnounce_in.
  destruct (Nat.ltb (size (infos st)) routerMaxInfos) eqn:Elt.
  - apply Nat.ltb_lt in Elt. simpl.
    destruct (update st ann jitter) as [[|] st1] eqn:Eu; [| split; [lia | intros; lia]].
    destruct (update_accept st ann jitter st1 Eu) as (Hi1 & _ & _).
    set (st3 := if decide (ann_key ann = self_key) then set_refresh st1 true else st1).
    assert (Hi3 : infos st3 = infos st1) by (unfold st3; destruct (decide _); reflexivity).
    split; [| intros; lia].
    rewrite fix_size.
    + rewrite Hi3, Hi1, map_size_insert. destruct (infos st !! ann_key ann); simpl; lia.
    + rewrite Hi3, Hi1. rewrite lookup_insert.
      destruct (decide (ann_key ann = self_key)); [eauto | exact Hself].
  - apply Nat.ltb_ge in Elt.
    destruct (bool_decide (is_Some (infos st !! ann_key ann))) eqn:Eb.
    + apply bool_decide_eq_true in Eb. simpl.
      destruct (update st ann jitter) as [[|] st1] eqn:Eu;
        [| split; [lia | intros _ Hn; rewrite Hn in Eb; destruct Eb; discriminate]].
      destruct (update_accept st ann jitter st1 Eu) as (Hi1 & _ & _).
      set (st3 := if decide (ann_key ann = self_key) then set_refresh st1 true else st1).
      assert (Hi3 : infos st3 = infos st1) by (unfold st3; destruct (decide _); reflexivity).
      split; [| intros _ Hn; rewrite Hn in Eb; destruct Eb; discriminate].
      rewrite fix_size.
      * rewrite Hi3, Hi1, map_size_insert_Some by exact Eb. exact Hsize.
      * rewrite Hi3, Hi1. rewrite lookup_insert.
        destruct (decide (ann_key ann = self_key)); [eauto | exact Hself].
    + apply bool_decide_eq_false in Eb.
      assert (Hnone : infos st !! ann_key ann = None)
        by (destruct (infos st !! ann_key ann); [exfalso; apply Eb; eauto | reflexivity]).
      assert (Hkself : ann_key ann <> self_key)
        by (intros Heq; rewrite Heq in Hnone; rewrite Hnone in Hself; destruct Hself; discriminate).
      pose proof (find_worst_spec ks) as [Hf Hnf].
      destruct (find_worst ks) as [found worst] eqn:Ew. simpl in Hf, Hnf.
      destruct (less (ann_key ann) worst) eqn:El; simpl;
        [| split; [lia | intros _ _ Hs; rewrite Hnone in Hs; destruct Hs; discriminate]].
      destruct (update_new_key st ann jitter Hnone) as (st1 & Eu & Hi1 & Ht1). rewrite Eu.
      destruct found; [| destruct (Hnf eq_refl) as [-> _]; rewrite less_zero_key in El by exact Hbytes;
                         discriminate].
      destruct (Hf eq_refl) as (Hwin & Hwself & Hwmax).
      assert (Hwpres : is_Some (infos st !! worst)) by (apply Hks; exact Hwin).
      assert (Hwk : worst <> ann_key ann)
        by (intros ->; rewrite less_irrefl in El; discriminate).
      set (st2 := set_cache (set_timers (set_infos st1 (delete worst (infos st1)))
                                (delete worst (timers st1))) ∅).
      set (st3 := if decide (ann_key ann = self_key) then set_refresh st2 true else st2).
      assert (Hi3 : infos st3 = delete worst (<[ann_key ann := info_of ann]> (infos st)))
        by (unfold st3; destruct (decide _); simpl; rewrite Hi1; reflexivity).
      assert (Ht3 : timers st3 = delete worst (timers st1))
        by (unfold st3; destruct (decide _); reflexivity).
      assert (Hs3 : is_Some (infos st3 !! self_key)).
      { rewrite Hi3, lookup_delete_ne by congruence. rewrite lookup_insert_ne by congruence.
        exact Hself. }
      split.
      * rewrite fix_size by exact Hs3. rewrite Hi3, map_size_delete, lookup_insert_ne by congruence.
        destruct Hwpres as [w Hw]. rewrite Hw. rewrite map_size_insert_None by exact Hnone.
        simpl. exact Hsize.
      * intros _ _ _. exists worst. split; [exact Hwself |]. split; [exact Hwpres |].
        split; [| split; [exact El |]].
        { intros k Hk Hks'. apply Hwmax; [apply Hks; exact Hks' | exact Hk]. }
        destruct (fix_other st3 worst Hwself) as [Hfi Hft]. rewrite Hfi, Hft, Hi3, Ht3.
        split; apply lookup_delete_eq.
Qed.

Lemma run_key_fire (f : nat) (st : router) (k : publicKey) (t : Z) (tm : timer) :
  timers st !! k = Some tm -> (due tm <= t)%Z ->
  run_key (S f) st k t = run_key f (fire_timer (set_now st (due tm)) k (tid tm)) k t.
Proof.
  intros Ht Hd. simpl. rewrite Ht. replace (due tm <=? t)%Z with true by (symmetry; apply Z.leb_le; lia).
  reflexivity.
Qed.

Lemma run_key_stop (f : nat) (st : router) (k : publicKey) (t : Z) (tm : timer) :
  timers st !! k = Some tm -> (t < due tm)%Z -> run_key f st k t = set_now st t.
Proof.
  intros Ht Hd. destruct f; simpl; [reflexivity |]. rewrite Ht.
  replace (due tm <=? t)%Z with false by (symmetry; apply Z.leb_gt; lia). reflexivity.
Qed.

Lemma run_key_none (f : nat) (st : router) (k : publicKey) (t : Z) :
  timers st !! k = None -> run_key f st k t = set_now st t.
Proof. intros Ht. destruct f; simpl; [reflexivity |]. rewrite Ht. reflexivity. Qed.



Lemma fire_remote_live st key tm info :
  key <> self_key -> timers st !! key = Some tm -> infos st !! key = Some info ->
  expired info = false ->
  infos (fire_timer st key (tid tm)) !! key = Some (expire info) /\
  timers (fire_timer st key (tid tm)) !! key =
    Some {| tid := tid tm; due := (now st + 2 * routerTimeout)%Z |} /\
  now (fire_timer st key (tid tm)) = now st.
Proof.
  intros Hk Ht Hi He. unfold fire_timer. rewrite Ht, Nat.eqb_refl.
  destruct (decide (key = self_key)); [contradiction |]. rewrite Hi, He.
  destruct (fix_other (set_timers (set_infos st (<[key:=expire info]> (infos st)))
              (<[key:={| tid := tid tm; due := now st + 2 * routerTimeout |}]> (timers st))) key Hk)
    as [Hfi Hft].
  rewrite Hfi, Hft, fix_now. simpl. rewrite !lookup_insert_eq. auto.
Qed.

Lemma fire_remote_expired st key tm info :
  key <> self_key -> timers st !! key = Some tm -> infos st !! key = Some info ->
  expired info = true ->
  infos (fire_timer st key (tid tm)) !! key = None /\
  timers (fire_timer st key (tid tm)) !! key = None.
Proof.
  intros Hk Ht Hi He. unfold fire_timer. rewrite Ht, Nat.eqb_refl.
  destruct (decide (key = self_key)); [contradiction |]. rewrite Hi, He.
  match goal with |- context [fix_router ?s] => destruct (fix_other s key Hk) as [Hfi Hft] end.
  rewrite Hfi, Hft. simpl. rewrite !lookup_delete_eq. auto.
Qed.

(** C6 (as the code has it): the timer of a remote key fires
    [routerTimeout] after acceptance and marks the info expired, the info
    otherwise unchanged; it is then reset to fire [2 * routerTimeout]
    later, which deletes the info and the timer, so the entry lives
    [3 * routerTimeout]. The local key's timer is due [routerRefresh +
    jitter] after acceptance and only sets [refresh] and runs [_fix]. *)
Theorem update_timer_lifecycle (st : router) (ann : routerAnnounce) (jitter : Z)
    (st1 : router) (fuel : nat) (t : Z) :
  update st ann jitter = (true, st1) ->
  (0 < routerTimeout)%Z ->
  (2 <= fuel)%nat ->
  (ann_key ann <> self_key ->
   ((t < now st + routerTimeout)%Z ->
      infos (run_key fuel st1 (ann_key ann) t) !! ann_key ann = Some (info_of ann)) /\
   ((now st + routerTimeout <= t < now st + 3 * routerTimeout)%Z ->
      infos (run_key fuel st1 (ann_key ann) t) !! ann_key ann = Some (expire (info_of ann))) /\
   ((now st + 3 * routerTimeout <= t)%Z ->
      infos (run_key fuel st1 (ann_key ann) t) !! ann_key ann = None /\
      timers (run_key fuel st1 (ann_key ann) t) !! ann_key ann = None)) /\
  (ann_key ann = self_key ->
   timers st1 !! ann_key ann =
     Some {| tid := next_tid st; due := (now st + (routerRefresh + jitter))%Z |} /\
   infos st1 !! ann_key ann = Some (info_of ann) /\
   forall st' tm, timers st' !! ann_key ann = Some tm ->
     fire_timer st' (ann_key ann) (tid tm) = fix_router (set_refresh st' true)).
Proof.
  intros Eu HT Hfuel. destruct (update_accept st ann jitter st1 Eu) as (Hi1 & Ht1 & Hn1).
  split.
  - intros Hk. rewrite decide_False in Ht1 by exact Hk.
    set (k := ann_key ann) in *.
    set (tm := {| tid := next_tid st; due := (now st + routerTimeout)%Z |}) in Ht1.
    assert (Htk : timers st1 !! k = Some tm) by (rewrite Ht1; apply lookup_insert_eq).
    assert (Hik : infos st1 !! k = Some (info_of ann)) by (rewrite Hi1; apply lookup_insert_eq).
    destruct fuel as [| [| f]]; [lia | lia |].
    set (s1 := set_now st1 (due tm)).
    destruct (fire_remote_live s1 k tm (info_of ann) Hk Htk Hik eq_refl) as (Hi2 & Ht2 & Hn2).
    set (st2 := fire_timer s1 k (tid tm)) in *.
    simpl in Hn2, Ht2.
    set (tm2 := {| tid := tid tm; due := (now st + routerTimeout + 2 * routerTimeout)%Z |}) in Ht2.
    split; [| split].
    + intros Ht. rewrite (run_key_stop _ _ _ _ tm Htk) by (simpl; lia). exact Hik.
    + intros Ht. rewrite (run_key_fire _ _ _ _ tm Htk) by (simpl; lia). fold s1 st2.
      rewrite (run_key_stop _ _ _ _ tm2 Ht2) by (simpl; lia). exact Hi2.
    + intros Ht. rewrite (run_key_fire _ _ _ _ tm Htk) by (simpl; lia). fold s1 st2.
      rewrite (run_key_fire _ _ _ _ tm2 Ht2) by (simpl; lia).
      assert (Ht2' : timers (set_now st2 (due tm2)) !! k = Some tm2) by exact Ht2.
      assert (Hi2' : infos (set_now st2 (due tm2)) !! k = Some (expire (info_of ann))) by exact Hi2.
      destruct (fire_remote_expired _ k tm2 _ Hk Ht2' Hi2' eq_refl) as [Hi3 Ht3].
      rewrite run_key_none by exact Ht3. split; assumption.
  - intros Hk. rewrite decide_True in Ht1 by exact Hk. split; [| split].
    + rewrite Ht1. apply lookup_insert_eq.
    + rewrite Hi1. apply lookup_insert_eq.
    + intros st' tm Ht'. unfold fire_timer. rewrite Ht', Nat.eqb_refl.
      rewrite decide_True by exact Hk. reflexivity.
Qed.

End StoreLemmas.

End Router.

(** A trajectory: the packet goes through the routers [(key, state)] in
    turn for as long as each forwards it; the number of forwarding hops. *)
Fixpoint forward (rs : list (publicKey * router)) (tr : traffic) : nat :=
  match rs with
  | [] => O
  | (k, st) :: rs' =>
      match lookup k st tr with
      | (Some _, tr', _) => S (forward rs' tr')
      | (None, _, _) => O
      end
  end.


(* ------------------------------------------------------------------ *)
(** ** The peer table of [peers.go] *)

Module Peers.

(** The fields of a [*peer] used here; [port] is a [peerPort]. *)
Record peer := { key : publicKey; port : Z }.

(** The loop [for idx := 1; ; idx++] of [addPeer]: the first [idx] not in
    [ps.peers]. At most [size ps] indices are in use, so [size ps + 1]
    passes are enough. *)
Fixpoint free_port (fuel : nat) (idx : Z) (ps : gmap Z peer) : Z :=
  match fuel with
  | O => idx
  | S f =>
      match ps !! idx with
      | Some _ => free_port f (idx + 1) ps
      | None => idx
      end
  end.

(** [addPeer]: [None] is the error of a closed [PacketConn]. *)
Definition addPeer (closed : bool) (ps : gmap Z peer) (k : publicKey)
    : option (peer * gmap Z peer) :=
  if closed then None else
  let port := free_port (S (size ps)) 1 ps in
  let p := {| key := k; port := port |} in
  Some (p, <[port := p]> ps).

(** [removePeer]: [None] is the error "peer not found". *)
Definition removePeer (ps : gmap Z peer) (port : Z) : option (gmap Z peer) :=
  match ps !! port with
  | Some _ => Some (delete port ps)
  | None => None
  end.

(** The calls made on a [peers] object. *)
Inductive op := AddPeer (k : publicKey) | RemovePeer (port : Z).

(** The table after a sequence of calls on an open [PacketConn]; a call
    that returns an error leaves it unchanged. *)
Definition run_op (ps : gmap Z peer) (o : op) : gmap Z peer :=
  match o with
  | AddPeer k => match addPeer false ps k with Some (_, ps') => ps' | None => ps end
  | RemovePeer q => match removePeer ps q with Some ps' => ps' | None => ps end
  end.

Definition run_ops (ps : gmap Z peer) (os : list op) : gmap Z peer := fold_left run_op os ps.

End Peers.

(* ------------------------------------------------------------------ *)
(** ** Merkle requests *)

Module Merkle.

#[local] Set Warnings "-register-all".

(** Modelled from the spec: the [merkletree] package (not among the
    sources), a binary trie over the bits of a key with a digest in every
    node. [MNode digest left right] is a [*merkletree.Node]. *)
Inductive mnode := MNode (d : list Z) (l r : option mnode).

Definition Digest (n : mnode) : list Z := let '(MNode d _ _) := n in d.
Definition Left (n : mnode) : option mnode := let '(MNode _ l _) := n in l.
Definition Right (n : mnode) : option mnode := let '(MNode _ _ r) := n in r.

(** Modelled from the spec: [merkletree.KeyBits], the bits of a key. *)
Definition KeyBits : nat := 8 * publicKeySize.

(** Modelled from the spec: [Key.GetBit] and [Key.SetBit], bit [offset]
    counted from the most significant bit of byte 0. *)
Definition bit_mask (offset : nat) : Z := Z.pow 2 (Z.of_nat (7 - offset mod 8)).

Definition GetBit (k : publicKey) (offset : nat) : bool :=
  match k !! (offset / 8)%nat with
  | Some byte => Z.testbit byte (Z.of_nat (7 - offset mod 8))
  | None => false
  end.

Definition SetBit (k : publicKey) (b : bool) (offset : nat) : publicKey :=
  match k !! (offset / 8)%nat with
  | Some byte =>
      <[(offset / 8)%nat := if b then Z.lor byte (bit_mask offset)
                           else Z.land byte (Z.lnot (bit_mask offset))]> k
  | None => k
  end.

(** Modelled from the spec: [Tree.NodeFor]: descend along the bits of
    [key] while they match the tree, for at most [prefixLen] bits; the
    node reached and the number of bits matched. *)
Fixpoint node_for_from (node : mnode) (key : publicKey) (depth fuel : nat) {struct fuel}
    : mnode * nat :=
  match fuel with
  | O => (node, depth)
  | S f =>
      match (if GetBit key depth then Right node else Left node) with
      | Some next => node_for_from next key (S depth) f
      | None => (node, depth)
      end
  end.

Definition NodeFor (root : mnode) (key : publicKey) (prefixLen : nat) : mnode * nat :=
  node_for_from root key 0 prefixLen.

(** The messages [handleMerkleReq] sends to the peer. *)
Inductive msg :=
  | SendMerkleRes (res : routerMerkleRes)
  | SendAnnounce (ann : routerAnnounce).

(** The end of the handler: the messages sent, or a [panic]. *)
Inductive outcome := Sent (ms : list msg) | Panic.

(** The [for] loop of [handleMerkleReq], which follows [node.Left] or
    [node.Right] (so it recurses on the node). *)
Fixpoint descend (infos : gmap publicKey routerInfo) (node : mnode)
    (prefixLen : Z) (prefix : publicKey) : outcome :=
  match node with
  | MNode d (Some _) (Some _) =>
      Sent [SendMerkleRes {| mres_req := {| prefixLen := prefixLen; prefix := prefix |};
                             digest := d |}]
  | MNode _ (Some l) None =>
      descend infos l (prefixLen + 1) (SetBit prefix false (Z.to_nat prefixLen))
  | MNode _ None (Some r) =>
      descend infos r (prefixLen + 1) (SetBit prefix true (Z.to_nat prefixLen))
  | MNode _ None None =>
      if negb (prefixLen =? Z.of_nat KeyBits)%Z then Panic
      else match infos !! prefix with
           | Some info => Sent [SendAnnounce (getAnnounce info prefix)]
           | None => Panic
           end
  end.

(** [handleMerkleReq] for a request from the peer with key [pkey];
    [merks] is [r.merks] (a missing tree is a nil [*Tree]). *)
Definition handleMerkleReq (merks : gmap publicKey mnode) (infos : gmap publicKey routerInfo)
    (pkey : publicKey) (req : routerMerkleReq) : outcome :=
  match merks !! pkey with
  | None => Panic
  | Some merk =>
      let '(node, plen) := NodeFor merk (prefix req) (Z.to_nat (prefixLen req)) in
      if negb (Z.of_nat plen =? prefixLen req)%Z then Sent []
      else descend infos node (prefixLen req) (prefix req)
  end.

(** The shape of a tree built from the keys of [infos]: a node without
    children sits at depth [KeyBits] and the bits of the path to it name
    a key of [infos]; the nodes above have depth less than [KeyBits]. *)
Fixpoint leaves_ok (infos : gmap publicKey routerInfo) (node : mnode) (depth : nat)
    (key : publicKey) : bool :=
  match node with
  | MNode _ None None => Nat.eqb depth KeyBits && bool_decide (is_Some (infos !! key))
  | MNode _ l r =>
      Nat.ltb depth KeyBits &&
      match l with Some n => leaves_ok infos n (S depth) (SetBit key false depth) | None => true end &&
      match r with Some n => leaves_ok infos n (S depth) (SetBit key true depth) | None => true end
  end.

(** The descent the spec describes: follow the only child, extending the
    prefix with its bit and the length by one. *)
Inductive single_chain : mnode -> Z -> publicKey -> mnode -> Z -> publicKey -> Prop :=
  | chain_here n len p : single_chain n len p n len p
  | chain_left d c len p n' len' p' :
      single_chain c (len + 1) (SetBit p false (Z.to_nat len)) n' len' p' ->
      single_chain (MNode d (Some c) None) len p n' len' p'
  | chain_right d c len p n' len' p' :
      single_chain c (len + 1) (SetBit p true (Z.to_nat len)) n' len' p' ->
      single_chain (MNode d None (Some c)) len p n' len' p'.

(** The tree holding the single key [key] below depth [depth]. *)
Fixpoint path_tree (key : publicKey) (depth fuel : nat) : mnode :=
  match fuel with
  | O => MNode [] None None
  | S f =>
      if GetBit key depth then MNode [] None (Some (path_tree key (S depth) f))
      else MNode [] (Some (path_tree key (S depth) f)) None
  end.

End Merkle.

(** ** Forwarding lemmas *)

Lemma common_prefix_le (a b : list Z) :
  (common_prefix a b <= length a)%nat /\ (common_prefix a b <= length b)%nat.
Proof.
  revert b. induction a as [| x a IH]; intros [| y b]; simpl; try lia.
  destruct (x =? y)%Z; simpl; [specialize (IH b); lia | lia].
Qed.

Lemma getDist_nonneg (st : router) (path : list Z) (key : publicKey) :
  (0 <= fst (getDist st path key))%Z.
Proof.
  unfold getDist. destruct (cache st !! key) as [kp |]; simpl;
  [pose proof (common_prefix_le kp path) | pose proof (common_prefix_le (snd (getRootAndPath st key)) path)];
  lia.
Qed.

(** C2: [_lookup] drops the packet when the self distance is not below
    the watermark; when it returns a next hop it has lowered the
    watermark to the self distance, strictly below the incoming one. So
    the watermark decreases at every hop and a trajectory has at most
    [watermark] hops; a watermark of 5 at self distance 5 is dropped. *)
Theorem lookup_watermark_decreases :
  (forall (self : publicKey) (st : router) (tr : traffic),
     let d := fst (getDist st (tr_path tr) self) in
     ((watermark tr <= d)%Z -> fst (fst (lookup self st tr)) = None) /\
     (forall p, fst (fst (lookup self st tr)) = Some p ->
        watermark (snd (fst (lookup self st tr))) = d /\ (d < watermark tr)%Z)) /\
  (forall (rs : list (publicKey * router)) (tr : traffic),
     (forward rs tr <= Z.to_nat (watermark tr))%nat) /\
  (forall (self : publicKey) (st : router) (tr : traffic),
     watermark tr = 5%Z -> fst (getDist st (tr_path tr) self) = 5%Z ->
     fst (fst (lookup self st tr)) = None).
Proof.
  assert (Hstep : forall (self : publicKey) (st : router) (tr : traffic),
     let d := fst (getDist st (tr_path tr) self) in
     ((watermark tr <= d)%Z -> fst (fst (lookup self st tr)) = None) /\
     (forall p, fst (fst (lookup self st tr)) = Some p ->
        watermark (snd (fst (lookup self st tr))) = d /\ (d < watermark tr)%Z)).
  { intros self st tr d. unfold d, lookup.
    destruct (getDist st (tr_path tr) self) as [dself st1]. simpl.
    destruct (dself <? watermark tr)%Z eqn:E.
    - apply Z.ltb_lt in E. split; [intros; lia |].
      destruct (fold_left _ _ _) as [[bp bd] st2]. simpl. intros p _. split; [reflexivity | exact E].
    - apply Z.ltb_ge in E. split; [reflexivity | simpl; discriminate]. }
  split; [exact Hstep | split].
  - intros rs. induction rs as [| [k st] rs IH]; intros tr; simpl; [lia |].
    destruct (Hstep k st tr) as [_ Hfw].
    pose proof (getDist_nonneg st (tr_path tr) k) as Hnn.
    destruct (lookup k st tr) as [[[p |] tr'] st'] eqn:El; [| lia].
    destruct (Hfw p eq_refl) as [Hw Hlt]. simpl in Hw.
    specialize (IH tr'). rewrite Hw in IH. lia.
  - intros self st tr Hw Hd. apply (proj1 (Hstep self st tr)). lia.
Qed.

(* ------------------------------------------------------------------ *)
(** ** Concrete routers *)

(** A node [ex_self] (bytes 1) and a remote node [ex_other] (bytes 2),
    [routerTimeout = 10], [routerRefresh = 100], [routerMaxInfos = 3],
    and a [_fix] with no effect on the store. *)
Definition ex_self : publicKey := repeat 1%Z publicKeySize.
Definition ex_other : publicKey := repeat 2%Z publicKeySize.
Definition ex_fix (st : router) : router := st.

Definition ex_res (s n p : Z) : routerSigRes :=
  {| res_req := {| seq := s; nonce := n |}; port := p; psig := repeat 0%Z signatureSize |}.

Definition ex_info_self : routerInfo :=
  {| parent := ex_self; info_res := ex_res 1 0 0; info_sig := repeat 0%Z signatureSize;
     expired := false |}.

(** A router that only knows itself, as a root, at time 0. *)
Definition ex_state : router :=
  {| infos := ({[ex_self := ex_info_self]} : gmap publicKey routerInfo);
     timers := {[ex_self := {| tid := 0; due := 100 |}]};
     cache := ∅; peers := []; refresh := false; now := 0; next_tid := 1 |}.

(** The announce of [ex_self] that [ex_state] holds. *)
Definition ex_ann_self : routerAnnounce := getAnnounce ex_info_self ex_self.

(** An announce of [ex_other] with parent [ex_self] through port 3. *)
Definition ex_ann_other : routerAnnounce :=
  {| ann_key := ex_other; ann_parent := ex_self; ann_res := ex_res 1 0 3;
     ann_sig := repeat 0%Z signatureSize |}.


(** A signature check that accepts everything (the port rule alone
    rejects [ex_ann_bad]). *)
Definition ex_verify (k : publicKey) (msg sig : list Z) : bool := true.

(** The router after accepting [ex_ann_other] at time 0. *)
Definition ex_state_other : router := snd (update ex_self 10 100 ex_state ex_ann_other 0).

(** Forwarding: [ex_self] has parent [ex_other] through port 7 and
    [ex_other] is a root; the two links to [ex_other], in the order the
    loop visits them. *)
Definition ex_link1 : peer :=
  {| peer_id := 1; peer_key := ex_other; peer_port := 7; prio := 5; ptime := 1 |}.
Definition ex_link2 : peer :=
  {| peer_id := 2; peer_key := ex_other; peer_port := 8; prio := 1; ptime := 2 |}.

Definition ex_fwd_state : router :=
  {| infos := {[ex_self := {| parent := ex_other; info_res := ex_res 1 0 7;
                              info_sig := repeat 0%Z signatureSize; expired := false |};
               ex_other := {| parent := ex_other; info_res := ex_res 1 0 0;
                              info_sig := repeat 0%Z signatureSize; expired := false |}]};
     timers := ∅; cache := ∅; peers := [(ex_other, [ex_link1; ex_link2])];
     refresh := false; now := 0; next_tid := 0 |}.

(** Traffic for the root [ex_other] (empty path) with watermark 10. *)
Definition ex_traffic : traffic := {| tr_path := []; watermark := 10; tr_dest := ex_other |}.

(** A key with first byte 0, below [ex_other]. *)
Definition ex_low : publicKey := 0%Z :: repeat 3%Z (publicKeySize - 1).

Definition ex_ann_low : routerAnnounce :=
  {| ann_key := ex_low; ann_parent := ex_self; ann_res := ex_res 1 0 4;
     ann_sig := repeat 0%Z signatureSize |}.


(** ** Properties of the concrete routers *)

Lemma map_to_list_keys {A} (m : gmap publicKey A) (k : publicKey) :
  k ∈ map fst (map_to_list m) <-> is_Some (m !! k).
Proof.
  change (map fst (map_to_list m)) with (fst <$> map_to_list m).
  rewrite list_elem_of_fmap. split.
  - intros [[k' x] [-> Hin]]. apply elem_of_map_to_list in Hin. simpl. by eexists.
  - intros [x Hx]. exists (k, x). split; [reflexivity |]. by apply elem_of_map_to_list.
Qed.

Lemma ex_fix_other (st : router) (k : publicKey) :
  k <> ex_self ->
  infos (ex_fix st) !! k = infos st !! k /\ timers (ex_fix st) !! k = timers st !! k.
Proof. intros _. split; reflexivity. Qed.

Lemma ex_fix_self (st : router) :
  is_Some (infos st !! ex_self) -> is_Some (infos (ex_fix st) !! ex_self).
Proof. exact id. Qed.

Lemma ex_fix_now (st : router) : now (ex_fix st) = now st.
Proof. reflexivity. Qed.

Lemma ex_low_nonneg : Forall (fun b => 0 <= b)%Z (ann_key ex_ann_low).
Proof. unfold ex_ann_low, ex_low. simpl. repeat (apply List.Forall_cons; [lia |]). apply List.Forall_nil. Qed.


(** C6 (counterexample): with [routerTimeout = 10], an info of a remote
    key accepted at time 0 is still stored at time 20 = 2 * routerTimeout
    (expired); its timer is due at 30. *)
Lemma expired_info_present_at_twice_timeout :
  update ex_self 10 100 ex_state ex_ann_other 0 = (true, ex_state_other) /\
  infos (run_key ex_self 10 ex_fix 5 ex_state_other ex_other 20) !! ex_other =
    Some (expire (info_of ex_ann_other)) /\
  timers (run_key ex_self 10 ex_fix 5 ex_state_other ex_other 20) !! ex_other =
    Some {| tid := 1; due := 30 |}.
Proof. split; [| split]; vm_compute; reflexivity. Qed.

(** C7 (code): at [ex_fwd_state] the peer key [ex_other] is closer than
    the node itself, and of its two links [_lookup] returns [ex_link1]
    although [ex_link2] has the lower [prio]: the [time] case skips
    [ex_link2], which is newer, before its [prio] is compared. *)
Theorem lookup_skips_lower_prio_link :
  (fst (getDist ex_fwd_state (tr_path ex_traffic) ex_other) <
   fst (getDist ex_fwd_state (tr_path ex_traffic) ex_self) < watermark ex_traffic)%Z /\
  In (ex_other, [ex_link1; ex_link2]) (peers ex_fwd_state) /\
  fst (fst (lookup ex_self ex_fwd_state ex_traffic)) = Some ex_link1 /\
  (prio ex_link2 < prio ex_link1)%Z.
Proof.
  split; [vm_compute; split; reflexivity |].
  split; [left; reflexivity |].
  split; [vm_compute; reflexivity | vm_compute; reflexivity].
Qed.

(** ** Instances of the claims at the concrete routers *)

(** C1 at [ex_state]: the announce equal to the stored info is rejected. *)
Lemma update_crdt_order_witness :
  infos ex_state !! ann_key ex_ann_self = Some ex_info_self /\
  update ex_self 10 100 ex_state ex_ann_self 0 = (false, ex_state).
Proof.
  assert (H : infos ex_state !! ann_key ex_ann_self = Some ex_info_self)
    by (vm_compute; reflexivity).
  split; [exact H |].
  exact (proj1 (proj2 (update_crdt_order ex_self 10 100 3 ex_fix ex_state ex_ann_self 0
                         ex_info_self H) eq_refl eq_refl eq_refl)).
Defined.

(** C9 at [ex_state]: the first announce of [ex_other] is accepted. *)
Lemma update_new_key_witness :
  infos ex_state !! ann_key ex_ann_other = None /\
  fst (update ex_self 10 100 ex_state ex_ann_other 0) = true.
Proof.
  assert (H : infos ex_state !! ann_key ex_ann_other = None) by (vm_compute; reflexivity).
  split; [exact H |].
  destruct (update_new_key ex_self 10 100 ex_state ex_ann_other 0 H) as [st1 [Heq _]].
  rewrite Heq. reflexivity.
Defined.

(** C3 at [ex_state_other] with [routerMaxInfos = 2]: the store is full
    and [ex_low] is below the worst key [ex_other]. *)
Lemma handleAnnounce_capacity_witness :
  is_Some (infos ex_state_other !! ex_self) /\
  size (infos ex_state_other) <= 2 /\
  size (infos (handleAnnounce ex_self 10 100 2 ex_fix ex_state_other ex_ann_low 0)) <= 2.
Proof.
  assert (H1 : is_Some (infos ex_state_other !! ex_self)) by (vm_compute; eexists; reflexivity).
  assert (H2 : size (infos ex_state_other) <= 2) by (vm_compute; lia).
  split; [exact H1 | split; [exact H2 |]].
  exact (proj1 (handleAnnounce_capacity ex_self 10 100 2 ex_fix ex_fix_other ex_fix_self
                  ex_fix_now (map fst (map_to_list (infos ex_state_other))) ex_state_other
                  ex_ann_low 0 H1 H2 ex_low_nonneg
                  (map_to_list_keys (infos ex_state_other)))).
Defined.


(** C6 (amended) at [ex_state_other]: the info of [ex_other], accepted at
    time 0, is gone at time 35 >= 3 * routerTimeout. *)
Lemma update_timer_lifecycle_witness :
  update ex_self 10 100 ex_state ex_ann_other 0 = (true, ex_state_other) /\
  (0 < 10)%Z /\ (2 <= 5)%nat /\
  infos (run_key ex_self 10 ex_fix 5 ex_state_other ex_other 35) !! ex_other = None.
Proof.
  assert (H1 : update ex_self 10 100 ex_state ex_ann_other 0 = (true, ex_state_other))
    by (vm_compute; reflexivity).
  assert (H2 : (0 < 10)%Z) by lia.
  assert (H3 : (2 <= 5)%nat) by lia.
  assert (Hne : ann_key ex_ann_other <> ex_self) by (vm_compute; discriminate).
  split; [exact H1 | split; [exact H2 | split; [exact H3 |]]].
  exact (proj1 (proj2 (proj2 (proj1 (update_timer_lifecycle ex_self 10 100 ex_fix ex_fix_other
            ex_fix_now ex_state ex_ann_other 0 ex_state_other 5 35 H1 H2 H3) Hne))
            ltac:(vm_compute; discriminate))).
Defined.

(** C8 at a concrete [routerSigReq]. *)
Lemma router_codecs_roundtrip_witness :
  sigReq_wf {| seq := 300; nonce := 7 |} /\
  sigReq_decode (sigReq_encode {| seq := 300; nonce := 7 |} []) = Some {| seq := 300; nonce := 7 |}.
Proof.
  assert (H : sigReq_wf {| seq := 300; nonce := 7 |}) by (unfold sigReq_wf, u64; simpl; lia).
  split; [exact H |].
  exact (proj1 (proj1 router_codecs_roundtrip {| seq := 300; nonce := 7 |} [] H)).
Defined.

(** ** Peer ports *)

Lemma free_port_spec (fuel : nat) (idx : Z) (ps : gmap Z Peers.peer) :
  (1 <= idx)%Z ->
  (forall q, (1 <= q < idx)%Z -> is_Some (ps !! q)) ->
  let r := Peers.free_port fuel idx ps in
  (idx <= r)%Z /\ (forall q, (1 <= q < r)%Z -> is_Some (ps !! q)) /\
  (ps !! r = None \/ r = (idx + Z.of_nat fuel)%Z).
Proof.
  revert idx. induction fuel as [| f IH]; intros idx H1 Hbelow; simpl.
  - split; [lia | split; [exact Hbelow | right; lia]].
  - destruct (ps !! idx) as [x |] eqn:E.
    + destruct (IH (idx + 1)%Z) as [Hle [Hb Hr]]; [lia | |].
      * intros q Hq. destruct (Z.eq_dec q idx) as [-> | Hne]; [by eexists | apply Hbelow; lia].
      * split; [lia | split; [exact Hb | destruct Hr as [Hr | Hr]; [left; exact Hr | right; lia]]].
    + split; [lia | split; [exact Hbelow | left; exact E]].
Qed.

Lemma ports_used_size (m : nat) (ps : gmap Z Peers.peer) :
  (forall q, (1 <= q < 1 + Z.of_nat m)%Z -> is_Some (ps !! q)) -> m <= size ps.
Proof.
  revert ps. induction m as [| m IH]; intros ps Hused; [lia |].
  assert (Htop : is_Some (ps !! (1 + Z.of_nat m)%Z)) by (apply Hused; lia).
  assert (Hdel : m <= size (delete (1 + Z.of_nat m)%Z ps)).
  { apply IH. intros q Hq. rewrite lookup_delete_ne by lia. apply Hused. lia. }
  rewrite map_size_delete_Some in Hdel by exact Htop.
  destruct Htop as [x Hx].
  assert (size ps <> 0).
  { intros H0. apply map_size_empty_inv in H0. subst ps. by rewrite lookup_empty in Hx. }
  lia.
Qed.

Lemma addPeer_port (ps : gmap Z Peers.peer) (k : publicKey) :
  let r := Peers.free_port (S (size ps)) 1 ps in
  (1 <= r)%Z /\ ps !! r = None /\ (forall q, (1 <= q < r)%Z -> is_Some (ps !! q)).
Proof.
  destruct (free_port_spec (S (size ps)) 1 ps) as [Hle [Hb Hr]]; [lia | intros; lia |].
  split; [exact Hle | split; [| exact Hb]].
  destruct Hr as [Hr | Hr]; [exact Hr |].
  exfalso. assert (S (size ps) <= size ps); [| lia].
  apply ports_used_size. intros q Hq. apply Hb. lia.
Qed.

(** C10: [addPeer] on an open [PacketConn] gives the new peer the least
    port [>= 1] not in use and stores it there; so, starting from the
    empty table, after any sequence of [addPeer]/[removePeer] calls every
    stored peer sits at its own port, which is at least 1, and port 0 is
    never in use. *)
Theorem addPeer_least_free_port :
  (forall (ps : gmap Z Peers.peer) (k : publicKey),
     exists p, Peers.addPeer false ps k = Some (p, <[Peers.port p := p]> ps) /\
       Peers.key p = k /\
       (1 <= Peers.port p)%Z /\ ps !! Peers.port p = None /\
       (forall q, (1 <= q < Peers.port p)%Z -> is_Some (ps !! q))) /\
  (forall os : list Peers.op,
     Peers.run_ops ∅ os !! 0%Z = None /\
     (forall q p, Peers.run_ops ∅ os !! q = Some p -> Peers.port p = q /\ (1 <= q)%Z)).
Proof.
  split.
  - intros ps k. destruct (addPeer_port ps k) as [H1 [H2 H3]].
    exists {| Peers.key := k; Peers.port := Peers.free_port (S (size ps)) 1 ps |}.
    split; [reflexivity |]. simpl. auto.
  - assert (Hinv : forall os (ps : gmap Z Peers.peer),
              (forall q p, ps !! q = Some p -> Peers.port p = q /\ (1 <= q)%Z) ->
              forall q p, Peers.run_ops ps os !! q = Some p -> Peers.port p = q /\ (1 <= q)%Z).
    { induction os as [| o os IH]; intros ps Hps; [exact Hps |].
      apply IH. intros q p.
      destruct o as [k | r]; cbv beta iota zeta delta [Peers.run_op Peers.addPeer].
      - destruct (addPeer_port ps k) as [H1 _].
        destruct (decide (q = Peers.free_port (S (size ps)) 1 ps)) as [-> | Hne].
        + rewrite lookup_insert_eq. intros [= <-]. simpl. split; [reflexivity | exact H1].
        + rewrite lookup_insert_ne by congruence. apply Hps.
      - unfold Peers.removePeer. destruct (ps !! r) eqn:E; [| apply Hps].
        destruct (decide (q = r)) as [-> | Hne].
        + by rewrite lookup_delete_eq.
        + rewrite lookup_delete_ne by congruence. apply Hps. }
    intros os.
    assert (Hall := Hinv os ∅ ltac:(intros q p Hq; by rewrite lookup_empty in Hq)).
    split; [| exact Hall].
    destruct (Peers.run_ops ∅ os !! 0%Z) as [p |] eqn:E; [| reflexivity].
    destruct (Hall 0%Z p E). lia.
Qed.

(** ** Merkle request lemmas *)

Lemma SetBit_GetBit (k : publicKey) (off : nat) : Merkle.SetBit k (Merkle.GetBit k off) off = k.
Proof.
  unfold Merkle.SetBit, Merkle.GetBit, Merkle.bit_mask.
  destruct (k !! (off / 8)%nat) as [b |] eqn:E; [| reflexivity].
  apply list_insert_id. rewrite E. f_equal.
  set (j := Z.of_nat (7 - off mod 8)).
  assert (Hj : (0 <= j)%Z) by lia.
  destruct (Z.testbit b j) eqn:T; apply Z.bits_inj'; intros n Hn.
  - rewrite Z.lor_spec, Z.pow2_bits_eqb by exact Hj.
    destruct (Z.eqb_spec j n) as [<- | _]; [rewrite T; reflexivity | by destruct (Z.testbit b n)].
  - rewrite Z.land_spec, Z.lnot_spec, Z.pow2_bits_eqb by lia.
    destruct (Z.eqb_spec j n) as [<- | _]; [rewrite T; reflexivity | by destruct (Z.testbit b n)].
Qed.

Lemma node_for_bounds (n : Merkle.mnode) (k : publicKey) (d f : nat) :
  (d <= snd (Merkle.node_for_from n k d f) <= d + f)%nat.
Proof.
  revert n d. induction f as [| f IH]; intros n d; simpl; [lia |].
  destruct (if Merkle.GetBit k d then _ else _) as [c |]; simpl; [| lia].
  specialize (IH c (S d)). lia.
Qed.

Lemma node_for_leaves (infos : gmap publicKey routerInfo) (n : Merkle.mnode)
    (k : publicKey) (d f : nat) :
  Merkle.leaves_ok infos n d k = true ->
  Merkle.leaves_ok infos (fst (Merkle.node_for_from n k d f))
    (snd (Merkle.node_for_from n k d f)) k = true.
Proof.
  revert n d. induction f as [| f IH]; intros [dg l r] d Hok; simpl; [exact Hok |].
  destruct (Merkle.GetBit k d) eqn:Eb; simpl.
  - destruct r as [c |]; simpl; [| exact Hok]. apply IH.
    assert (Hs : Merkle.SetBit k true d = k) by (rewrite <- Eb; apply SetBit_GetBit).
    destruct l; simpl in Hok; rewrite Hs in Hok; apply andb_true_iff in Hok as [_ Hok]; exact Hok.
  - destruct l as [c |]; simpl; [| exact Hok]. apply IH.
    assert (Hs : Merkle.SetBit k false d = k) by (rewrite <- Eb; apply SetBit_GetBit).
    destruct r; simpl in Hok; rewrite Hs in Hok; apply andb_true_iff in Hok as [Hok _];
      apply andb_true_iff in Hok as [_ Hok]; exact Hok.
Qed.

Lemma leaves_ok_left (infos : gmap publicKey routerInfo) dg c d p :
  Merkle.leaves_ok infos (Merkle.MNode dg (Some c) None) d p = true ->
  (d < Merkle.KeyBits)%nat /\ Merkle.leaves_ok infos c (S d) (Merkle.SetBit p false d) = true.
Proof.
  simpl. destruct (Nat.ltb_spec d Merkle.KeyBits), (Merkle.leaves_ok infos c (S d) _);
  simpl; intros Hx; try discriminate; split; auto.
Qed.

Lemma leaves_ok_right (infos : gmap publicKey routerInfo) dg c d p :
  Merkle.leaves_ok infos (Merkle.MNode dg None (Some c)) d p = true ->
  (d < Merkle.KeyBits)%nat /\ Merkle.leaves_ok infos c (S d) (Merkle.SetBit p true d) = true.
Proof.
  simpl. destruct (Nat.ltb_spec d Merkle.KeyBits), (Merkle.leaves_ok infos c (S d) _);
  simpl; intros Hx; try discriminate; split; auto.
Qed.

Lemma descend_spec (infos : gmap publicKey routerInfo) (m : nat) :
  forall (n : Merkle.mnode) (d : nat) (p : publicKey),
  (Merkle.KeyBits - d <= m)%nat ->
  Merkle.leaves_ok infos n d p = true ->
  exists n' l' p', Merkle.single_chain n (Z.of_nat d) p n' l' p' /\
    ((is_Some (Merkle.Left n') /\ is_Some (Merkle.Right n') /\
      Merkle.descend infos n (Z.of_nat d) p =
        Merkle.Sent [Merkle.SendMerkleRes {| mres_req := {| prefixLen := l'; prefix := p' |};
                                             digest := Merkle.Digest n' |}]) \/
     (Merkle.Left n' = None /\ Merkle.Right n' = None /\ l' = Z.of_nat Merkle.KeyBits /\
      exists info, infos !! p' = Some info /\
        Merkle.descend infos n (Z.of_nat d) p = Merkle.Sent [Merkle.SendAnnounce (getAnnounce info p')])).
Proof.
  induction m as [| m IH]; intros [dg [c |] [c' |]] d p Hm Hok.
  - exists (Merkle.MNode dg (Some c) (Some c')), (Z.of_nat d), p.
    split; [constructor | left; split; [eexists; reflexivity | split; [eexists; reflexivity | reflexivity]]].
  - apply leaves_ok_left in Hok. lia.
  - apply leaves_ok_right in Hok. lia.
  - simpl in Hok. apply andb_true_iff in Hok as [Hd Hin].
    apply Nat.eqb_eq in Hd. apply bool_decide_eq_true in Hin. destruct Hin as [info Hinfo].
    exists (Merkle.MNode dg None None), (Z.of_nat d), p.
    split; [constructor | right]. subst d.
    split; [reflexivity | split; [reflexivity | split; [reflexivity |]]].
    exists info. split; [exact Hinfo |]. simpl. by rewrite Hinfo.
  - exists (Merkle.MNode dg (Some c) (Some c')), (Z.of_nat d), p.
    split; [constructor | left; split; [eexists; reflexivity | split; [eexists; reflexivity | reflexivity]]].
  - apply leaves_ok_left in Hok as [Hlt Hc].
    destruct (IH c (S d) (Merkle.SetBit p false d)) as (n' & l' & p' & Hch & Hres); [lia | exact Hc |].
    exists n', l', p'. rewrite Nat2Z.inj_succ in Hch, Hres.
    assert (Hd : Z.to_nat (Z.of_nat d) = d) by apply Nat2Z.id.
    split.
    + apply Merkle.chain_left. rewrite Hd. rewrite <- Z.add_1_r in Hch. exact Hch.
    + simpl. rewrite Hd. rewrite <- Z.add_1_r in Hres. exact Hres.
  - apply leaves_ok_right in Hok as [Hlt Hc].
    destruct (IH c' (S d) (Merkle.SetBit p true d)) as (n' & l' & p' & Hch & Hres); [lia | exact Hc |].
    exists n', l', p'. rewrite Nat2Z.inj_succ in Hch, Hres.
    assert (Hd : Z.to_nat (Z.of_nat d) = d) by apply Nat2Z.id.
    split.
    + apply Merkle.chain_right. rewrite Hd. rewrite <- Z.add_1_r in Hch. exact Hch.
    + simpl. rewrite Hd. rewrite <- Z.add_1_r in Hres. exact Hres.
  - simpl in Hok. apply andb_true_iff in Hok as [Hd Hin].
    apply Nat.eqb_eq in Hd. apply bool_decide_eq_true in Hin. destruct Hin as [info Hinfo].
    exists (Merkle.MNode dg None None), (Z.of_nat d), p.
    split; [constructor | right]. subst d.
    split; [reflexivity | split; [reflexivity | split; [reflexivity |]]].
    exists info. split; [exact Hinfo |]. simpl. by rewrite Hinfo.
Qed.

(** C5: for a request [req] from the peer [pk] whose tree [merks[pk]] has
    the shape of [leaves_ok], with [(node, plen)] the result of [NodeFor]:
    [plen] never exceeds the requested length; if it is smaller nothing is
    sent; otherwise, after the single-child chain from [node] to [n'] (the
    prefix extended to [p'], the length to [l']), either [n'] has two
    children and the one message sent is the [MerkleRes] of [(l', p')]
    with the digest of [n'], or [n'] is a leaf, [l'] is the key length and
    the one message sent is the announce of [infos[p']]. *)
Theorem handleMerkleReq_response (merks : gmap publicKey Merkle.mnode)
    (infos : gmap publicKey routerInfo) (pk : publicKey) (req : routerMerkleReq)
    (root node : Merkle.mnode) (plen : nat) :
  merks !! pk = Some root ->
  (0 <= prefixLen req)%Z ->
  Merkle.leaves_ok infos root 0 (prefix req) = true ->
  Merkle.NodeFor root (prefix req) (Z.to_nat (prefixLen req)) = (node, plen) ->
  (Z.of_nat plen <= prefixLen req)%Z /\
  ((Z.of_nat plen < prefixLen req)%Z -> Merkle.handleMerkleReq merks infos pk req = Merkle.Sent []) /\
  (Z.of_nat plen = prefixLen req ->
   exists n' l' p', Merkle.single_chain node (prefixLen req) (prefix req) n' l' p' /\
     ((is_Some (Merkle.Left n') /\ is_Some (Merkle.Right n') /\
       Merkle.handleMerkleReq merks infos pk req =
         Merkle.Sent [Merkle.SendMerkleRes {| mres_req := {| prefixLen := l'; prefix := p' |};
                                              digest := Merkle.Digest n' |}]) \/
      (Merkle.Left n' = None /\ Merkle.Right n' = None /\ l' = Z.of_nat Merkle.KeyBits /\
       exists info, infos !! p' = Some info /\
         Merkle.handleMerkleReq merks infos pk req =
           Merkle.Sent [Merkle.SendAnnounce (getAnnounce info p')]))).
Proof.
  intros Hpk Hlen Hok Hnf.
  pose proof (node_for_bounds root (prefix req) 0 (Z.to_nat (prefixLen req))) as Hb.
  pose proof (node_for_leaves infos root (prefix req) 0 (Z.to_nat (prefixLen req)) Hok) as Hl.
  unfold Merkle.NodeFor in Hnf. rewrite Hnf in Hb, Hl. simpl in Hb, Hl.
  assert (Hh : Merkle.handleMerkleReq merks infos pk req =
               if negb (Z.of_nat plen =? prefixLen req)%Z then Merkle.Sent []
               else Merkle.descend infos node (prefixLen req) (prefix req)).
  { unfold Merkle.handleMerkleReq. rewrite Hpk. unfold Merkle.NodeFor. rewrite Hnf. reflexivity. }
  split; [lia | split].
  - intros Hlt. rewrite Hh. destruct (Z.eqb_spec (Z.of_nat plen) (prefixLen req)); [lia | reflexivity].
  - intros Heq. rewrite Hh, Heq, Z.eqb_refl. simpl.
    destruct (descend_spec infos (Merkle.KeyBits - plen) node plen (prefix req) ltac:(lia) Hl)
      as (n' & l' & p' & Hch & Hres).
    rewrite Heq in Hch, Hres. exists n', l', p'. split; [exact Hch | exact Hres].
Qed.

(** C5 at a tree holding only [ex_self], asked for the whole key space. *)
Lemma handleMerkleReq_response_witness :
  ({[ex_other := Merkle.path_tree ex_self 0 Merkle.KeyBits]} : gmap publicKey Merkle.mnode) !! ex_other =
    Some (Merkle.path_tree ex_self 0 Merkle.KeyBits) /\
  Merkle.leaves_ok ({[ex_self := ex_info_self]} : gmap publicKey routerInfo) (Merkle.path_tree ex_self 0 Merkle.KeyBits) 0
    zero_key = true /\
  (Z.of_nat 0 <= 0)%Z.
Proof.
  assert (H1 : ({[ex_other := Merkle.path_tree ex_self 0 Merkle.KeyBits]} : gmap publicKey Merkle.mnode) !! ex_other =
                 Some (Merkle.path_tree ex_self 0 Merkle.KeyBits))
    by (apply lookup_singleton_eq).
  assert (H2 : Merkle.leaves_ok ({[ex_self := ex_info_self]} : gmap publicKey routerInfo) (Merkle.path_tree ex_self 0 Merkle.KeyBits)
                 0 zero_key = true) by (vm_compute; reflexivity).
  split; [exact H1 | split; [exact H2 |]].
  exact (proj1 (handleMerkleReq_response _ ({[ex_self := ex_info_self]} : gmap publicKey routerInfo) ex_other
                  {| prefixLen := 0; prefix := zero_key |} _ _ 0 H1 ltac:(simpl; lia) H2 eq_refl)).
Defined.

(** The same request computed: the announce of [ex_self] is sent. *)
Example handleMerkleReq_single_key :
  Merkle.handleMerkleReq ({[ex_other := Merkle.path_tree ex_self 0 Merkle.KeyBits]} : gmap publicKey Merkle.mnode)
    ({[ex_self := ex_info_self]} : gmap publicKey routerInfo) ex_other {| prefixLen := 0; prefix := zero_key |} =
  Merkle.Sent [Merkle.SendAnnounce (getAnnounce ex_info_self ex_self)].
Proof. vm_compute. reflexivity. Qed.

(* ------------------------------------------------------------------ *)
(** ** Key lookup and the walks to the root *)

(** One key of the loop of [_keyLookup]: the pointers [lowest] and
    [best] as options. In the second [if] of the source, [best] is never
    nil when [key.less(dest)] holds, the first [if] having set it. *)
Definition keyLookup_step (dest : publicKey) (acc : option publicKey * option publicKey)
    (key : publicKey) : option publicKey * option publicKey :=
  let '(lowest, best) := acc in
  let lowest1 := match lowest with
                 | None => Some key
                 | Some l => if less key l then Some key else lowest
                 end in
  let best1 := match best with
               | None => if less key dest then Some key else best
               | Some _ => best
               end in
  let best2 := if less key dest then
                 match best1 with
                 | Some b => if less b key then Some key else best1
                 | None => best1
                 end
               else best1 in
  (lowest1, best2).

(** [_keyLookup]; [ks] is the order in which the Go loop visits the keys
    of [infos]. *)
Definition keyLookup_in (m : gmap publicKey routerInfo) (ks : list publicKey)
    (dest : publicKey) : publicKey :=
  if bool_decide (is_Some (m !! dest)) then dest
  else let '(lowest, best) := fold_left (keyLookup_step dest) ks (None, None) in
       match best with
       | Some b => b
       | None => match lowest with Some l => l | None => dest end
       end.

Definition keyLookup (st : router) (dest : publicKey) : publicKey :=
  keyLookup_in (infos st) (map fst (map_to_list (infos st))) dest.

(** The loop of [_getRootAndDists]: [root] is the last key reached (the
    zero [publicKey] if none), [dists] the number of hops from [dest] of
    each key reached. Each pass that goes on adds a new stored key to
    [dists], so [size infos + 1] passes are enough. *)
Fixpoint dists_walk (m : gmap publicKey routerInfo) (fuel : nat) (next root : publicKey)
    (dists : gmap publicKey Z) (dist : Z) : publicKey * gmap publicKey Z :=
  match fuel with
  | O => (root, dists)
  | S f =>
      if bool_decide (is_Some (dists !! next)) then (root, dists)
      else match m !! next with
           | Some info =>
               if expired info then (root, dists)
               else dists_walk m f (parent info) next (<[next := dist]> dists) (dist + 1)
           | None => (root, dists)
           end
  end.

(** [_getRootAndDists] *)
Definition getRootAndDists (st : router) (dest : publicKey) : publicKey * gmap publicKey Z :=
  dists_walk (infos st) (S (size (infos st))) dest zero_key ∅ 0.

(** The distance [_getDist] computes from the path of a key and the
    path of the destination. *)
Definition path_dist (keyPath destPath : list Z) : Z :=
  (Z.of_nat (length keyPath) + Z.of_nat (length destPath)
   - 2 * Z.of_nat (common_prefix keyPath destPath))%Z.

(** A path cache that agrees with [_getRootAndPath]: what [_resetCache]
    establishes and [_getDist] fills. *)
Definition cache_ok (st : router) : Prop :=
  forall k p, cache st !! k = Some p -> p = snd (getRootAndPath st k).

(** ** Lemmas on key lookup and the walks *)

Definition kl_inv (dest : publicKey) (seen : list publicKey)
    (acc : option publicKey * option publicKey) : Prop :=
  match fst acc with
  | None => seen = []
  | Some l => l ∈ seen /\ forall k, k ∈ seen -> k = l \/ less l k = true
  end /\
  match snd acc with
  | None => forall k, k ∈ seen -> less k dest = false
  | Some b => b ∈ seen /\ less b dest = true /\
              forall k, k ∈ seen -> less k dest = true -> k = b \/ less k b = true
  end.

Lemma kl_step (dest key : publicKey) (seen : list publicKey) acc :
  (forall k, k ∈ seen ++ [key] -> length k = length dest) ->
  kl_inv dest seen acc -> kl_inv dest (seen ++ [key]) (keyLookup_step dest acc key).
Proof.
  intros Hlen. destruct acc as [lowest best]. unfold kl_inv, keyLookup_step; simpl.
  assert (Hkey : key ∈ seen ++ [key]) by set_solver.
  assert (Hl : forall a b, a ∈ seen ++ [key] -> b ∈ seen ++ [key] -> length a = length b)
    by (intros a b Ha Hb; rewrite (Hlen a Ha), (Hlen b Hb); reflexivity).
  intros [Hlo Hbe]. split.
  - destruct lowest as [l |].
    + destruct Hlo as [Hin Hmin]. destruct (less key l) eqn:Ekl; simpl.
      * split; [exact Hkey |]. intros k Hk. apply elem_of_app in Hk as [Hk | Hk].
        -- destruct (Hmin k Hk) as [-> | Hlk]; [right; exact Ekl |].
           right. exact (less_trans _ _ _ Ekl Hlk).
        -- apply list_elem_of_singleton in Hk. left; exact Hk.
      * split; [set_solver |]. intros k Hk. apply elem_of_app in Hk as [Hk | Hk]; [auto |].
        apply list_elem_of_singleton in Hk. subst k.
        destruct (decide (key = l)) as [-> | Hne]; [left; reflexivity |].
        destruct (less_total key l) as [H | H]; [apply Hl; set_solver | exact Hne | congruence |].
        right; exact H.
    + subst seen. simpl. split; [set_solver |]. intros k Hk.
      apply list_elem_of_singleton in Hk. left; exact Hk.
  - destruct best as [b |].
    + destruct Hbe as (Hin & Hbd & Hmax).
      destruct (less key dest) eqn:Ekd; simpl.
      * destruct (less b key) eqn:Ebk; simpl.
        -- split; [exact Hkey | split; [exact Ekd |]]. intros k Hk Hkd.
           apply elem_of_app in Hk as [Hk | Hk].
           ++ destruct (Hmax k Hk Hkd) as [-> | Hkb]; [right; exact Ebk |].
              right. exact (less_trans _ _ _ Hkb Ebk).
           ++ apply list_elem_of_singleton in Hk. left; exact Hk.
        -- split; [set_solver | split; [exact Hbd |]]. intros k Hk Hkd.
           apply elem_of_app in Hk as [Hk | Hk]; [auto |].
           apply list_elem_of_singleton in Hk. subst k.
           destruct (decide (key = b)) as [-> | Hne]; [left; reflexivity |].
           destruct (less_total key b) as [H | H]; [apply Hl; set_solver | exact Hne | | congruence].
           right; exact H.
      * split; [set_solver | split; [exact Hbd |]]. intros k Hk Hkd.
        apply elem_of_app in Hk as [Hk | Hk]; [auto |].
        apply list_elem_of_singleton in Hk. subst k. congruence.
    + destruct (less key dest) eqn:Ekd; simpl.
      * rewrite less_irrefl. split; [exact Hkey | split; [exact Ekd |]]. intros k Hk Hkd.
        apply elem_of_app in Hk as [Hk | Hk]; [rewrite (Hbe k Hk) in Hkd; discriminate |].
        apply list_elem_of_singleton in Hk. left; exact Hk.
      * intros k Hk. apply elem_of_app in Hk as [Hk | Hk]; [auto |].
        apply list_elem_of_singleton in Hk. subst k. exact Ekd.
Qed.

Lemma kl_fold (dest : publicKey) (ks seen : list publicKey) acc :
  (forall k, k ∈ seen ++ ks -> length k = length dest) ->
  kl_inv dest seen acc -> kl_inv dest (seen ++ ks) (fold_left (keyLookup_step dest) ks acc).
Proof.
  revert seen acc. induction ks as [| k ks IH]; intros seen acc Hlen Hinv; simpl.
  - rewrite app_nil_r. exact Hinv.
  - replace (seen ++ k :: ks) with ((seen ++ [k]) ++ ks) in * by (rewrite <- app_assoc; reflexivity).
    apply IH; [exact Hlen |]. apply kl_step; [| exact Hinv].
    intros k' Hk'. apply Hlen. set_solver.
Qed.

Lemma dists_walk_known (m : gmap publicKey routerInfo) f next root dists dist :
  is_Some (dists !! next) -> dists_walk m f next root dists dist = (root, dists).
Proof.
  intros H. destruct f; simpl; [reflexivity |].
  rewrite bool_decide_eq_true_2 by exact H. reflexivity.
Qed.

Lemma dists_walk_live (m : gmap publicKey routerInfo) f next root dists dist :
  (0 <= dist)%Z ->
  (forall k d, dists !! k = Some d ->
     exists info, m !! k = Some info /\ expired info = false /\ (0 <= d)%Z) ->
  forall k d, snd (dists_walk m f next root dists dist) !! k = Some d ->
     exists info, m !! k = Some info /\ expired info = false /\ (0 <= d)%Z.
Proof.
  revert next root dists dist. induction f as [| f IH]; intros next root dists dist Hd Hinv;
    simpl; [exact Hinv |].
  destruct (bool_decide _); [exact Hinv |].
  destruct (m !! next) as [info |] eqn:Em; [| exact Hinv].
  destruct (expired info) eqn:Ee; [exact Hinv |].
  apply IH; [lia |]. intros k d Hk.
  destruct (decide (k = next)) as [-> | Hne].
  - rewrite lookup_insert_eq in Hk. injection Hk as <-. exists info. auto.
  - rewrite lookup_insert_ne in Hk by congruence. auto.
Qed.

Lemma dists_walk_mono (m : gmap publicKey routerInfo) f next root dists dist :
  (dists <> ∅ -> is_Some (dists !! root)) ->
  let r := dists_walk m f next root dists dist in
  (forall k d, dists !! k = Some d -> snd r !! k = Some d) /\
  (snd r <> ∅ -> is_Some (snd r !! fst r)).
Proof.
  revert next root dists dist. induction f as [| f IH]; intros next root dists dist Hr; simpl;
    [split; [auto | exact Hr] |].
  destruct (bool_decide (is_Some (dists !! next))) eqn:Eb; [split; [auto | exact Hr] |].
  apply bool_decide_eq_false in Eb.
  destruct (m !! next) as [info |]; [| split; [auto | exact Hr]].
  destruct (expired info); [split; [auto | exact Hr] |].
  destruct (IH (parent info) next (<[next := dist]> dists) (dist + 1)%Z) as [Hm Hn].
  { intros _. rewrite lookup_insert_eq. eexists; reflexivity. }
  split; [| exact Hn].
  intros k d Hk. apply Hm. rewrite lookup_insert_ne; [exact Hk |].
  intros ->. apply Eb. eexists; exact Hk.
Qed.

Lemma dists_walk_root_walk (m : gmap publicKey routerInfo) f next visited ports root dists r ps :
  (forall k, k ∈ visited <-> is_Some (dists !! k)) ->
  root_walk m f next visited ports = Some (r, ps) ->
  fst (dists_walk m f next root dists (Z.of_nat (length ports))) = r /\
  snd (dists_walk m f next root dists (Z.of_nat (length ports))) !! r = Some (Z.of_nat (length ps)).
Proof.
  revert next visited ports root dists. induction f as [| f IH];
    intros next visited ports root dists Hv Hw; simpl in Hw |- *; [discriminate |].
  destruct (decide (next ∈ visited)) as [Hin | Hnin]; [discriminate |].
  rewrite bool_decide_eq_false_2 by (rewrite <- Hv; exact Hnin).
  destruct (m !! next) as [info |]; [| discriminate].
  destruct (expired info); [discriminate |].
  destruct (decide (next = parent info)) as [Hp | Hp].
  - injection Hw as <- <-. rewrite <- Hp.
    rewrite dists_walk_known by (rewrite lookup_insert_eq; eexists; reflexivity).
    simpl. rewrite lookup_insert_eq. split; reflexivity.
  - specialize (IH (parent info) (next :: visited) (ports ++ [info_port info]) next
                   (<[next := Z.of_nat (length ports)]> dists)).
    rewrite length_app in IH. simpl in IH.
    replace (Z.of_nat (length ports + 1)) with (Z.of_nat (length ports) + 1)%Z in IH by lia.
    apply IH; [| exact Hw].
    intros k. rewrite elem_of_cons, Hv.
    destruct (decide (k = next)) as [-> | Hne].
    + rewrite lookup_insert_eq. split; [intros _; eexists; reflexivity | left; reflexivity].
    + rewrite lookup_insert_ne by congruence. split; [intros [? | ?]; [congruence | assumption] | right; assumption].
Qed.

Lemma nodup_keys_size {A} (m : gmap publicKey A) (l : list publicKey) :
  NoDup l -> (forall k, k ∈ l -> is_Some (m !! k)) -> length l <= size m.
Proof.
  intros Hnd Hin. rewrite <- (size_dom (D := gset publicKey)).
  rewrite <- (size_list_to_set (C := gset publicKey) l Hnd).
  apply subseteq_size. intros k Hk. apply elem_of_list_to_set in Hk.
  apply elem_of_dom. auto.
Qed.

Lemma root_walk_root (m : gmap publicKey routerInfo) f next visited ports r ps :
  NoDup visited -> (forall k, k ∈ visited -> is_Some (m !! k)) ->
  length ports = length visited ->
  root_walk m f next visited ports = Some (r, ps) ->
  (exists info, m !! r = Some info /\ parent info = r /\ expired info = false) /\
  length ps < size m.
Proof.
  revert next visited ports. induction f as [| f IH]; intros next visited ports Hnd Hin Hl Hw;
    simpl in Hw; [discriminate |].
  destruct (decide (next ∈ visited)) as [Hv | Hv]; [discriminate |].
  destruct (m !! next) as [info |] eqn:Em; [| discriminate].
  destruct (expired info) eqn:Ee; [discriminate |].
  destruct (decide (next = parent info)) as [Hp | Hp].
  - injection Hw as <- <-. split; [exists info; auto |].
    rewrite Hl. apply (nodup_keys_size m (next :: visited)).
    + constructor; assumption.
    + intros k Hk. apply elem_of_cons in Hk as [-> | Hk]; [eexists; exact Em | auto].
  - apply (IH (parent info) (next :: visited) (ports ++ [info_port info])); [| | | exact Hw].
    + constructor; assumption.
    + intros k Hk. apply elem_of_cons in Hk as [-> | Hk]; [eexists; exact Em | auto].
    + rewrite length_app. simpl. lia.
Qed.

Lemma common_prefix_refl (a : list Z) : common_prefix a a = length a.
Proof. induction a as [| x a IH]; simpl; [reflexivity |]. rewrite Z.eqb_refl, IH. reflexivity. Qed.

Lemma common_prefix_comm (a b : list Z) : common_prefix a b = common_prefix b a.
Proof.
  revert b. induction a as [| x a IH]; intros [| y b]; simpl; try reflexivity.
  rewrite Z.eqb_sym. destruct (y =? x)%Z; [rewrite IH |]; reflexivity.
Qed.

Lemma common_prefix_full (a b : list Z) :
  common_prefix a b = length a -> length a = length b -> a = b.
Proof.
  revert b. induction a as [| x a IH]; intros [| y b]; simpl; intros H1 H2; try discriminate;
    [reflexivity |].
  destruct (Z.eqb_spec x y); [| discriminate]. subst. f_equal. apply IH; lia.
Qed.

Lemma common_prefix_min (a b c : list Z) :
  (Nat.min (common_prefix a b) (common_prefix b c) <= common_prefix a c)%nat.
Proof.
  revert b c. induction a as [| x a IH]; intros [| y b] [| z c]; simpl; try lia.
  destruct (Z.eqb_spec x y), (Z.eqb_spec y z); simpl; try lia.
  subst. rewrite Z.eqb_refl. specialize (IH b c). lia.
Qed.

Lemma getDist_cache (st : router) (p : list Z) (k : publicKey) :
  cache_ok st ->
  fst (getDist st p k) = path_dist (snd (getRootAndPath st k)) p /\
  cache_ok (snd (getDist st p k)) /\
  infos (snd (getDist st p k)) = infos st /\ peers (snd (getDist st p k)) = peers st.
Proof.
  intros Hok. unfold getDist, path_dist.
  destruct (cache st !! k) as [kp |] eqn:Ec; simpl.
  - rewrite <- (Hok k kp Ec). auto.
  - split; [reflexivity | split; [| split; reflexivity]].
    intros k' p' Hk'. simpl in Hk'. unfold getRootAndPath; simpl.
    destruct (decide (k' = k)) as [-> | Hne].
    + rewrite lookup_insert_eq in Hk'. injection Hk' as <-. reflexivity.
    + rewrite lookup_insert_ne in Hk' by congruence. exact (Hok k' p' Hk').
Qed.

Lemma pick_link_fold (ps : list peer) (b : option peer) (p : peer) :
  fold_left pick_link ps b = Some p -> b = Some p \/ In p ps.
Proof.
  revert b. induction ps as [| q ps IH]; intros b H; simpl in H; [left; exact H |].
  destruct (IH _ H) as [Hb | Hin]; [| right; right; exact Hin].
  unfold pick_link in Hb. destruct b as [b |].
  - destruct (prio q >? prio b)%Z; [left; exact Hb |].
    destruct (ptime q >? ptime b)%Z; [left; exact Hb |].
    injection Hb as ->. right; left; reflexivity.
  - injection Hb as ->. right; left; reflexivity.
Qed.

(** ** Properties of key lookup, the walks and the distance *)

(** [_keyLookup] returns [dest] when it is stored, or when nothing is
    stored. Otherwise it returns a stored key: the greatest stored key
    below [dest] if there is one, else the least stored key (keys of the
    same length, in any iteration order of [infos]). *)
Theorem keyLookup_closest (m : gmap publicKey routerInfo) (ks : list publicKey)
    (dest : publicKey) :
  (forall k, k ∈ ks <-> is_Some (m !! k)) ->
  length dest = publicKeySize -> Forall (fun k => length k = publicKeySize) ks ->
  let r := keyLookup_in m ks dest in
  (is_Some (m !! dest) -> r = dest) /\
  (m !! dest = None ->
     (m = ∅ -> r = dest) /\
     (m <> ∅ -> is_Some (m !! r)) /\
     ((exists k, is_Some (m !! k) /\ less k dest = true) ->
        less r dest = true /\
        forall k, is_Some (m !! k) -> less k dest = true -> k = r \/ less k r = true) /\
     ((forall k, is_Some (m !! k) -> less k dest = false) ->
        forall k, is_Some (m !! k) -> k = r \/ less r k = true)).
Proof.
  intros Hks Hd Hall r. unfold r, keyLookup_in. split.
  { intros H. rewrite bool_decide_eq_true_2 by exact H. reflexivity. }
  intros Hn. rewrite bool_decide_eq_false_2 by (rewrite Hn; intros [? ?]; discriminate).
  assert (Hlen : forall k, k ∈ [] ++ ks -> length k = length dest).
  { intros k Hk. rewrite Hd. rewrite Forall_forall in Hall. apply Hall. exact Hk. }
  assert (H0 : kl_inv dest [] (None, None)) by (split; simpl; [reflexivity | intros k Hk; set_solver]).
  pose proof (kl_fold dest ks [] (None, None) Hlen H0) as Hf. simpl in Hf.
  destruct (fold_left (keyLookup_step dest) ks (None, None)) as [lowest best].
  destruct Hf as [Hlo Hbe]. simpl in Hlo, Hbe.
  assert (Hne : forall k, is_Some (m !! k) -> exists l, lowest = Some l /\ l ∈ ks /\
                  forall k', k' ∈ ks -> k' = l \/ less l k' = true).
  { intros k Hk. destruct lowest as [l |]; [exists l; split; [reflexivity | exact Hlo] |].
    apply Hks in Hk. rewrite Hlo in Hk. set_solver. }
  split; [| split; [| split]].
  - intros ->. destruct best as [b |].
    + destruct Hbe as [Hb _]. apply Hks in Hb. rewrite lookup_empty in Hb. destruct Hb; discriminate.
    + destruct lowest as [l |]; [| reflexivity].
      destruct Hlo as [Hl _]. apply Hks in Hl. rewrite lookup_empty in Hl. destruct Hl; discriminate.
  - intros Hm. apply map_choose in Hm as (k & x & Hk).
    destruct best as [b |]; [apply Hks, Hbe |].
    destruct (Hne k ltac:(eexists; exact Hk)) as (l & -> & Hl & _). apply Hks, Hl.
  - intros (k0 & Hk0 & Hlt). destruct best as [b |].
    + destruct Hbe as (_ & Hbd & Hmax). split; [exact Hbd |].
      intros k Hk Hkd. apply Hmax; [apply Hks, Hk | exact Hkd].
    + apply Hks in Hk0. rewrite (Hbe k0 Hk0) in Hlt. discriminate.
  - intros Hnone k Hk. destruct best as [b |].
    + destruct Hbe as (Hb & Hbd & _). apply Hks in Hb. rewrite (Hnone b Hb) in Hbd. discriminate.
    + destruct (Hne k Hk) as (l & -> & _ & Hmin). apply Hmin, Hks, Hk.
Qed.

(** [_getRootAndDists] records only stored, unexpired keys with their
    hop counts. For a stored, unexpired [dest] it gives [dest] distance
    0 and returns a root it reached; for an absent or expired [dest] it
    returns the zero key and no distances. When the loop of
    [_getRootAndPath] reaches a root [r] with [ports], the same root is
    returned, at distance [len(ports)]. *)
Theorem getRootAndDists_spec (st : router) (dest : publicKey) :
  let root := fst (getRootAndDists st dest) in
  let dists := snd (getRootAndDists st dest) in
  (forall k d, dists !! k = Some d ->
     exists info, infos st !! k = Some info /\ expired info = false /\ (0 <= d)%Z) /\
  (forall info, infos st !! dest = Some info -> expired info = false ->
     dists !! dest = Some 0%Z /\ is_Some (dists !! root)) /\
  ((forall info, infos st !! dest = Some info -> expired info = true) ->
     root = zero_key /\ dists = ∅) /\
  (forall r ports, root_walk (infos st) (S (size (infos st))) dest [] [] = Some (r, ports) ->
     root = r /\ dists !! r = Some (Z.of_nat (length ports))).
Proof.
  intros root dists. unfold root, dists, getRootAndDists. split; [| split; [| split]].
  - apply dists_walk_live; [lia |]. intros k d Hk. rewrite lookup_empty in Hk. discriminate.
  - intros info Hi He. simpl. rewrite bool_decide_eq_false_2 by (rewrite lookup_empty; intros [? ?]; discriminate).
    rewrite Hi, He.
    destruct (dists_walk_mono (infos st) (size (infos st)) (parent info) dest
                (<[dest := 0%Z]> ∅) (0 + 1)%Z) as [Hm Hr].
    { intros _. rewrite lookup_insert_eq. eexists; reflexivity. }
    split; [apply Hm; apply lookup_insert_eq |].
    apply Hr. intros He'. specialize (Hm dest 0%Z (lookup_insert_eq _ _ _)).
    rewrite He', lookup_empty in Hm. discriminate.
  - intros Hd. simpl. rewrite bool_decide_eq_false_2 by (rewrite lookup_empty; intros [? ?]; discriminate).
    destruct (infos st !! dest) as [info |] eqn:Ei; [| split; reflexivity].
    rewrite (Hd info eq_refl). split; reflexivity.
  - intros r ports Hw.
    apply (dists_walk_root_walk (infos st) _ dest [] [] zero_key ∅ r ports); [| exact Hw].
    intros k. rewrite lookup_empty. split; [intros Hk; set_solver | intros [? ?]; discriminate].
Qed.

(** [_getRootAndPath] returns [(dest, nil)] or a root that is stored,
    unexpired and its own parent, with fewer ports than stored keys. *)
Theorem getRootAndPath_root (st : router) (dest : publicKey) :
  getRootAndPath st dest = (dest, []) \/
  exists info, infos st !! fst (getRootAndPath st dest) = Some info /\
    parent info = fst (getRootAndPath st dest) /\ expired info = false /\
    length (snd (getRootAndPath st dest)) < size (infos st).
Proof.
  unfold getRootAndPath.
  destruct (root_walk (infos st) (S (size (infos st))) dest [] []) as [[r ps] |] eqn:Hw;
    [right | left; reflexivity].
  destruct (root_walk_root (infos st) (S (size (infos st))) dest [] [] r ps) as [(info & Hi & Hp & He) Hl];
    [constructor | intros k Hk; set_solver | reflexivity | exact Hw |].
  exists info. simpl. rewrite length_rev. auto.
Qed.

(** The distance [_getDist] computes between two tree paths
    ([len(a) + len(b) - 2 * common prefix]) is a metric: non-negative,
    zero exactly between equal paths, symmetric, and it satisfies the
    triangle inequality. *)
Theorem path_dist_metric (a b c : list Z) :
  (0 <= path_dist a b)%Z /\
  (path_dist a b = 0%Z <-> a = b) /\
  path_dist a b = path_dist b a /\
  (path_dist a c <= path_dist a b + path_dist b c)%Z.
Proof.
  unfold path_dist.
  pose proof (common_prefix_le a b) as Hab. pose proof (common_prefix_le b c) as Hbc.
  pose proof (common_prefix_min a b c) as Hm.
  split; [lia | split; [split | split]].
  - intros H. apply common_prefix_full; lia.
  - intros ->. rewrite common_prefix_refl. lia.
  - rewrite common_prefix_comm. lia.
  - lia.
Qed.

(** With a path cache that agrees with [_getRootAndPath], [_getDist]
    returns the distance of the key's current path, and leaves the cache
    in agreement and the infos and peers unchanged. [_update] empties the
    cache, so the agreement holds after every accepted announce. *)
Theorem getDist_consistent (st : router) (p : list Z) (k : publicKey) :
  cache_ok st ->
  fst (getDist st p k) = path_dist (snd (getRootAndPath st k)) p /\
  cache_ok (snd (getDist st p k)) /\
  infos (snd (getDist st p k)) = infos st /\ peers (snd (getDist st p k)) = peers st /\
  (forall self T R ann jitter st1, update self T R st ann jitter = (true, st1) -> cache_ok st1).
Proof.
  intros Hok. destruct (getDist_cache st p k Hok) as (H1 & H2 & H3 & H4).
  split; [exact H1 | split; [exact H2 | split; [exact H3 | split; [exact H4 |]]]].
  intros self T R ann jitter st1 Hu. unfold update in Hu.
  destruct (negb _); [discriminate |]. injection Hu as <-.
  intros k' p' Hk'. simpl in Hk'. rewrite lookup_empty in Hk'. discriminate.
Qed.

(** With a consistent path cache, a next hop returned by [_lookup] is a
    link of a peer key strictly closer to the destination than the node
    itself (by the distance of the current tree), and the cache stays
    consistent. *)
Theorem lookup_next_hop_closer (self : publicKey) (st : router) (tr : traffic)
    (p : peer) (tr' : traffic) (st' : router) :
  cache_ok st -> lookup self st tr = (Some p, tr', st') ->
  (exists k ps, In (k, ps) (peers st) /\ In p ps /\
     (path_dist (snd (getRootAndPath st k)) (tr_path tr) <
      path_dist (snd (getRootAndPath st self)) (tr_path tr))%Z) /\
  cache_ok st' /\ infos st' = infos st.
Proof.
  intros Hok Hl. unfold lookup in Hl.
  destruct (getDist_cache st (tr_path tr) self Hok) as (Hd & Hok1 & Hi1 & Hp1).
  destruct (getDist st (tr_path tr) self) as [dself st1] eqn:Eg. simpl in Hd, Hok1, Hi1, Hp1.
  destruct (dself <? watermark tr)%Z; [| discriminate].
  set (D := path_dist (snd (getRootAndPath st self)) (tr_path tr)).
  set (P := fun acc : option peer * Z * router =>
    cache_ok (snd acc) /\ infos (snd acc) = infos st /\ (snd (fst acc) <= D)%Z /\
    (forall q, fst (fst acc) = Some q -> exists k ps, In (k, ps) (peers st) /\ In q ps /\
        (path_dist (snd (getRootAndPath st k)) (tr_path tr) < D)%Z)).
  assert (Hinv : forall kps acc, (forall x, In x kps -> In x (peers st)) -> P acc ->
                   P (fold_left (lookup_step (tr_path tr)) kps acc)).
  { intros kps. induction kps as [| [k ps] kps IH]; intros [[bp bd] s] Hsub Hacc; [exact Hacc |].
    simpl. destruct Hacc as (Hoks & His & Hbd & Hbp). simpl in Hoks, His, Hbd, Hbp.
    apply IH; [intros x Hx; apply Hsub; right; exact Hx |].
    unfold lookup_step. simpl.
    destruct (getDist_cache s (tr_path tr) k Hoks) as (Hd' & Hok' & Hi' & _).
    destruct (getDist s (tr_path tr) k) as [d s1]. simpl in Hd', Hok', Hi'.
    unfold getRootAndPath in Hd'. rewrite His in Hd'. fold (getRootAndPath st k) in Hd'.
    destruct (d <? bd)%Z eqn:Edb.
    - apply Z.ltb_lt in Edb. split; [exact Hok' | split; [simpl; congruence | split; [simpl; lia |]]].
      intros q Hq. destruct (pick_link_fold ps bp q Hq) as [Hb | Hin]; [exact (Hbp q Hb) |].
      exists k, ps. split; [apply Hsub; left; reflexivity | split; [exact Hin | lia]].
    - split; [exact Hok' | split; [simpl; congruence | split; [exact Hbd | exact Hbp]]]. }
  assert (H0 : P (None, dself, st1)).
  { split; [exact Hok1 | split; [exact Hi1 | split; [simpl; unfold D; lia | simpl; discriminate]]]. }
  assert (Hsub : forall x, In x (peers st1) -> In x (peers st)) by (rewrite Hp1; exact (fun x Hx => Hx)).
  pose proof (Hinv (peers st1) (None, dself, st1) Hsub H0) as Hf.
  destruct (fold_left (lookup_step (tr_path tr)) (peers st1) (None, dself, st1)) as [[bp bd] s2].
  injection Hl as -> <- <-.
  destruct Hf as (Hok2 & Hi2 & _ & Hbp). simpl in Hok2, Hi2, Hbp.
  split; [| split; [exact Hok2 | exact Hi2]].
  exact (Hbp p eq_refl).
Qed.

Lemma cache_empty_ok (st : router) : cache st = ∅ -> cache_ok st.
Proof. intros H k p Hk. rewrite H, lookup_empty in Hk. discriminate. Qed.

(** [_keyLookup] at [ex_fwd_state] for the absent [ex_low], below both
    stored keys: a stored key is returned. *)
Lemma keyLookup_closest_witness :
  length ex_low = publicKeySize /\
  Forall (fun k => length k = publicKeySize) (map fst (map_to_list (infos ex_fwd_state))) /\
  infos ex_fwd_state !! ex_low = None /\ infos ex_fwd_state <> ∅ /\
  is_Some (infos ex_fwd_state !!
             keyLookup_in (infos ex_fwd_state) (map fst (map_to_list (infos ex_fwd_state))) ex_low).
Proof.
  assert (H1 : length ex_low = publicKeySize) by reflexivity.
  assert (H2 : Forall (fun k => length k = publicKeySize) (map fst (map_to_list (infos ex_fwd_state))))
    by (vm_compute; repeat constructor).
  assert (H3 : infos ex_fwd_state !! ex_low = None) by (vm_compute; reflexivity).
  assert (H4 : infos ex_fwd_state <> ∅).
  { intros H. assert (Hs : infos ex_fwd_state !! ex_self = None) by (rewrite H; apply lookup_empty).
    vm_compute in Hs. discriminate. }
  split; [exact H1 | split; [exact H2 | split; [exact H3 | split; [exact H4 |]]]].
  exact (proj1 (proj2 (proj2 (keyLookup_closest (infos ex_fwd_state)
           (map fst (map_to_list (infos ex_fwd_state))) ex_low
           (map_to_list_keys (infos ex_fwd_state)) H1 H2) H3)) H4).
Defined.

(** [_getDist] at [ex_fwd_state] (empty cache) for [ex_self]. *)
Lemma getDist_consistent_witness :
  cache_ok ex_fwd_state /\
  fst (getDist ex_fwd_state [] ex_self) = path_dist (snd (getRootAndPath ex_fwd_state ex_self)) [].
Proof.
  assert (H : cache_ok ex_fwd_state) by (apply cache_empty_ok; reflexivity).
  split; [exact H |]. exact (proj1 (getDist_consistent ex_fwd_state [] ex_self H)).
Defined.

(** [_lookup] at [ex_fwd_state]: the next hop [ex_link1] is a link of
    the closer peer key [ex_other]. *)
Lemma lookup_next_hop_closer_witness :
  exists tr' st', cache_ok ex_fwd_state /\
    lookup ex_self ex_fwd_state ex_traffic = (Some ex_link1, tr', st') /\
    exists k ps, In (k, ps) (peers ex_fwd_state) /\ In ex_link1 ps /\
      (path_dist (snd (getRootAndPath ex_fwd_state k)) (tr_path ex_traffic) <
       path_dist (snd (getRootAndPath ex_fwd_state ex_self)) (tr_path ex_traffic))%Z.
Proof.
  pose (r := lookup ex_self ex_fwd_state ex_traffic).
  exists (snd (fst r)), (snd r).
  assert (H1 : cache_ok ex_fwd_state) by (apply cache_empty_ok; reflexivity).
  assert (H2 : lookup ex_self ex_fwd_state ex_traffic = (Some ex_link1, snd (fst r), snd r))
    by (vm_compute; reflexivity).
  split; [exact H1 | split; [exact H2 |]].
  exact (proj1 (lookup_next_hop_closer ex_self ex_fwd_state ex_traffic ex_link1 _ _ H1 H2)).
Defined.

(* ------------------------------------------------------------------ *)
(** ** Becoming root, answering requests and using responses *)

(** [r.infos[self].seq]: the zero [routerInfo] when the key is absent. *)
Definition self_seq (st : router) (self : publicKey) : Z :=
  match infos st !! self with Some i => info_seq i | None => 0%Z end.

(** [_newReq]; [nonce] is [binary.BigEndian.Uint64] of eight random
    bytes. The [uint64] addition wraps. *)
Definition newReq (st : router) (self : publicKey) (nonce : Z) : routerSigReq :=
  {| seq := ((self_seq st self + 1) mod 2 ^ 64)%Z; nonce := nonce |}.

(** [routerSigRes.check]; [verify] is [publicKey.verify]. *)
Definition sigRes_check (verify : publicKey -> list Z -> list Z -> bool)
    (res : routerSigRes) (node par : publicKey) : bool :=
  verify par (sigRes_bytesForSig res node par) (psig res).

Section Signing.

(** [privateKey.sign] of the node with the given public key, and
    [publicKey.verify] (crypto.go). *)
Variable sign : publicKey -> list Z -> list Z.
Variable verify : publicKey -> list Z -> list Z -> bool.
Variable self_key : publicKey.
Variable routerTimeout routerRefresh : Z.

(** [_becomeRoot]: [None] is the [panic] on a failed [ann.check()]. *)
Definition becomeRoot (st : router) (nonce jitter : Z) : option (bool * router) :=
  let req := newReq st self_key nonce in
  let res0 := {| res_req := req; port := 0; psig := repeat 0%Z signatureSize |} in
  let res := {| res_req := req; port := 0;
                psig := sign self_key (sigRes_bytesForSig res0 self_key self_key) |} in
  let ann := {| ann_key := self_key; ann_parent := self_key; ann_res := res;
                ann_sig := psig res |} in
  if negb (announce_check verify ann) then None
  else Some (update self_key routerTimeout routerRefresh st ann jitter).

(** [_handleRequest] at the node [self_key] for a request from the peer
    [pkey] on its local port [pport]: the response sent. *)
Definition handleRequest (pkey : publicKey) (pport : Z) (req : routerSigReq) : routerSigRes :=
  let res0 := {| res_req := req; port := pport; psig := repeat 0%Z signatureSize |} in
  {| res_req := req; port := pport;
     psig := sign self_key (sigRes_bytesForSig res0 pkey self_key) |}.

(** The announce [_useResponse] builds from the response of [peerKey]. *)
Definition useResponse_ann (peerKey : publicKey) (res : routerSigRes) : routerAnnounce :=
  let bs := sigRes_bytesForSig res self_key peerKey in
  let info := {| parent := peerKey; info_res := res; info_sig := sign self_key bs;
                 expired := false |} in
  getAnnounce info self_key.

(** [_useResponse] *)
Definition useResponse (st : router) (peerKey : publicKey) (res : routerSigRes) (jitter : Z)
    : bool * router :=
  update self_key routerTimeout routerRefresh st (useResponse_ann peerKey res) jitter.

End Signing.

(* ------------------------------------------------------------------ *)
(** ** Merkle responses *)

Module MerkleSync.

(** Modelled from the spec: [Tree.Lookup] returns the digest of the node
    at [prefixLen] bits of [key], if the tree has one. *)
Definition Lookup (root : Merkle.mnode) (key : publicKey) (prefixLen : nat) : option (list Z) :=
  let '(node, plen) := Merkle.NodeFor root key prefixLen in
  if Nat.eqb plen prefixLen then Some (Merkle.Digest node) else None.

(** Modelled from the spec: [GetLeft] and [GetRight], the prefixes of
    the two children: bit [offset] set to 0 or 1. *)
Definition GetLeft (key : publicKey) (offset : nat) : publicKey := Merkle.SetBit key false offset.
Definition GetRight (key : publicKey) (offset : nat) : publicKey := Merkle.SetBit key true offset.

(** [routerMerkleReq.check] *)
Definition check (req : routerMerkleReq) : bool :=
  (prefixLen req <=? Z.of_nat Merkle.KeyBits)%Z.

(** The requests [handleMerkleRes] sends, or a [panic]. *)
Inductive outcome := Sent (reqs : list routerMerkleReq) | Panic.

(** [handleMerkleRes]; [merk] is [r.merks[p.key]]. [int(res.prefixLen)]
    is [Z.to_nat] of the length (exact below [2^63]); the [uint64]
    addition wraps. *)
Definition handleMerkleRes (merk : Merkle.mnode) (res : routerMerkleRes) : outcome :=
  let len := prefixLen (mres_req res) in
  let pre := prefix (mres_req res) in
  if (len =? Z.of_nat Merkle.KeyBits)%Z then Sent [] else
  let agree := match Lookup merk pre (Z.to_nat len) with
               | Some d => bool_decide (d = digest res)
               | None => false
               end in
  if agree then Sent [] else
  let left := {| prefixLen := ((len + 1) mod 2 ^ 64)%Z; prefix := GetLeft pre (Z.to_nat len) |} in
  if negb (check left) then Panic else
  let right := {| prefixLen := ((len + 1) mod 2 ^ 64)%Z; prefix := GetRight pre (Z.to_nat len) |} in
  if negb (check right) then Panic else Sent [left; right].

End MerkleSync.

(** ** Properties of becoming root and of the request/response exchange *)

Lemma sigRes_bytesForSig_psig (r1 r2 : routerSigRes) (node par : publicKey) :
  res_req r1 = res_req r2 -> port r1 = port r2 ->
  sigRes_bytesForSig r1 node par = sigRes_bytesForSig r2 node par.
Proof. intros H1 H2. unfold sigRes_bytesForSig. rewrite H1, H2. reflexivity. Qed.

Lemma update_fresh self T R st ann jitter :
  (forall i, infos st !! ann_key ann = Some i -> (info_seq i < ann_seq ann)%Z) ->
  fst (update self T R st ann jitter) = true.
Proof.
  intros H. unfold update.
  destruct (infos st !! ann_key ann) as [i |] eqn:Ei; [| reflexivity].
  specialize (H i eq_refl). unfold update_proceeds.
  rewrite Z.gtb_ltb. destruct (Z.ltb_spec (ann_seq ann) (info_seq i)); [lia |].
  destruct (Z.ltb_spec (info_seq i) (ann_seq ann)); [reflexivity | lia].
Qed.

Lemma update_true self T R st ann jitter :
  fst (update self T R st ann jitter) = true ->
  exists st', update self T R st ann jitter = (true, st') /\
    infos st' = <[ann_key ann := info_of ann]> (infos st).
Proof.
  intros H. destruct (update self T R st ann jitter) as [b st'] eqn:Eu. simpl in H. subst b.
  exists st'. split; [reflexivity |]. exact (proj1 (update_accept self T R st ann jitter st' Eu)).
Qed.

Lemma self_seq_mod (st : router) (self : publicKey) :
  u64 (self_seq st self) -> (self_seq st self < 2 ^ 64 - 1)%Z ->
  ((self_seq st self + 1) mod 2 ^ 64 = self_seq st self + 1)%Z.
Proof. unfold u64. intros H1 H2. apply Z.mod_small. lia. Qed.

(** [_becomeRoot] never reaches its [panic] when signatures verify: its
    announce (port 0, parent the node itself) passes [check]. Below the
    largest sequence number it is accepted and stores the node as its own
    parent on port 0 with the next [seq]; at seq [2^64 - 1] the [uint64]
    increment wraps to 0, [_update] refuses the announce and
    [_becomeRoot] returns false, the case where [_fix] panics. *)
Theorem becomeRoot_spec (sign : publicKey -> list Z -> list Z)
    (verify : publicKey -> list Z -> list Z -> bool)
    (self : publicKey) (T R : Z) (st : router) (nonce jitter : Z) :
  (forall k bs, verify k bs (sign k bs) = true) ->
  u64 (self_seq st self) ->
  ((self_seq st self < 2 ^ 64 - 1)%Z ->
     exists st' i, becomeRoot sign verify self T R st nonce jitter = Some (true, st') /\
       infos st' = <[self := i]> (infos st) /\ parent i = self /\ info_port i = 0%Z /\
       info_seq i = (self_seq st self + 1)%Z /\ info_nonce i = nonce /\ expired i = false) /\
  (is_Some (infos st !! self) -> self_seq st self = (2 ^ 64 - 1)%Z ->
     becomeRoot sign verify self T R st nonce jitter = Some (false, st)).
Proof.
  intros Hsig Hu. unfold becomeRoot.
  set (req := newReq st self nonce).
  set (res0 := {| res_req := req; port := 0; psig := repeat 0%Z signatureSize |}).
  set (res := {| res_req := req; port := 0; psig := sign self (sigRes_bytesForSig res0 self self) |}).
  set (ann := {| ann_key := self; ann_parent := self; ann_res := res; ann_sig := psig res |}).
  assert (Hb : sigRes_bytesForSig res self self = sigRes_bytesForSig res0 self self)
    by (apply sigRes_bytesForSig_psig; reflexivity).
  assert (Hc : announce_check verify ann = true).
  { unfold announce_check. cbn [ann_port ann_res ann_key ann_parent ann_sig ann port psig res].
    rewrite bool_decide_eq_true_2 by reflexivity. rewrite andb_false_r.
    fold res. rewrite Hb. rewrite Hsig. reflexivity. }
  rewrite Hc. simpl negb. cbv iota.
  split.
  - intros Hlt.
    destruct (update_true self T R st ann jitter) as (st' & Heq & Hi).
    { apply update_fresh. intros i Hi. unfold ann, ann_seq, res, req, newReq. simpl.
      rewrite self_seq_mod by assumption. unfold self_seq. simpl in Hi. rewrite Hi. lia. }
    exists st', (info_of ann). rewrite Heq. split; [reflexivity |]. split; [exact Hi |].
    unfold info_of, info_port, info_seq, info_nonce, ann, res, req, newReq. simpl.
    rewrite self_seq_mod by assumption. repeat split.
  - intros [i Hi] Hmax. f_equal. apply update_reject.
    unfold update. simpl ann_key. rewrite Hi. unfold update_proceeds.
    unfold self_seq in Hmax. rewrite Hi in Hmax.
    assert (Ha : ann_seq ann = 0%Z) by (unfold ann, ann_seq, res, req, newReq, self_seq; simpl; rewrite Hi, Hmax; reflexivity).
    rewrite Ha, Hmax. reflexivity.
Qed.

(** The request/response exchange: the response [_handleRequest] of a
    parent makes for a request from [_newReq] passes [routerSigRes.check],
    and the announce [_useResponse] builds from it passes
    [routerAnnounce.check] (when the parent's port for the link is not 0)
    and is accepted by [_update], storing the parent and port with the
    next [seq]. *)
Theorem request_response_accepted (sign : publicKey -> list Z -> list Z)
    (verify : publicKey -> list Z -> list Z -> bool)
    (self parentKey : publicKey) (T R : Z) (st : router) (pport nonce jitter : Z) :
  (forall k bs, verify k bs (sign k bs) = true) ->
  (pport <> 0%Z \/ self = parentKey) ->
  u64 (self_seq st self) -> (self_seq st self < 2 ^ 64 - 1)%Z ->
  let res := handleRequest sign parentKey self pport (newReq st self nonce) in
  sigRes_check verify res self parentKey = true /\
  announce_check verify (useResponse_ann sign self parentKey res) = true /\
  exists st' i, useResponse sign self T R st parentKey res jitter = (true, st') /\
    infos st' = <[self := i]> (infos st) /\ parent i = parentKey /\ info_port i = pport /\
    info_seq i = (self_seq st self + 1)%Z /\ expired i = false.
Proof.
  intros Hsig Hport Hu Hlt res.
  assert (Hb : sigRes_bytesForSig res self parentKey =
               sigRes_bytesForSig {| res_req := newReq st self nonce; port := pport;
                                     psig := repeat 0%Z signatureSize |} self parentKey)
    by (apply sigRes_bytesForSig_psig; reflexivity).
  split; [| split].
  - unfold sigRes_check. rewrite Hb. unfold res, handleRequest. cbn [psig]. apply Hsig.
  - unfold announce_check, useResponse_ann, getAnnounce.
    cbn [ann_port ann_res ann_key ann_parent ann_sig parent info_res info_sig].
    replace ((port res =? 0)%Z && negb (bool_decide (self = parentKey))) with false.
    2:{ destruct Hport as [Hp | ->].
        - unfold res, handleRequest. cbn [port]. destruct (Z.eqb_spec pport 0); [contradiction | reflexivity].
        - rewrite bool_decide_eq_true_2 by reflexivity. rewrite andb_false_r. reflexivity. }
    rewrite Hsig. simpl andb. rewrite Hb. unfold res, handleRequest. cbn [psig]. apply Hsig.
  - unfold useResponse.
    destruct (update_true self T R st (useResponse_ann sign self parentKey res) jitter) as (st' & Heq & Hi).
    { apply update_fresh. intros i Hi. unfold useResponse_ann, getAnnounce, ann_seq in *. cbn in Hi |- *.
      unfold res, handleRequest, newReq. cbn. rewrite self_seq_mod by assumption.
      unfold self_seq. rewrite Hi. lia. }
    exists st', (info_of (useResponse_ann sign self parentKey res)). split; [exact Heq | split; [exact Hi |]].
    unfold info_of, useResponse_ann, getAnnounce, info_port, info_seq, res, handleRequest, newReq. cbn.
    rewrite self_seq_mod by assumption. repeat split.
Qed.

(** ** Properties of [handleMerkleRes] *)

Lemma GetBit_SetBit (k : publicKey) (b : bool) (off : nat) :
  (off / 8 < length k)%nat -> Merkle.GetBit (Merkle.SetBit k b off) off = b.
Proof.
  intros Hl. unfold Merkle.GetBit, Merkle.SetBit, Merkle.bit_mask.
  destruct (k !! (off / 8)%nat) as [byte |] eqn:E; [| apply lookup_ge_None in E; lia].
  rewrite list_lookup_insert_eq by lia.
  destruct b.
  - rewrite Z.lor_spec, Z.pow2_bits_true by lia. apply orb_true_r.
  - rewrite Z.land_spec, Z.lnot_spec, Z.pow2_bits_true by lia. apply andb_false_r.
Qed.

Lemma leaves_ok_depth (infos : gmap publicKey routerInfo) (n : Merkle.mnode) (d : nat) (k : publicKey) :
  Merkle.leaves_ok infos n d k = true -> (d <= Merkle.KeyBits)%nat.
Proof.
  destruct n as [dg [l |] [r |]]; simpl; intros H;
  first [ destruct (Nat.ltb_spec d Merkle.KeyBits); [lia | discriminate]
        | destruct (Nat.eqb_spec d Merkle.KeyBits); [lia | discriminate] ].
Qed.

Lemma Lookup_too_deep (infos : gmap publicKey routerInfo) (merk : Merkle.mnode) (k : publicKey) (plen : nat) :
  Merkle.leaves_ok infos merk 0 k = true -> (Merkle.KeyBits < plen)%nat ->
  MerkleSync.Lookup merk k plen = None.
Proof.
  intros Hok Hlt. unfold MerkleSync.Lookup, Merkle.NodeFor.
  pose proof (node_for_leaves infos merk k 0 plen Hok) as Hl.
  destruct (Merkle.node_for_from merk k 0 plen) as [node d]. simpl in Hl.
  apply leaves_ok_depth in Hl. destruct (Nat.eqb_spec d plen); [lia | reflexivity].
Qed.

(** [handleMerkleRes] (for a [prefixLen] below [2^63], where [int] keeps
    it): a response at full key length, or one whose digest agrees with
    the tree, sends nothing. Otherwise, below [KeyBits] it asks for the two
    children, at [prefixLen + 1], with bit [prefixLen] of the prefix 0 and
    1, and both requests pass [check]; above [KeyBits] it panics, and for
    a tree whose leaves sit at depth [KeyBits] every such response is a
    disagreement, so it always panics. *)
Theorem handleMerkleRes_spec (merk : Merkle.mnode) (res : routerMerkleRes) :
  let len := prefixLen (mres_req res) in
  let pre := prefix (mres_req res) in
  (0 <= len < 2 ^ 63)%Z ->
  (len = Z.of_nat Merkle.KeyBits -> MerkleSync.handleMerkleRes merk res = MerkleSync.Sent []) /\
  (MerkleSync.Lookup merk pre (Z.to_nat len) = Some (digest res) ->
     MerkleSync.handleMerkleRes merk res = MerkleSync.Sent []) /\
  ((len < Z.of_nat Merkle.KeyBits)%Z ->
     MerkleSync.Lookup merk pre (Z.to_nat len) <> Some (digest res) ->
     let left := {| prefixLen := len + 1; prefix := MerkleSync.GetLeft pre (Z.to_nat len) |} in
     let right := {| prefixLen := len + 1; prefix := MerkleSync.GetRight pre (Z.to_nat len) |} in
     MerkleSync.handleMerkleRes merk res = MerkleSync.Sent [left; right] /\
     MerkleSync.check left = true /\ MerkleSync.check right = true /\
     (length pre = publicKeySize ->
        Merkle.GetBit (prefix left) (Z.to_nat len) = false /\
        Merkle.GetBit (prefix right) (Z.to_nat len) = true)) /\
  ((Z.of_nat Merkle.KeyBits < len)%Z ->
     MerkleSync.Lookup merk pre (Z.to_nat len) <> Some (digest res) ->
     MerkleSync.handleMerkleRes merk res = MerkleSync.Panic) /\
  (forall infos, (Z.of_nat Merkle.KeyBits < len)%Z -> Merkle.leaves_ok infos merk 0 pre = true ->
     MerkleSync.handleMerkleRes merk res = MerkleSync.Panic).
Proof.
  intros len pre Hr.
  assert (Hm : ((len + 1) mod 2 ^ 64 = len + 1)%Z) by (apply Z.mod_small; lia).
  assert (Hdis : MerkleSync.Lookup merk pre (Z.to_nat len) <> Some (digest res) ->
    MerkleSync.handleMerkleRes merk res =
      if (len =? Z.of_nat Merkle.KeyBits)%Z then MerkleSync.Sent [] else
      let left := {| prefixLen := len + 1; prefix := MerkleSync.GetLeft pre (Z.to_nat len) |} in
      if negb (MerkleSync.check left) then MerkleSync.Panic else
      let right := {| prefixLen := len + 1; prefix := MerkleSync.GetRight pre (Z.to_nat len) |} in
      if negb (MerkleSync.check right) then MerkleSync.Panic else MerkleSync.Sent [left; right]).
  { intros Hne. unfold MerkleSync.handleMerkleRes. fold len pre. rewrite Hm.
    destruct (len =? Z.of_nat Merkle.KeyBits)%Z; [reflexivity |].
    destruct (MerkleSync.Lookup merk pre (Z.to_nat len)) as [d |]; [| reflexivity].
    rewrite bool_decide_eq_false_2 by congruence. reflexivity. }
  assert (Hpanic : (Z.of_nat Merkle.KeyBits < len)%Z ->
     MerkleSync.Lookup merk pre (Z.to_nat len) <> Some (digest res) ->
     MerkleSync.handleMerkleRes merk res = MerkleSync.Panic).
  { intros Hgt Hne. rewrite (Hdis Hne).
    destruct (Z.eqb_spec len (Z.of_nat Merkle.KeyBits)); [lia |]. unfold MerkleSync.check. simpl.
    destruct (Z.leb_spec (len + 1) (Z.of_nat Merkle.KeyBits)); [lia | reflexivity]. }
  split; [| split; [| split; [| split]]].
  - intros Heq. unfold MerkleSync.handleMerkleRes. fold len. rewrite Heq, Z.eqb_refl. reflexivity.
  - intros Hag. unfold MerkleSync.handleMerkleRes. fold len pre.
    destruct (len =? Z.of_nat Merkle.KeyBits)%Z; [reflexivity |].
    rewrite Hag, bool_decide_eq_true_2 by reflexivity. reflexivity.
  - intros Hlt Hne left right. rewrite (Hdis Hne).
    destruct (Z.eqb_spec len (Z.of_nat Merkle.KeyBits)); [lia |].
    assert (Hc : MerkleSync.check left = true /\ MerkleSync.check right = true).
    { unfold MerkleSync.check, left, right; cbn [prefixLen]. split; apply Z.leb_le; lia. }
    destruct Hc as [Hcl Hcr]. cbv zeta. fold left right. rewrite Hcl, Hcr.
    split; [reflexivity | split; [reflexivity | split; [reflexivity |]]].
    intros Hlen. unfold MerkleSync.GetLeft, MerkleSync.GetRight. simpl.
    assert (Hb : (Z.to_nat len / 8 < length pre)%nat).
    { rewrite Hlen. unfold publicKeySize. unfold Merkle.KeyBits, publicKeySize in Hlt.
      apply Nat.Div0.div_lt_upper_bound. lia. }
    split; apply GetBit_SetBit; exact Hb.
  - exact Hpanic.
  - intros infos Hgt Hok. apply Hpanic; [exact Hgt |].
    rewrite (Lookup_too_deep infos merk pre (Z.to_nat len) Hok); [discriminate |].
    unfold Merkle.KeyBits, publicKeySize in *. lia.
Qed.

(** A signature scheme for the concrete routers: [ex_verify] accepts
    every signature of [ex_sign]. *)
Definition ex_sign (k : publicKey) (bs : list Z) : list Z := repeat 0%Z signatureSize.

Lemma ex_sign_ok (k : publicKey) (bs : list Z) : ex_verify k bs (ex_sign k bs) = true.
Proof. reflexivity. Qed.

(** [_becomeRoot] at [ex_state] (self seq 1) is accepted. *)
Lemma becomeRoot_spec_witness :
  u64 (self_seq ex_state ex_self) /\ (self_seq ex_state ex_self < 2 ^ 64 - 1)%Z /\
  exists st', becomeRoot ex_sign ex_verify ex_self 10 100 ex_state 7 0 = Some (true, st').
Proof.
  assert (Hs : self_seq ex_state ex_self = 1%Z) by (vm_compute; reflexivity).
  assert (H1 : u64 (self_seq ex_state ex_self)) by (unfold u64; rewrite Hs; lia).
  assert (H2 : (self_seq ex_state ex_self < 2 ^ 64 - 1)%Z) by (rewrite Hs; lia).
  split; [exact H1 | split; [exact H2 |]].
  destruct (proj1 (becomeRoot_spec ex_sign ex_verify ex_self 10 100 ex_state 7 0 ex_sign_ok H1) H2)
    as (st' & i & Hb & _).
  exists st'. exact Hb.
Defined.

(** [ex_other], parent of [ex_self] on its port 3, answers the request
    of [ex_state]; the resulting announce passes [check]. *)
Lemma request_response_accepted_witness :
  (3 <> 0)%Z /\ u64 (self_seq ex_state ex_self) /\ (self_seq ex_state ex_self < 2 ^ 64 - 1)%Z /\
  announce_check ex_verify
    (useResponse_ann ex_sign ex_self ex_other
       (handleRequest ex_sign ex_other ex_self 3 (newReq ex_state ex_self 7))) = true.
Proof.
  assert (H0 : (3 <> 0)%Z) by discriminate.
  assert (Hs : self_seq ex_state ex_self = 1%Z) by (vm_compute; reflexivity).
  assert (H1 : u64 (self_seq ex_state ex_self)) by (unfold u64; rewrite Hs; lia).
  assert (H2 : (self_seq ex_state ex_self < 2 ^ 64 - 1)%Z) by (rewrite Hs; lia).
  split; [exact H0 | split; [exact H1 | split; [exact H2 |]]].
  exact (proj1 (proj2 (request_response_accepted ex_sign ex_verify ex_self ex_other 10 100 ex_state 3 7 0
                         ex_sign_ok (or_introl H0) H1 H2))).
Defined.

(** A response for a 300-bit prefix, beyond [KeyBits], against the
    tree of [ex_self]: [handleMerkleRes] panics. *)
Definition ex_deep_res : routerMerkleRes :=
  {| mres_req := {| prefixLen := 300; prefix := zero_key |}; digest := repeat 0%Z digestSize |}.

Lemma handleMerkleRes_spec_witness :
  (0 <= prefixLen (mres_req ex_deep_res) < 2 ^ 63)%Z /\
  (Z.of_nat Merkle.KeyBits < prefixLen (mres_req ex_deep_res))%Z /\
  Merkle.leaves_ok ({[ex_self := ex_info_self]} : gmap publicKey routerInfo)
    (Merkle.path_tree ex_self 0 Merkle.KeyBits) 0 (prefix (mres_req ex_deep_res)) = true /\
  MerkleSync.handleMerkleRes (Merkle.path_tree ex_self 0 Merkle.KeyBits) ex_deep_res = MerkleSync.Panic.
Proof.
  assert (H1 : (0 <= prefixLen (mres_req ex_deep_res) < 2 ^ 63)%Z) by (simpl; lia).
  assert (H2 : (Z.of_nat Merkle.KeyBits < prefixLen (mres_req ex_deep_res))%Z) by (vm_compute; reflexivity).
  assert (H3 : Merkle.leaves_ok ({[ex_self := ex_info_self]} : gmap publicKey routerInfo)
                 (Merkle.path_tree ex_self 0 Merkle.KeyBits) 0 (prefix (mres_req ex_deep_res)) = true)
    by (vm_compute; reflexivity).
  split; [exact H1 | split; [exact H2 | split; [exact H3 |]]].
  exact (proj2 (proj2 (proj2 (proj2 (handleMerkleRes_spec (Merkle.path_tree ex_self 0 Merkle.KeyBits)
           ex_deep_res H1)))) _ H2 H3).
Defined.

(* ------------------------------------------------------------------ *)
(** ** Peer links: framing and source-routed forwarding *)

(** [binary.BigEndian.PutUint16] / [PutUint64]: the [n] low bytes of [v],
    most significant first. *)
Fixpoint be_put (n : nat) (v : Z) : list Z :=
  match n with
  | O => []
  | S m => Z.land (Z.shiftr v (8 * Z.of_nat m)) 255 :: be_put m v
  end.

(** [binary.BigEndian.Uint16] / [Uint64] of the bytes [l]. *)
Definition be_get (l : list Z) : Z :=
  fold_left (fun acc b => Z.lor (Z.shiftl acc 8) b) l 0%Z.

Module PeerLink.

(** Modelled from the spec: the packet type tags of wire.go (§6). *)
Definition wireDummy : Z := 0.
Definition wireProtoTree : Z := 1.
Definition wirePathTraffic : Z := 10.

(** The frame [_sendProto] writes for the message [msg] (the type byte and
    the encoded body, [p.writeBuf[2:]]): its length as a big-endian
    [uint16], then the message. A message longer than 65535 bytes is not
    written ([None]). *)
Definition sendProto_frame (msg : list Z) : option (list Z) :=
  if (65535 <? Z.of_nat (length msg))%Z then None
  else Some (be_put 2 (Z.of_nat (length msg)) ++ msg).

(** The bytes a sequence of [_sendProto] calls writes on the connection. *)
Definition sent (msgs : list (list Z)) : list Z :=
  concat (map (fun m => match sendProto_frame m with Some f => f | None => [] end) msgs).

(** The bytes the [keepAlive] callback writes. *)
Definition keepAlive_bytes : list Z := [0; 1; wireDummy]%Z.

(** [handlePacket]; [dispatch t body] is the handler of the tag [t]
    ([true]: it returned [nil]). *)
Definition handlePacket (dispatch : Z -> list Z -> bool) (bs : list Z) : bool :=
  match bs with
  | [] => false
  | pType :: body =>
      if (pType =? wireDummy)%Z then true
      else if ((1 <=? pType) && (pType <=? wirePathTraffic))%Z then dispatch pType body
      else false
  end.

Inductive handler_end := ReadError | PacketError.

(** The read loop of [handler]: [io.ReadFull] of the 2-byte length, then
    [io.ReadFull] of that many bytes, then [handlePacket]; any error ends
    the loop. The result is the list of packets handed to [handlePacket]
    and the error that ended the loop. Every pass consumes at least two
    bytes, so [length stream] passes are enough: when the fuel runs out
    the stream is empty and the next read fails. *)
Fixpoint handler_loop (handle : list Z -> bool) (fuel : nat) (stream : list Z)
    : list (list Z) * handler_end :=
  match fuel with
  | O => ([], ReadError)
  | S f =>
      if Nat.ltb (length stream) 2 then ([], ReadError) else
      let size := Z.to_nat (be_get (take 2 stream)) in
      let data := drop 2 stream in
      if Nat.ltb (length data) size then ([], ReadError) else
      let bs := take size data in
      if handle bs then
        let '(pkts, e) := handler_loop handle f (drop size data) in (bs :: pkts, e)
      else ([bs], PacketError)
  end.

(** [peers.handlePathTraffic] and [peers.handlePathResponse]: the next
    port is the head of the path (port 0 for an empty path), which is
    removed from the path; the packet goes to the peer at that port if
    there is one, and otherwise falls back to the DHT or the pathfinder
    ([None]). *)
Definition handlePath (ps : gmap Z Peers.peer) (path : list Z) : option Peers.peer * list Z :=
  let '(nextPort, rest) := match path with [] => (0%Z, path) | q :: r => (q, r) end in
  (ps !! nextPort, rest).

End PeerLink.

Section FramingLemmas.

Lemma length_be_put (n : nat) (v : Z) : length (be_put n v) = n.
Proof. induction n as [| n IH]; simpl; [reflexivity | rewrite IH; reflexivity]. Qed.

Lemma be_fold (n : nat) (v acc : Z) :
  (0 <= acc)%Z ->
  fold_left (fun acc b => Z.lor (Z.shiftl acc 8) b) (be_put n v) acc =
  (acc * 2 ^ (8 * Z.of_nat n) + v mod 2 ^ (8 * Z.of_nat n))%Z.
Proof.
  revert acc. induction n as [| m IH]; intros acc Hacc.
  - simpl. rewrite Z.mod_1_r. lia.
  - cbn [be_put fold_left].
    assert (Hp : (0 < 2 ^ (8 * Z.of_nat m))%Z) by (apply Z.pow_pos_nonneg; lia).
    assert (Hb : (Z.land (Z.shiftr v (8 * Z.of_nat m)) 255 = (v / 2 ^ (8 * Z.of_nat m)) mod 2 ^ 8)%Z).
    { rewrite Z.shiftr_div_pow2 by lia. change 255%Z with (Z.ones 8). apply Z.land_ones. lia. }
    rewrite Hb.
    set (b := ((v / 2 ^ (8 * Z.of_nat m)) mod 2 ^ 8)%Z).
    assert (Hbr : (0 <= b < 2 ^ 8)%Z) by (apply Z.mod_pos_bound; lia).
    rewrite Z.lor_comm, lor_shiftl_add by lia.
    rewrite IH by lia.
    replace (8 * Z.of_nat (S m))%Z with (8 * Z.of_nat m + 8)%Z by lia.
    rewrite Z.pow_add_r by lia.
    rewrite (Z.rem_mul_r v (2 ^ (8 * Z.of_nat m)) (2 ^ 8)) by lia.
    fold b. ring.
Qed.

Lemma be_get_put (n : nat) (v : Z) :
  (0 <= v < 2 ^ (8 * Z.of_nat n))%Z -> be_get (be_put n v) = v.
Proof.
  intros Hv. unfold be_get. rewrite be_fold by lia. rewrite Z.mod_small by lia. lia.
Qed.

Lemma handler_loop_sent (handle : list Z -> bool) (msgs : list (list Z)) (fuel : nat) :
  (forall m, In m msgs -> (Z.of_nat (length m) <= 65535)%Z -> handle m = true) ->
  (length (PeerLink.sent msgs) <= fuel)%nat ->
  PeerLink.handler_loop handle fuel (PeerLink.sent msgs) =
  (List.filter (fun m => Z.of_nat (length m) <=? 65535)%Z msgs, PeerLink.ReadError).
Proof.
  revert fuel. induction msgs as [| m ms IH]; intros fuel Hh Hf.
  - destruct fuel; reflexivity.
  - assert (Hs : PeerLink.sent (m :: ms) =
                 match PeerLink.sendProto_frame m with Some f => f | None => [] end ++ PeerLink.sent ms)
      by reflexivity.
    rewrite Hs in Hf |- *. unfold PeerLink.sendProto_frame in Hf |- *.
    revert Hf. destruct (Z.ltb_spec 65535 (Z.of_nat (length m))) as [Hlong | Hshort]; intros Hf.
    + rewrite app_nil_l in Hf |- *. cbn [List.filter].
      rewrite (proj2 (Z.leb_gt (Z.of_nat (length m)) 65535) Hlong).
      apply IH; [intros m' Hm'; apply Hh; right; exact Hm' | exact Hf].
    + cbn [List.filter]. rewrite (proj2 (Z.leb_le (Z.of_nat (length m)) 65535) Hshort).
      rewrite <- app_assoc.
      set (hdr := be_put 2 (Z.of_nat (length m))) in *.
      assert (Hhdr : length hdr = 2%nat) by apply length_be_put.
      rewrite <- app_assoc, length_app, Hhdr, length_app in Hf.
      destruct fuel as [| f]; [lia |]. cbn [PeerLink.handler_loop].
      destruct (Nat.ltb_spec (length (hdr ++ m ++ PeerLink.sent ms)) 2) as [Hc | _];
        [rewrite !length_app in Hc; lia |].
      assert (Ht : take 2 (hdr ++ m ++ PeerLink.sent ms) = hdr)
        by (apply take_app_length'; lia).
      assert (Hd : drop 2 (hdr ++ m ++ PeerLink.sent ms) = m ++ PeerLink.sent ms)
        by (apply drop_app_length'; lia).
      rewrite Ht, Hd.
      assert (Hsz : Z.to_nat (be_get hdr) = length m).
      { unfold hdr. rewrite be_get_put by (simpl; lia). apply Nat2Z.id. }
      rewrite Hsz.
      destruct (Nat.ltb_spec (length (m ++ PeerLink.sent ms)) (length m)) as [Hc | _];
        [rewrite length_app in Hc; lia |].
      rewrite take_app_length, drop_app_length.
      rewrite (Hh m (or_introl eq_refl) Hshort).
      rewrite IH; [reflexivity | intros m' Hm'; apply Hh; right; exact Hm' | lia].
Qed.

End FramingLemmas.

(* ------------------------------------------------------------------ *)
(** ** The legacy spanning tree: [treeInfo] *)

Module DHTree.

Record treeHop := { next : publicKey; port : Z; sig : list Z }.

(** [treeInfo] without its [time] field, which none of the functions
    below reads. *)
Record treeInfo := { root : publicKey; seq : Z; hops : list treeHop }.

(** [treeInfo.dest]: the key of the last hop, or the root. *)
Definition dest (info : treeInfo) : publicKey :=
  match last (hops info) with Some h => next h | None => root info end.

(** [treeInfo.from]: the key of the second-to-last hop, or the root. *)
Definition from (info : treeInfo) : publicKey :=
  if Nat.ltb 1 (length (hops info)) then
    match hops info !! (length (hops info) - 2)%nat with
    | Some h => next h
    | None => root info
    end
  else root info.

(** The loop of [treeInfo.checkSigs]: [key] signs the bytes so far
    extended with the next hop's key and port. *)
Fixpoint check_hops (verify : publicKey -> list Z -> list Z -> bool)
    (key : publicKey) (bs : list Z) (hs : list treeHop) : bool :=
  match hs with
  | [] => true
  | hop :: r =>
      let bs' := wireAppendUint (bs ++ next hop) (port hop) in
      if verify key bs' (sig hop) then check_hops verify (next hop) bs' r else false
  end.

(** [treeInfo.checkSigs]: no hops fails; the root signs the first hop. *)
Definition checkSigs (verify : publicKey -> list Z -> list Z -> bool) (info : treeInfo) : bool :=
  match hops info with
  | [] => false
  | _ => check_hops verify (root info) (root info ++ be_put 8 (seq info)) (hops info)
  end.

(** The loop of [treeInfo.checkLoops]; [keys] is the Go map of the keys
    seen so far. *)
Fixpoint loops_from (keys : gset publicKey) (key : publicKey) (hs : list treeHop) : bool :=
  match hs with
  | [] => negb (bool_decide (key ∈ keys))
  | hop :: r =>
      if bool_decide (key ∈ keys) then false
      else loops_from ({[key]} ∪ keys) (next hop) r
  end.

Definition checkLoops (info : treeInfo) : bool := loops_from ∅ (root info) (hops info).

(** The bytes of the loop of [treeInfo.add] over the existing hops. *)
Definition hops_bytes (bs : list Z) (hs : list treeHop) : list Z :=
  fold_left (fun bs hop => wireAppendUint (bs ++ next hop) (port hop)) hs bs.

(** [treeInfo.add]: a copy of [info] extended with a hop to the peer
    [next] (key [nkey], port [nport]), signed with the private key of
    [self]. *)
Definition add (sign : publicKey -> list Z -> list Z) (self : publicKey) (info : treeInfo)
    (nkey : publicKey) (nport : Z) : treeInfo :=
  let bs := wireAppendUint (hops_bytes (root info ++ be_put 8 (seq info)) (hops info) ++ nkey) nport in
  {| root := root info; seq := seq info;
     hops := hops info ++ [{| next := nkey; port := nport; sig := sign self bs |}] |}.

(** The loop of [treeInfo.dist] over the common indices: the last index
    at which the hop port equals the label path. *)
Fixpoint lca (hs : list treeHop) (path : list Z) (lcaIdx idx : Z) : Z :=
  match hs, path with
  | hop :: hs', p :: path' =>
      if negb (port hop =? p)%Z then lcaIdx else lca hs' path' idx (idx + 1)
  | _, _ => lcaIdx
  end.

(** [int(^(uint(0)) >> 1)] on a 64-bit platform. *)
Definition maxInt : Z := (2 ^ 63 - 1)%Z.

(** [treeInfo.dist] to the [treeLabel] with root [lroot] and path
    [lpath]. *)
Definition dist (info : treeInfo) (lroot : publicKey) (lpath : list Z) : Z :=
  if negb (bool_decide (root info = lroot)) then maxInt else
  let a := Z.of_nat (length (hops info)) in
  let b := Z.of_nat (length lpath) in
  let '(a, b) := if (b <? a)%Z then (b, a) else (a, b) in
  (a + b - 2 * (lca (hops info) lpath (-1) 0 + 1))%Z.

(** [treeInfo.encode]. *)
Definition encode (info : treeInfo) (out : list Z) : list Z :=
  fold_left (fun out hop => wireAppendUint (out ++ next hop) (port hop) ++ sig hop)
    (hops info) (out ++ root info ++ be_put 8 (seq info)).

(** The loop [for len(data) > 0] of [treeInfo.decode]. Every pass that
    goes on consumes at least one byte, so [length data] passes are
    enough. *)
Fixpoint chop_hops (fuel : nat) (data : list Z) (acc : list treeHop) : option (list treeHop) :=
  if Nat.eqb (length data) 0 then Some acc else
  match fuel with
  | O => None
  | S f =>
      match wireChopSlice publicKeySize data with
      | None => None
      | Some (nk, data) =>
          match wireChopUint data with
          | None => None
          | Some (p, data) =>
              match wireChopSlice signatureSize data with
              | None => None
              | Some (s, data) => chop_hops f data (acc ++ [{| next := nk; port := p; sig := s |}])
              end
          end
      end
  end.

(** [treeInfo.decode]: [None] is [wireDecodeError]. *)
Definition decode (data : list Z) : option treeInfo :=
  match wireChopSlice publicKeySize data with
  | None => None
  | Some (r, data) =>
      if Nat.leb 8 (length data) then
        let s := be_get (take 8 data) in
        let data := drop 8 data in
        match chop_hops (length data) data [] with
        | None => None
        | Some hs => Some {| root := r; seq := s; hops := hs |}
        end
      else None
  end.

(** [peer.handleTree] on the peer with key [pkey], at the node [self]:
    [None] is an error; otherwise the info handed to [dhtree.update]. *)
Definition handleTree (verify : publicKey -> list Z -> list Z -> bool)
    (self pkey : publicKey) (bs : list Z) : option treeInfo :=
  match decode bs with
  | None => None
  | Some info =>
      if negb (checkSigs verify info) then None
      else if negb (bool_decide (pkey = from info)) then None
      else match last (hops info) with
           | Some h => if bool_decide (self = next h) then Some info else None
           | None => None
           end
  end.

(** A well-formed hop and info: keys and signatures of their sizes,
    64-bit sequence numbers and ports. *)
Definition hop_wf (h : treeHop) : Prop :=
  length (next h) = publicKeySize /\ u64 (port h) /\ length (sig h) = signatureSize.

Definition info_wf (info : treeInfo) : Prop :=
  length (root info) = publicKeySize /\ u64 (seq info) /\ Forall hop_wf (hops info).

End DHTree.

(* ------------------------------------------------------------------ *)
(** ** The legacy DHT traffic codecs *)

Module DHTTraffic.

Record dhtWatermark := { key : publicKey; seq : Z }.
Record baseTraffic := { source : publicKey; dest : publicKey; kind : Z; payload : list Z }.

(** [dhtTraffic] embeds [baseTraffic]. *)
Record dhtTraffic := { mark : dhtWatermark; base : baseTraffic }.

(** [dhtWatermark.decode]: [None] is [wireDecodeError]. *)
Definition watermark_decode (data : list Z) : option dhtWatermark :=
  match wireChopSlice publicKeySize data with
  | None => None
  | Some (k, data) =>
      if Nat.ltb (length data) 8 then None
      else Some {| key := k; seq := be_get (take 8 data) |}
  end.

(** [dhtWatermark.chop]: decode, then drop [len(m.key) + 8] bytes. *)
Definition watermark_chop (data : list Z) : option (dhtWatermark * list Z) :=
  match watermark_decode data with
  | None => None
  | Some m => Some (m, drop (publicKeySize + 8) data)
  end.

(** [baseTraffic.encode]. *)
Definition base_encode (t : baseTraffic) (out : list Z) : list Z :=
  (((out ++ source t) ++ dest t) ++ [kind t]) ++ payload t.

(** [baseTraffic.decode]: the payload is the rest of the data. *)
Definition base_decode (data : list Z) : option baseTraffic :=
  match wireChopSlice publicKeySize data with
  | None => None
  | Some (s, data) =>
      match wireChopSlice publicKeySize data with
      | None => None
      | Some (d, data) =>
          match data with
          | [] => None
          | k :: rest => Some {| source := s; dest := d; kind := k; payload := rest |}
          end
      end
  end.

(** [dhtTraffic.encode]. *)
Definition encode (t : dhtTraffic) (out : list Z) : list Z :=
  base_encode (base t) ((out ++ key (mark t)) ++ be_put 8 (seq (mark t))).

(** [dhtTraffic.decode]. *)
Definition decode (data : list Z) : option dhtTraffic :=
  match watermark_chop data with
  | None => None
  | Some (m, data) =>
      match base_decode data with
      | None => None
      | Some b => Some {| mark := m; base := b |}
      end
  end.

Definition wf (t : dhtTraffic) : Prop :=
  length (key (mark t)) = publicKeySize /\ u64 (seq (mark t)) /\
  length (source (base t)) = publicKeySize /\ length (dest (base t)) = publicKeySize.

End DHTTraffic.

Section TreeLemmas.

Definition hop_enc (h : DHTree.treeHop) : list Z :=
  DHTree.next h ++ put_uvarint 10 (DHTree.port h) ++ DHTree.sig h.

Lemma encode_fold (hs : list DHTree.treeHop) (out : list Z) :
  fold_left (fun out hop => wireAppendUint (out ++ DHTree.next hop) (DHTree.port hop) ++ DHTree.sig hop)
    hs out = out ++ concat (map hop_enc hs).
Proof.
  revert out. induction hs as [| h hs IH]; intros out; simpl.
  - rewrite app_nil_r. reflexivity.
  - rewrite IH. unfold wireAppendUint, hop_enc. rewrite !app_assoc. reflexivity.
Qed.

Lemma chop_hops_enc (hs acc : list DHTree.treeHop) (fuel : nat) :
  Forall DHTree.hop_wf hs ->
  (length (concat (map hop_enc hs)) <= fuel)%nat ->
  DHTree.chop_hops fuel (concat (map hop_enc hs)) acc = Some (acc ++ hs).
Proof.
  revert acc fuel. induction hs as [| h hs IH]; intros acc fuel Hwf Hf.
  - simpl. rewrite app_nil_r. destruct fuel; reflexivity.
  - inversion Hwf as [| ? ? [Hn [Hp Hs]] Hwf']; subst.
    cbn [map concat] in *. unfold hop_enc in *.
    rewrite <- !app_assoc in *.
    rewrite !length_app, Hn in Hf.
    destruct fuel as [| f]; [unfold publicKeySize in Hf; lia |].
    cbn [DHTree.chop_hops].
    rewrite !length_app, Hn. cbn [publicKeySize Nat.add Nat.eqb].
    rewrite wireChopSlice_append by exact Hn.
    rewrite wireChopUint_append by exact Hp.
    rewrite wireChopSlice_append by exact Hs.
    rewrite IH by (auto; unfold publicKeySize in Hf; lia).
    rewrite <- app_assoc. destruct h; reflexivity.
Qed.

Lemma be_get_take8 (s : Z) (rest : list Z) :
  u64 s -> be_get (take 8 (be_put 8 s ++ rest)) = s /\ drop 8 (be_put 8 s ++ rest) = rest.
Proof.
  intros Hs. rewrite take_app_length' by (rewrite length_be_put; reflexivity).
  rewrite drop_app_length' by (rewrite length_be_put; reflexivity).
  split; [| reflexivity]. apply be_get_put. unfold u64 in Hs. simpl. lia.
Qed.

Lemma tree_decode_encode (info : DHTree.treeInfo) :
  DHTree.info_wf info -> DHTree.decode (DHTree.encode info []) = Some info.
Proof.
  intros (Hr & Hs & Hh). unfold DHTree.encode, DHTree.decode.
  rewrite encode_fold, app_nil_l, <- app_assoc.
  rewrite wireChopSlice_append by exact Hr.
  rewrite length_app, length_be_put. cbn [Nat.leb].
  destruct (be_get_take8 (DHTree.seq info) (concat (map hop_enc (DHTree.hops info))) Hs) as [Hg Hd].
  rewrite Hg, Hd.
  rewrite chop_hops_enc by (auto; lia). destruct info; reflexivity.
Qed.

Lemma tree_decode_short (data : list Z) :
  (length data < 40)%nat -> DHTree.decode data = None.
Proof.
  intros Hl. unfold DHTree.decode, wireChopSlice.
  destruct (Nat.ltb_spec (length data) publicKeySize); [reflexivity |].
  rewrite length_drop. unfold publicKeySize in *.
  destruct (Nat.leb_spec 8 (length data - 32)); [lia | reflexivity].
Qed.

Definition last_key (k : publicKey) (hs : list DHTree.treeHop) : publicKey :=
  match last hs with Some h => DHTree.next h | None => k end.

Lemma check_hops_snoc (verify : publicKey -> list Z -> list Z -> bool)
    (hs : list DHTree.treeHop) (h : DHTree.treeHop) (k : publicKey) (bs : list Z) :
  DHTree.check_hops verify k bs (hs ++ [h]) =
  DHTree.check_hops verify k bs hs &&
  verify (last_key k hs) (wireAppendUint (DHTree.hops_bytes bs hs ++ DHTree.next h) (DHTree.port h))
    (DHTree.sig h).
Proof.
  revert k bs. induction hs as [| h0 hs IH]; intros k bs.
  - simpl. destruct (verify _ _ _); reflexivity.
  - cbn [app DHTree.check_hops]. rewrite IH.
    unfold last_key. rewrite last_cons.
    destruct (verify k _ (DHTree.sig h0)); [| reflexivity]. simpl.
    destruct (last hs); reflexivity.
Qed.

Lemma tree_add_shape (sign : publicKey -> list Z -> list Z) (info : DHTree.treeInfo)
    (nkey : publicKey) (nport : Z) :
  let info' := DHTree.add sign (DHTree.dest info) info nkey nport in
  DHTree.dest info' = nkey /\ DHTree.from info' = DHTree.dest info.
Proof.
  cbv zeta. split.
  - unfold DHTree.dest at 1. simpl. rewrite last_snoc. reflexivity.
  - unfold DHTree.from, DHTree.dest. simpl. rewrite length_app. simpl.
    destruct (DHTree.hops info) as [| h0 hs] eqn:E.
    + simpl. reflexivity.
    + cbn [length]. destruct (Nat.ltb_spec 1 (S (length hs) + 1)); [| lia].
      rewrite lookup_app_l by (simpl; lia).
      rewrite last_lookup. replace (S (length hs) + 1 - 2)%nat with (pred (length (h0 :: hs)))
        by (simpl; lia).
      destruct ((h0 :: hs) !! pred (length (h0 :: hs))) eqn:El; [reflexivity |].
      apply lookup_ge_None in El. simpl in El. lia.
Qed.

Lemma tree_add_checkSigs (sign : publicKey -> list Z -> list Z)
    (verify : publicKey -> list Z -> list Z -> bool) (info : DHTree.treeInfo)
    (nkey : publicKey) (nport : Z) :
  (forall k bs, verify k bs (sign k bs) = true) ->
  DHTree.checkSigs verify info = true \/ DHTree.hops info = [] ->
  DHTree.checkSigs verify (DHTree.add sign (DHTree.dest info) info nkey nport) = true.
Proof.
  intros Hsv Hpre. unfold DHTree.checkSigs, DHTree.add. cbn [DHTree.hops DHTree.root DHTree.seq].
  destruct (DHTree.hops info ++ _) eqn:E; [destruct (DHTree.hops info); discriminate |].
  rewrite <- E. clear E. rewrite check_hops_snoc. cbn [DHTree.next DHTree.port DHTree.sig].
  apply andb_true_intro. split.
  - destruct Hpre as [Hc | Hn].
    + unfold DHTree.checkSigs in Hc. destruct (DHTree.hops info); [discriminate | exact Hc].
    + rewrite Hn. reflexivity.
  - unfold last_key, DHTree.dest. apply Hsv.
Qed.

Lemma loops_from_spec (keys : gset publicKey) (key : publicKey) (hs : list DHTree.treeHop) :
  DHTree.loops_from keys key hs = true <->
  NoDup (key :: map DHTree.next hs) /\ (forall k, k ∈ key :: map DHTree.next hs -> k ∉ keys).
Proof.
  revert keys key. induction hs as [| h hs IH]; intros keys key; simpl.
  - rewrite negb_true_iff, bool_decide_eq_false. split.
    + intros Hk. split; [apply NoDup_singleton |]. intros k Hk'.
      apply list_elem_of_singleton in Hk'. subst. exact Hk.
    + intros [_ Hk]. apply Hk. apply elem_of_cons; left; reflexivity.
  - case_bool_decide as Hin.
    + split; [discriminate |]. intros [_ Hk]. exfalso. apply (Hk key); [apply elem_of_cons; left; reflexivity | exact Hin].
    + rewrite IH. rewrite (NoDup_cons key). split.
      * intros [Hnd Hk]. split; [split; [| exact Hnd] |].
        -- intros Hkey. apply (Hk key Hkey). set_solver.
        -- intros k Hk'. apply elem_of_cons in Hk' as [-> | Hk']; [exact Hin |].
           specialize (Hk k Hk'). set_solver.
      * intros [[Hnk Hnd] Hk]. split; [exact Hnd |].
        intros k Hk'. apply not_elem_of_union. split.
        -- apply not_elem_of_singleton. intros ->. exact (Hnk Hk').
        -- apply Hk. apply elem_of_cons. right. exact Hk'.
Qed.

Lemma lca_spec (hs : list DHTree.treeHop) (path : list Z) (l i : Z) :
  DHTree.lca hs path l i =
  match common_prefix (map DHTree.port hs) path with O => l | S n => (i + Z.of_nat n)%Z end.
Proof.
  revert path l i. induction hs as [| h hs IH]; intros [| p path] l i; simpl; try reflexivity.
  destruct (DHTree.port h =? p)%Z; simpl; [| reflexivity].
  rewrite IH. destruct (common_prefix _ _); lia.
Qed.

End TreeLemmas.

Section DHTTrafficLemmas.

Lemma dht_decode_encode (t : DHTTraffic.dhtTraffic) :
  DHTTraffic.wf t -> DHTTraffic.decode (DHTTraffic.encode t []) = Some t.
Proof.
  destruct t as [[k s] [src d kd pl]]. intros (Hk & Hs & Hsrc & Hd). simpl in *.
  unfold DHTTraffic.decode, DHTTraffic.encode, DHTTraffic.base_encode, DHTTraffic.watermark_chop,
    DHTTraffic.watermark_decode. cbn [DHTTraffic.base DHTTraffic.mark DHTTraffic.key DHTTraffic.seq
    DHTTraffic.source DHTTraffic.dest DHTTraffic.kind DHTTraffic.payload].
  rewrite app_nil_l, <- !app_assoc.
  rewrite wireChopSlice_append by exact Hk.
  destruct (be_get_take8 s (src ++ d ++ [kd] ++ pl) Hs) as [Hg _]. rewrite Hg.
  rewrite length_app, length_be_put.
  destruct (Nat.ltb_spec (8 + length (src ++ d ++ [kd] ++ pl)) 8); [lia |].
  rewrite app_assoc, drop_app_length' by (rewrite length_app, length_be_put, Hk; reflexivity).
  unfold DHTTraffic.base_decode.
  rewrite wireChopSlice_append by exact Hsrc.
  rewrite wireChopSlice_append by exact Hd.
  reflexivity.
Qed.

Lemma dht_decode_length (data : list Z) :
  DHTTraffic.decode data = None <-> (length data < 105)%nat.
Proof.
  unfold DHTTraffic.decode, DHTTraffic.watermark_chop, DHTTraffic.watermark_decode,
    DHTTraffic.base_decode.
  unfold wireChopSlice, publicKeySize.
  destruct (Nat.ltb_spec (length data) 32); [split; [lia | reflexivity] |].
  cbv beta iota. rewrite length_drop.
  destruct (Nat.ltb_spec (length data - 32) 8); [split; [lia | reflexivity] |].
  cbv beta iota. rewrite length_drop.
  destruct (Nat.ltb_spec (length data - (32 + 8)) 32); [split; [lia | reflexivity] |].
  cbv beta iota. rewrite !length_drop.
  destruct (Nat.ltb_spec (length data - (32 + 8) - 32) 32); [split; [lia | reflexivity] |].
  cbv beta iota.
  destruct (drop 32 (drop 32 (drop (32 + 8) data))) as [| b rest] eqn:E.
  - apply (f_equal length) in E. rewrite !length_drop in E. simpl in E. split; [lia | reflexivity].
  - apply (f_equal length) in E. rewrite !length_drop in E. simpl in E. split; [discriminate | lia].
Qed.

End DHTTrafficLemmas.

Section PeerLemmas.

Lemma peers_table_inv (os : list Peers.op) (ps : gmap Z Peers.peer) :
  (forall q p, ps !! q = Some p -> Peers.port p = q /\ (1 <= q)%Z) ->
  forall q p, Peers.run_ops ps os !! q = Some p -> Peers.port p = q /\ (1 <= q)%Z.
Proof.
  revert ps. induction os as [| o os IH]; intros ps Hps; [exact Hps |].
  apply IH. intros q p.
  destruct o as [k | r]; cbv beta iota zeta delta [Peers.run_op Peers.addPeer].
  - destruct (addPeer_port ps k) as [H1 _].
    destruct (decide (q = Peers.free_port (S (size ps)) 1 ps)) as [-> | Hne].
    + rewrite lookup_insert_eq. intros [= <-]. simpl. split; [reflexivity | exact H1].
    + rewrite lookup_insert_ne by congruence. apply Hps.
  - unfold Peers.removePeer. destruct (ps !! r) eqn:E; [| apply Hps].
    destruct (decide (q = r)) as [-> | Hne].
    + by rewrite lookup_delete_eq.
    + rewrite lookup_delete_ne by congruence. apply Hps.
Qed.

Lemma peers_empty_inv (os : list Peers.op) :
  forall q p, Peers.run_ops ∅ os !! q = Some p -> Peers.port p = q /\ (1 <= q)%Z.
Proof. apply peers_table_inv. intros q p Hq. by rewrite lookup_empty in Hq. Qed.

End PeerLemmas.

(* ------------------------------------------------------------------ *)
(** ** Properties of the peer links and of the legacy tree *)

(** The framing of [_sendProto] and the read loop of [handler] agree: a
    peer reading the bytes of a sequence of [_sendProto] calls hands
    [handlePacket] exactly the messages of at most 65535 bytes, in order
    (longer ones were never written), as long as [handlePacket] accepts
    them, and then stops at the end of the stream. The keepalive bytes
    are the frame of the dummy packet, which [handlePacket] accepts. *)
Theorem handler_reads_frames (dispatch : Z -> list Z -> bool) (msgs : list (list Z)) :
  (forall m, In m msgs -> (Z.of_nat (length m) <= 65535)%Z ->
     PeerLink.handlePacket dispatch m = true) ->
  PeerLink.handler_loop (PeerLink.handlePacket dispatch) (length (PeerLink.sent msgs))
    (PeerLink.sent msgs) =
  (List.filter (fun m => Z.of_nat (length m) <=? 65535)%Z msgs, PeerLink.ReadError) /\
  PeerLink.sendProto_frame [PeerLink.wireDummy] = Some PeerLink.keepAlive_bytes /\
  PeerLink.handler_loop (PeerLink.handlePacket dispatch) (length PeerLink.keepAlive_bytes)
    PeerLink.keepAlive_bytes = ([[PeerLink.wireDummy]], PeerLink.ReadError).
Proof.
  intros Hh. split; [apply handler_loop_sent; [exact Hh | lia] |].
  split; reflexivity.
Qed.

(** [peers.handlePathTraffic] and [peers.handlePathResponse] on a table
    built by [addPeer]/[removePeer] from the empty one: an empty path
    always falls back (no peer has port 0), and a packet forwarded to a
    peer [p] had [p]'s own port at the head of its path, which is
    removed. *)
Theorem handlePath_forwards (os : list Peers.op) :
  let ps := Peers.run_ops ∅ os in
  PeerLink.handlePath ps [] = (None, []) /\
  (forall path p rest, PeerLink.handlePath ps path = (Some p, rest) ->
     path = Peers.port p :: rest /\ (1 <= Peers.port p)%Z /\ ps !! Peers.port p = Some p).
Proof.
  cbv zeta. pose proof (peers_empty_inv os) as Hinv. split.
  - unfold PeerLink.handlePath.
    destruct (Peers.run_ops ∅ os !! 0%Z) as [p |] eqn:E; [| reflexivity].
    destruct (Hinv 0%Z p E). lia.
  - intros [| q r] p rest; unfold PeerLink.handlePath.
    + destruct (Peers.run_ops ∅ os !! 0%Z) as [p' |] eqn:E; [| discriminate].
      destruct (Hinv 0%Z p' E). lia.
    + destruct (Peers.run_ops ∅ os !! q) as [p' |] eqn:E; [| discriminate].
      intros [= <- <-]. destruct (Hinv q p' E) as [Hq H1]. subst q. auto.
Qed.

(** [removePeer] undoes [addPeer]: removing the port [addPeer] gave
    restores the table. A removed port is free again: after removing a
    port [q >= 1], the next [addPeer] gets a port in [1..q]. *)
Theorem removePeer_addPeer (ps : gmap Z Peers.peer) (k : publicKey) :
  (exists p ps', Peers.addPeer false ps k = Some (p, ps') /\
     Peers.removePeer ps' (Peers.port p) = Some ps) /\
  (forall q ps'' k', (1 <= q)%Z -> Peers.removePeer ps q = Some ps'' ->
     exists p' ps3, Peers.addPeer false ps'' k' = Some (p', ps3) /\
       (1 <= Peers.port p' <= q)%Z).
Proof.
  split.
  - destruct (addPeer_port ps k) as (_ & Hfree & _).
    eexists _, _. split; [reflexivity |].
    unfold Peers.removePeer. simpl. rewrite lookup_insert_eq.
    rewrite delete_insert_id by exact Hfree. reflexivity.
  - intros q ps'' k' Hq Hrem. unfold Peers.removePeer in Hrem.
    destruct (ps !! q) eqn:E; [| discriminate]. injection Hrem as <-.
    destruct (addPeer_port (delete q ps) k') as (H1 & _ & Hbelow).
    eexists _, _. split; [reflexivity |]. simpl. split; [exact H1 |].
    destruct (Z.le_gt_cases (Peers.free_port (S (size (delete q ps))) 1 (delete q ps)) q)
      as [Hle | Hgt]; [exact Hle |].
    destruct (Hbelow q) as [x Hx]; [lia |]. by rewrite lookup_delete_eq in Hx.
Qed.

(** [treeInfo.decode] inverts [treeInfo.encode] on well-formed infos, and
    fails on data shorter than a root and a sequence number (40 bytes). *)
Theorem treeInfo_codec (info : DHTree.treeInfo) (data : list Z) :
  (DHTree.info_wf info -> DHTree.decode (DHTree.encode info []) = Some info) /\
  ((length data < 40)%nat -> DHTree.decode data = None).
Proof. split; [apply tree_decode_encode | apply tree_decode_short]. Qed.

(** [sendTree] and [handleTree] fit together: if a node's info is its
    own root info (no hops) or has valid signatures, then the info it
    extends with [add] toward a peer [nkey] and encodes is accepted by
    [handleTree] at [nkey] on the link from the node, unchanged. The
    extended info ends at [nkey] and comes from the node. *)
Theorem sendTree_handleTree (sign : publicKey -> list Z -> list Z)
    (verify : publicKey -> list Z -> list Z -> bool) (info : DHTree.treeInfo)
    (nkey : publicKey) (nport : Z) :
  (forall k bs, verify k bs (sign k bs) = true) ->
  (forall k bs, length (sign k bs) = signatureSize) ->
  DHTree.info_wf info ->
  DHTree.checkSigs verify info = true \/ DHTree.hops info = [] ->
  length nkey = publicKeySize -> u64 nport ->
  let info' := DHTree.add sign (DHTree.dest info) info nkey nport in
  DHTree.handleTree verify nkey (DHTree.dest info) (DHTree.encode info' []) = Some info' /\
  DHTree.dest info' = nkey /\ DHTree.from info' = DHTree.dest info.
Proof.
  intros Hsv Hsl (Hr & Hs & Hh) Hpre Hk Hp info'.
  destruct (tree_add_shape sign info nkey nport) as [Hdest Hfrom]. fold info' in Hdest, Hfrom.
  split; [| split; [exact Hdest | exact Hfrom]].
  assert (Hwf : DHTree.info_wf info').
  { split; [exact Hr | split; [exact Hs |]]. simpl. apply Forall_app. split; [exact Hh |].
    apply List.Forall_cons; [| apply List.Forall_nil]. split; [exact Hk | split; [exact Hp |]]. apply Hsl. }
  unfold DHTree.handleTree. rewrite tree_decode_encode by exact Hwf.
  assert (Hc : DHTree.checkSigs verify info' = true) by (apply tree_add_checkSigs; assumption).
  rewrite Hc. cbn [negb].
  rewrite bool_decide_eq_true_2 by (symmetry; exact Hfrom). cbn [negb].
  unfold info', DHTree.add. cbn [DHTree.hops]. rewrite last_snoc.
  rewrite bool_decide_eq_true_2 by reflexivity. reflexivity.
Qed.

(** [treeInfo.checkLoops] holds exactly when the keys along the info (the
    root, then each hop's key) are pairwise distinct. *)
Theorem checkLoops_nodup (info : DHTree.treeInfo) :
  DHTree.checkLoops info = true <-> NoDup (DHTree.root info :: map DHTree.next (DHTree.hops info)).
Proof.
  unfold DHTree.checkLoops. rewrite loops_from_spec. split; [intros [H _]; exact H |].
  intros H. split; [exact H |]. intros k _. apply not_elem_of_empty.
Qed.

(** [treeInfo.dist] to a label under another root is the largest [int];
    under the same root it is the tree distance between the hop ports
    and the label path: their lengths minus twice their common prefix.
    It is then non-negative, and zero exactly when the ports are the
    label path. *)
Theorem treeInfo_dist (info : DHTree.treeInfo) (lroot : publicKey) (lpath : list Z) :
  (DHTree.root info <> lroot -> DHTree.dist info lroot lpath = DHTree.maxInt) /\
  (DHTree.root info = lroot ->
     DHTree.dist info lroot lpath = path_dist (map DHTree.port (DHTree.hops info)) lpath /\
     (0 <= DHTree.dist info lroot lpath)%Z /\
     (DHTree.dist info lroot lpath = 0%Z <-> map DHTree.port (DHTree.hops info) = lpath)).
Proof.
  unfold DHTree.dist. split.
  - intros Hne. rewrite bool_decide_eq_false_2 by exact Hne. reflexivity.
  - intros Heq. rewrite bool_decide_eq_true_2 by exact Heq. cbn [negb].
    rewrite lca_spec.
    set (ports := map DHTree.port (DHTree.hops info)).
    assert (Hl : length ports = length (DHTree.hops info)) by apply length_map.
    pose proof (common_prefix_le ports lpath) as [Hc1 Hc2].
    assert (Hd : (let '(a, b) := if (Z.of_nat (length lpath) <? Z.of_nat (length (DHTree.hops info)))%Z
                                then (Z.of_nat (length lpath), Z.of_nat (length (DHTree.hops info)))
                                else (Z.of_nat (length (DHTree.hops info)), Z.of_nat (length lpath)) in
                  (a + b - 2 * (match common_prefix ports lpath with
                                | O => (-1)%Z | S n => (0 + Z.of_nat n)%Z end + 1))%Z) =
                 path_dist ports lpath).
    { unfold path_dist. rewrite Hl.
      destruct (Z.of_nat (length lpath) <? Z.of_nat (length (DHTree.hops info)))%Z;
        destruct (common_prefix ports lpath); lia. }
    rewrite Hd. split; [reflexivity |].
    unfold path_dist. split; [lia |]. split.
    + intros H0. apply common_prefix_full; lia.
    + intros <-. rewrite common_prefix_refl. lia.
Qed.

(** [dhtTraffic.decode] inverts [dhtTraffic.encode] on well-formed
    traffic (the payload is any byte string), and it fails exactly on
    data shorter than a watermark, two keys and a kind byte (105 bytes). *)
Theorem dhtTraffic_codec (t : DHTTraffic.dhtTraffic) (data : list Z) :
  (DHTTraffic.wf t -> DHTTraffic.decode (DHTTraffic.encode t []) = Some t) /\
  (DHTTraffic.decode data = None <-> (length data < 105)%nat).
Proof. split; [apply dht_decode_encode | apply dht_decode_length]. Qed.

(** Concrete peer links and tree infos. *)
Definition ex_msgs : list (list Z) := [[1; 5; 6]; [9]]%Z.

Definition ex_dispatch (t : Z) (body : list Z) : bool := true.

Lemma handler_reads_frames_witness :
  (forall m, In m ex_msgs -> (Z.of_nat (length m) <= 65535)%Z ->
     PeerLink.handlePacket ex_dispatch m = true) /\
  PeerLink.handler_loop (PeerLink.handlePacket ex_dispatch) (length (PeerLink.sent ex_msgs))
    (PeerLink.sent ex_msgs) = (ex_msgs, PeerLink.ReadError).
Proof.
  assert (Hh : forall m, In m ex_msgs -> (Z.of_nat (length m) <= 65535)%Z ->
                 PeerLink.handlePacket ex_dispatch m = true).
  { intros m Hm _. simpl in Hm. destruct Hm as [<- | [<- | []]]; reflexivity. }
  split; [exact Hh |].
  exact (proj1 (handler_reads_frames ex_dispatch ex_msgs Hh)).
Defined.

Definition ex_ops : list Peers.op := [Peers.AddPeer ex_self; Peers.AddPeer ex_other].

Definition ex_peer2 : Peers.peer := {| Peers.key := ex_other; Peers.port := 2 |}.

Lemma handlePath_forwards_witness :
  PeerLink.handlePath (Peers.run_ops ∅ ex_ops) [2; 9]%Z = (Some ex_peer2, [9%Z]) /\
  [2; 9]%Z = Peers.port ex_peer2 :: [9%Z].
Proof.
  assert (H : PeerLink.handlePath (Peers.run_ops ∅ ex_ops) [2; 9]%Z = (Some ex_peer2, [9%Z]))
    by (vm_compute; reflexivity).
  split; [exact H |].
  exact (proj1 (proj2 (handlePath_forwards ex_ops) [2; 9]%Z ex_peer2 [9%Z] H)).
Defined.

Definition ex_ps : gmap Z Peers.peer := Peers.run_ops ∅ ex_ops.

Lemma removePeer_addPeer_witness :
  (1 <= 1)%Z /\ Peers.removePeer ex_ps 1 = Some (delete 1%Z ex_ps) /\
  exists p' ps3, Peers.addPeer false (delete 1%Z ex_ps) ex_other = Some (p', ps3) /\
    (1 <= Peers.port p' <= 1)%Z.
Proof.
  assert (H1 : (1 <= 1)%Z) by lia.
  assert (H2 : Peers.removePeer ex_ps 1 = Some (delete 1%Z ex_ps)) by (vm_compute; reflexivity).
  split; [exact H1 | split; [exact H2 |]].
  exact (proj2 (removePeer_addPeer ex_ps ex_self) 1%Z (delete 1%Z ex_ps) ex_other H1 H2).
Defined.

(** A signature scheme that binds the signed bytes: [ex_tverify] accepts
    only the signature [ex_tsign] gives. *)
Definition ex_tsign (k : publicKey) (bs : list Z) : list Z :=
  take signatureSize (k ++ bs ++ repeat 0%Z signatureSize).

Definition ex_tverify (k : publicKey) (bs s : list Z) : bool := bool_decide (s = ex_tsign k bs).

Lemma ex_tsign_ok (k : publicKey) (bs : list Z) : ex_tverify k bs (ex_tsign k bs) = true.
Proof. unfold ex_tverify. apply bool_decide_eq_true_2. reflexivity. Qed.

Lemma ex_tsign_length (k : publicKey) (bs : list Z) : length (ex_tsign k bs) = signatureSize.
Proof. unfold ex_tsign. rewrite length_take, !length_app, repeat_length. lia. Qed.

(** The root info of [ex_other] (no hops), and an info with one hop. *)
Definition ex_root_info : DHTree.treeInfo :=
  {| DHTree.root := ex_other; DHTree.seq := 5; DHTree.hops := [] |}.

Definition ex_tinfo : DHTree.treeInfo :=
  {| DHTree.root := ex_other; DHTree.seq := 5;
     DHTree.hops := [{| DHTree.next := ex_self; DHTree.port := 300;
                        DHTree.sig := repeat 7%Z signatureSize |}] |}.

Lemma sendTree_handleTree_witness :
  DHTree.info_wf ex_root_info /\
  DHTree.handleTree ex_tverify ex_self ex_other
    (DHTree.encode (DHTree.add ex_tsign (DHTree.dest ex_root_info) ex_root_info ex_self 3) []) =
  Some (DHTree.add ex_tsign (DHTree.dest ex_root_info) ex_root_info ex_self 3).
Proof.
  assert (Hwf : DHTree.info_wf ex_root_info).
  { split; [reflexivity | split; [unfold u64; simpl; lia | apply List.Forall_nil]]. }
  assert (Hk : length ex_self = publicKeySize) by reflexivity.
  assert (Hp : u64 3) by (unfold u64; lia).
  split; [exact Hwf |].
  exact (proj1 (sendTree_handleTree ex_tsign ex_tverify ex_root_info ex_self 3
                  ex_tsign_ok ex_tsign_length Hwf (or_intror eq_refl) Hk Hp)).
Defined.

Lemma treeInfo_codec_witness :
  DHTree.info_wf ex_tinfo /\ DHTree.decode (DHTree.encode ex_tinfo []) = Some ex_tinfo /\
  (length [1; 2; 3]%Z < 40)%nat /\ DHTree.decode [1; 2; 3]%Z = None.
Proof.
  assert (Hwf : DHTree.info_wf ex_tinfo).
  { split; [reflexivity | split; [unfold u64; simpl; lia |]].
    apply List.Forall_cons; [| apply List.Forall_nil].
    split; [reflexivity | split; [unfold u64; simpl; lia | reflexivity]]. }
  assert (Hl : (length [1; 2; 3]%Z < 40)%nat) by (simpl; lia).
  split; [exact Hwf | split; [exact (proj1 (treeInfo_codec ex_tinfo [1; 2; 3]%Z) Hwf) |]].
  split; [exact Hl | exact (proj2 (treeInfo_codec ex_tinfo [1; 2; 3]%Z) Hl)].
Defined.

Lemma treeInfo_dist_witness :
  DHTree.root ex_tinfo = ex_other /\
  DHTree.dist ex_tinfo ex_other [300; 4]%Z = path_dist [300%Z] [300; 4]%Z /\
  DHTree.root ex_tinfo <> ex_self /\ DHTree.dist ex_tinfo ex_self [300%Z] = DHTree.maxInt.
Proof.
  assert (He : DHTree.root ex_tinfo = ex_other) by reflexivity.
  assert (Hn : DHTree.root ex_tinfo <> ex_self) by discriminate.
  split; [exact He | split; [exact (proj1 (proj2 (treeInfo_dist ex_tinfo ex_other [300; 4]%Z) He)) |]].
  split; [exact Hn | exact (proj1 (treeInfo_dist ex_tinfo ex_self [300%Z]) Hn)].
Defined.

Definition ex_dht_traffic : DHTTraffic.dhtTraffic :=
  {| DHTTraffic.mark := {| DHTTraffic.key := ex_self; DHTTraffic.seq := 2 ^ 64 - 1 |};
     DHTTraffic.base := {| DHTTraffic.source := ex_other; DHTTraffic.dest := ex_self;
                           DHTTraffic.kind := 1; DHTTraffic.payload := [4; 5]%Z |} |}.

Lemma dhtTraffic_codec_witness :
  DHTTraffic.wf ex_dht_traffic /\
  DHTTraffic.decode (DHTTraffic.encode ex_dht_traffic []) = Some ex_dht_traffic /\
  DHTTraffic.decode (repeat 0%Z 104) = None.
Proof.
  assert (Hwf : DHTTraffic.wf ex_dht_traffic).
  { split; [reflexivity | split; [unfold u64; simpl; lia | split; reflexivity]]. }
  split; [exact Hwf | split; [exact (proj1 (dhtTraffic_codec ex_dht_traffic []) Hwf) |]].
  apply (proj2 (proj2 (dhtTraffic_codec ex_dht_traffic (repeat 0%Z 104)))).
  rewrite repeat_length. lia.
Defined.

(* ------------------------------------------------------------------ *)
(** ** The legacy DHT lookup *)

Module DHTLookup.

(** The fields of a [dhtInfo] read by [_dhtLookup]: the key of its
    label, its [time] and its [sent] flag. *)
Record dhtInfo := { key : publicKey; time : Z; sent : bool }.

(** [dhtTIMEOUT = 2 * treeTIMEOUT], two hours in nanoseconds. *)
Definition dhtTIMEOUT : Z := (2 * 3600 * 1000000000)%Z.

(** [dhtOrdered], with [less] as [treeLess]. *)
Definition dhtOrdered (first second third : publicKey) : bool :=
  less first second && less second third.

(** One pass of the loop of [_dhtLookup] over [t.dinfos]: the pointers
    [lowest] and [bestInfo]; expired infos are skipped. *)
Definition lookup_step (now : Z) (dest : publicKey) (acc : option dhtInfo * option dhtInfo)
    (dinfo : dhtInfo) : option dhtInfo * option dhtInfo :=
  let '(lowest, best) := acc in
  if (now - time dinfo >? dhtTIMEOUT)%Z then acc else
  match best with
  | None =>
      let lowest' := match lowest with
                     | None => Some dinfo
                     | Some l => if less (key dinfo) (key l) then Some dinfo else lowest
                     end in
      (lowest', if less (key dinfo) dest then Some dinfo else None)
  | Some b => if dhtOrdered (key b) (key dinfo) dest then (lowest, Some dinfo) else acc
  end.

(** The info [_dhtLookup] picks; [vs] is the order in which the Go loop
    visits the values of [t.dinfos]. *)
Definition choose (dinfos : gmap publicKey dhtInfo) (vs : list dhtInfo) (now : Z)
    (dest : publicKey) : option dhtInfo :=
  match dinfos !! dest with
  | Some b => Some b
  | None =>
      let '(lowest, best) := fold_left (lookup_step now dest) vs (None, None) in
      match best with Some b => Some b | None => lowest end
  end.

(** [_dhtLookup]: the info returned, the new [t.dinfos] and the peers the
    bootstrap is sent to. An info not sent yet gets [sent = true] (the
    info is stored at its own key, as [_dhtAdd] stores it) and a
    bootstrap goes to every peer of [t.peers], given as one list of peer
    identities per key. *)
Definition dhtLookup_in (dinfos : gmap publicKey dhtInfo) (vs : list dhtInfo)
    (peers : list (publicKey * list nat)) (now : Z) (dest : publicKey)
    : option dhtInfo * gmap publicKey dhtInfo * list nat :=
  match choose dinfos vs now dest with
  | Some b =>
      if negb (sent b) then
        let b' := {| key := key b; time := time b; sent := true |} in
        (Some b', <[key b := b']> dinfos, concat (map snd peers))
      else (Some b, dinfos, [])
  | None => (None, dinfos, [])
  end.

End DHTLookup.

Section DHTLookupLemmas.

Definition live (now : Z) (i : DHTLookup.dhtInfo) : Prop :=
  (now - DHTLookup.time i <= DHTLookup.dhtTIMEOUT)%Z.

#[global] Instance live_dec (now : Z) (i : DHTLookup.dhtInfo) : Decision (live now i).
Proof. unfold live. apply _. Defined.

Definition dl_inv (dest : publicKey) (seen : list DHTLookup.dhtInfo)
    (acc : option DHTLookup.dhtInfo * option DHTLookup.dhtInfo) : Prop :=
  match snd acc with
  | None =>
      (forall i, i ∈ seen -> less (DHTLookup.key i) dest = false) /\
      match fst acc with
      | None => seen = []
      | Some l => l ∈ seen /\
          forall i, i ∈ seen -> DHTLookup.key i = DHTLookup.key l \/
                                less (DHTLookup.key l) (DHTLookup.key i) = true
      end
  | Some b => b ∈ seen /\ less (DHTLookup.key b) dest = true /\
      forall i, i ∈ seen -> less (DHTLookup.key i) dest = true ->
        DHTLookup.key i = DHTLookup.key b \/ less (DHTLookup.key i) (DHTLookup.key b) = true
  end.

Lemma dl_fold (now : Z) (dest : publicKey) (vs seen : list DHTLookup.dhtInfo) acc :
  (forall i, i ∈ seen ++ vs -> length (DHTLookup.key i) = length dest) ->
  dl_inv dest seen acc ->
  dl_inv dest (seen ++ filter (live now) vs) (fold_left (DHTLookup.lookup_step now dest) vs acc).
Proof.
  revert seen acc. induction vs as [| v vs IH]; intros seen acc Hlen Hinv; simpl.
  - rewrite app_nil_r. exact Hinv.
  - rewrite filter_cons.
    assert (Hv : length (DHTLookup.key v) = length dest) by (apply Hlen; set_solver).
    destruct acc as [lowest best]. unfold DHTLookup.lookup_step at 2.
    destruct (Z.gtb_spec (now - DHTLookup.time v) DHTLookup.dhtTIMEOUT) as [Hexp | Hlive].
    + rewrite decide_False by (unfold live; lia).
      apply IH; [intros i Hi; apply Hlen; set_solver | exact Hinv].
    + rewrite decide_True by (unfold live; lia).
      replace (seen ++ v :: filter (live now) vs) with ((seen ++ [v]) ++ filter (live now) vs)
        by (rewrite <- app_assoc; reflexivity).
      apply IH; [intros i Hi; apply Hlen; set_solver |].
      assert (Hin : v ∈ seen ++ [v]) by set_solver.
      assert (Hl : forall i, i ∈ seen -> length (DHTLookup.key i) = length (DHTLookup.key v))
        by (intros i Hi; rewrite Hv; apply Hlen; set_solver).
      unfold dl_inv in *. destruct best as [b |]; simpl in Hinv |- *.
      * destruct Hinv as (Hb & Hbd & Hmax). unfold DHTLookup.dhtOrdered.
        destruct (less (DHTLookup.key b) (DHTLookup.key v)) eqn:Ebv;
          destruct (less (DHTLookup.key v) dest) eqn:Evd; simpl.
        -- split; [exact Hin | split; [exact Evd |]]. intros i Hi Hid.
           apply elem_of_app in Hi as [Hi | Hi].
           ++ destruct (Hmax i Hi Hid) as [-> | Hib]; [right; exact Ebv |].
              right. exact (less_trans _ _ _ Hib Ebv).
           ++ apply list_elem_of_singleton in Hi. subst i. left; reflexivity.
        -- split; [set_solver | split; [exact Hbd |]]. intros i Hi Hid.
           apply elem_of_app in Hi as [Hi | Hi]; [auto |].
           apply list_elem_of_singleton in Hi. subst i. congruence.
        -- split; [set_solver | split; [exact Hbd |]]. intros i Hi Hid.
           apply elem_of_app in Hi as [Hi | Hi]; [auto |].
           apply list_elem_of_singleton in Hi. subst i.
           destruct (decide (DHTLookup.key v = DHTLookup.key b)) as [E | Hne]; [left; exact E |].
           destruct (less_total (DHTLookup.key v) (DHTLookup.key b)) as [H | H];
             [rewrite (Hl b Hb); reflexivity | exact Hne | right; exact H | congruence].
        -- split; [set_solver | split; [exact Hbd |]]. intros i Hi Hid.
           apply elem_of_app in Hi as [Hi | Hi]; [auto |].
           apply list_elem_of_singleton in Hi. subst i. congruence.
      * destruct Hinv as [Hnone Hlo].
        destruct (less (DHTLookup.key v) dest) eqn:Evd; simpl.
        -- split; [exact Hin | split; [exact Evd |]]. intros i Hi Hid.
           apply elem_of_app in Hi as [Hi | Hi]; [rewrite (Hnone i Hi) in Hid; discriminate |].
           apply list_elem_of_singleton in Hi. subst i. left; reflexivity.
        -- split.
           { intros i Hi. apply elem_of_app in Hi as [Hi | Hi]; [auto |].
             apply list_elem_of_singleton in Hi. subst i. exact Evd. }
           destruct lowest as [l |]; simpl in Hlo |- *.
           ++ destruct Hlo as [Hl0 Hmin].
              destruct (less (DHTLookup.key v) (DHTLookup.key l)) eqn:Evl; simpl.
              ** split; [exact Hin |]. intros i Hi. apply elem_of_app in Hi as [Hi | Hi].
                 --- destruct (Hmin i Hi) as [E | Hli]; [rewrite E; right; exact Evl |].
                     right. exact (less_trans _ _ _ Evl Hli).
                 --- apply list_elem_of_singleton in Hi. subst i. left; reflexivity.
              ** split; [set_solver |]. intros i Hi. apply elem_of_app in Hi as [Hi | Hi]; [auto |].
                 apply list_elem_of_singleton in Hi. subst i.
                 destruct (decide (DHTLookup.key v = DHTLookup.key l)) as [E | Hne]; [left; exact E |].
                 destruct (less_total (DHTLookup.key v) (DHTLookup.key l)) as [H | H];
                   [rewrite (Hl l Hl0); reflexivity | exact Hne | congruence | right; exact H].
           ++ subst seen. simpl. split; [set_solver |]. intros i Hi.
              apply list_elem_of_singleton in Hi. subst i. left; reflexivity.
Qed.

End DHTLookupLemmas.

(** [_dhtLookup] returns the info stored at [dest] if there is one.
    Otherwise, for 32-byte keys and any map iteration order, it skips the
    infos older than [dhtTIMEOUT] and returns nothing if all are; else the
    live info with the greatest key below [dest] if one exists, and the
    live info with the least key if none does. The info returned is
    marked sent in [t.dinfos], and the bootstrap goes to every peer only
    when it had not been sent before. *)
Theorem dhtLookup_closest (dinfos : gmap publicKey DHTLookup.dhtInfo) (vs : list DHTLookup.dhtInfo)
    (peers : list (publicKey * list nat)) (now : Z) (dest : publicKey) :
  (forall i, i ∈ vs <-> exists k, dinfos !! k = Some i) ->
  (forall k i, dinfos !! k = Some i -> DHTLookup.key i = k) ->
  length dest = publicKeySize -> (forall i, i ∈ vs -> length (DHTLookup.key i) = publicKeySize) ->
  let c := DHTLookup.choose dinfos vs now dest in
  let res := DHTLookup.dhtLookup_in dinfos vs peers now dest in
  (forall i, dinfos !! dest = Some i -> c = Some i) /\
  (dinfos !! dest = None ->
     (c = None <-> forall i, i ∈ vs -> ~ live now i) /\
     (forall b, c = Some b -> b ∈ vs /\ live now b) /\
     ((exists i, i ∈ vs /\ live now i /\ less (DHTLookup.key i) dest = true) ->
        exists b, c = Some b /\ less (DHTLookup.key b) dest = true /\
          forall i, i ∈ vs -> live now i -> less (DHTLookup.key i) dest = true ->
            DHTLookup.key i = DHTLookup.key b \/ less (DHTLookup.key i) (DHTLookup.key b) = true) /\
     ((forall i, i ∈ vs -> live now i -> less (DHTLookup.key i) dest = false) ->
        forall b, c = Some b -> forall i, i ∈ vs -> live now i ->
          DHTLookup.key i = DHTLookup.key b \/ less (DHTLookup.key b) (DHTLookup.key i) = true)) /\
  (c = None -> res = (None, dinfos, [])) /\
  (forall b, c = Some b ->
     fst (fst res) = Some {| DHTLookup.key := DHTLookup.key b; DHTLookup.time := DHTLookup.time b;
                            DHTLookup.sent := true |} /\
     snd (fst res) !! DHTLookup.key b = fst (fst res) /\
     snd res = if DHTLookup.sent b then [] else concat (map snd peers)).
Proof.
  intros Hvs Hkey Hd Hall c res.
  assert (Hlen : forall i, i ∈ [] ++ vs -> length (DHTLookup.key i) = length dest)
    by (intros i Hi; rewrite Hd; apply Hall; exact Hi).
  assert (H0 : dl_inv dest [] (None, None)) by (split; [intros i Hi; set_solver | reflexivity]).
  pose proof (dl_fold now dest vs [] (None, None) Hlen H0) as Hf. simpl in Hf.
  assert (Hc : dinfos !! dest = None ->
                 c = match fold_left (DHTLookup.lookup_step now dest) vs (None, None) with
                     | (lowest, Some b) => Some b | (lowest, None) => lowest end).
  { intros Hn. unfold c, DHTLookup.choose. rewrite Hn.
    destruct (fold_left _ vs _) as [? [?|]]; reflexivity. }
  split; [| split; [| split]].
  - intros i Hi. unfold c, DHTLookup.choose. rewrite Hi. reflexivity.
  - intros Hn. rewrite (Hc Hn). clear Hc.
    destruct (fold_left (DHTLookup.lookup_step now dest) vs (None, None)) as [lowest best].
    unfold dl_inv in Hf. simpl in Hf.
    assert (Hmem : forall i, i ∈ filter (live now) vs <-> i ∈ vs /\ live now i)
      by (intros i; rewrite list_elem_of_filter; tauto).
    destruct best as [b |].
    + destruct Hf as (Hb & Hbd & Hmax). apply Hmem in Hb as [Hbv Hbl].
      split; [| split; [| split]].
      * split; [discriminate |]. intros Hno. exfalso. exact (Hno b Hbv Hbl).
      * intros b' [= <-]. split; assumption.
      * intros _. exists b. split; [reflexivity | split; [exact Hbd |]].
        intros i Hi Hil Hid. apply Hmax; [apply Hmem; split |]; assumption.
      * intros Hnone. rewrite (Hnone b Hbv Hbl) in Hbd. discriminate.
    + destruct Hf as [Hnone Hlo].
      split; [| split; [| split]].
      * destruct lowest as [l |].
        -- split; [discriminate |]. intros Hno. exfalso. destruct Hlo as [Hl _].
           apply Hmem in Hl as [Hlv Hll]. exact (Hno l Hlv Hll).
        -- split; [| reflexivity]. intros _ i Hi Hil.
           assert (i ∈ filter (live now) vs) by (apply Hmem; split; assumption).
           rewrite Hlo in H. set_solver.
      * intros b Hb. subst lowest. destruct Hlo as [Hl _]. apply Hmem in Hl. exact Hl.
      * intros (i & Hi & Hil & Hid). rewrite (Hnone i ltac:(apply Hmem; split; assumption)) in Hid.
        discriminate.
      * intros _ b Hb i Hi Hil. subst lowest. destruct Hlo as [_ Hmin].
        apply Hmin. apply Hmem. split; assumption.
  - intros Hcn. unfold res, DHTLookup.dhtLookup_in. fold c. rewrite Hcn. reflexivity.
  - intros b Hcb. unfold res, DHTLookup.dhtLookup_in. fold c. rewrite Hcb.
    destruct (DHTLookup.sent b) eqn:Es; simpl.
    + assert (Hstored : dinfos !! DHTLookup.key b = Some b).
      { destruct (dinfos !! dest) as [i |] eqn:Ed.
        - unfold c, DHTLookup.choose in Hcb. rewrite Ed in Hcb. injection Hcb as <-.
          rewrite (Hkey dest i Ed). exact Ed.
        - assert (Hbv : b ∈ vs).
          { rewrite (Hc eq_refl) in Hcb.
            destruct (fold_left (DHTLookup.lookup_step now dest) vs (None, None)) as [lowest best].
            unfold dl_inv in Hf. simpl in Hf. destruct best as [b' |].
            - injection Hcb as <-. destruct Hf as (Hb & _). apply list_elem_of_filter in Hb. apply Hb.
            - subst lowest. destruct Hf as [_ [Hl _]]. apply list_elem_of_filter in Hl. apply Hl. }
          apply Hvs in Hbv as [k Hk]. rewrite (Hkey k b Hk). exact Hk. }
      destruct b as [bk bt bs]. simpl in Es |- *. subst bs.
      split; [reflexivity | split; [exact Hstored | reflexivity]].
    + split; [reflexivity | split; [apply lookup_insert_eq | reflexivity]].
Qed.

Lemma map_to_list_values {A} (m : gmap publicKey A) (x : A) :
  x ∈ map snd (map_to_list m) <-> exists k, m !! k = Some x.
Proof.
  change (map snd (map_to_list m)) with (snd <$> map_to_list m).
  rewrite list_elem_of_fmap. split.
  - intros [[k x'] [-> Hin]]. apply elem_of_map_to_list in Hin. exists k. exact Hin.
  - intros [k Hk]. exists (k, x). split; [reflexivity |]. by apply elem_of_map_to_list.
Qed.

(** Two DHT infos: [ex_self]'s is live, [ex_other]'s has expired. *)
Definition ex_now : Z := (10 ^ 13)%Z.

Definition ex_dinfo1 : DHTLookup.dhtInfo :=
  {| DHTLookup.key := ex_self; DHTLookup.time := (ex_now - 1000)%Z; DHTLookup.sent := false |}.
Definition ex_dinfo2 : DHTLookup.dhtInfo :=
  {| DHTLookup.key := ex_other; DHTLookup.time := 0%Z; DHTLookup.sent := false |}.

Definition ex_dinfos : gmap publicKey DHTLookup.dhtInfo :=
  <[ex_self := ex_dinfo1]> (<[ex_other := ex_dinfo2]> ∅).

Definition ex_dest3 : publicKey := repeat 3%Z publicKeySize.

Lemma ex_dinfos_cases (k : publicKey) (i : DHTLookup.dhtInfo) :
  ex_dinfos !! k = Some i -> (k = ex_self /\ i = ex_dinfo1) \/ (k = ex_other /\ i = ex_dinfo2).
Proof.
  unfold ex_dinfos. rewrite lookup_insert_Some. intros [[<- <-] | [_ H]]; [left; auto |].
  rewrite lookup_insert_Some in H. destruct H as [[<- <-] | [_ H]]; [right; auto |].
  by rewrite lookup_empty in H.
Qed.

Lemma dhtLookup_closest_witness :
  (forall i, i ∈ map snd (map_to_list ex_dinfos) <-> exists k, ex_dinfos !! k = Some i) /\
  (forall k i, ex_dinfos !! k = Some i -> DHTLookup.key i = k) /\
  length ex_dest3 = publicKeySize /\
  (forall i, i ∈ map snd (map_to_list ex_dinfos) -> length (DHTLookup.key i) = publicKeySize) /\
  DHTLookup.choose ex_dinfos (map snd (map_to_list ex_dinfos)) ex_now ex_dest3 = Some ex_dinfo1 /\
  fst (fst (DHTLookup.dhtLookup_in ex_dinfos (map snd (map_to_list ex_dinfos)) [(ex_other, [7%nat])]
              ex_now ex_dest3)) =
  Some {| DHTLookup.key := ex_self; DHTLookup.time := (ex_now - 1000)%Z; DHTLookup.sent := true |}.
Proof.
  assert (H1 : forall i, i ∈ map snd (map_to_list ex_dinfos) <-> exists k, ex_dinfos !! k = Some i)
    by (intros i; apply map_to_list_values).
  assert (H2 : forall k i, ex_dinfos !! k = Some i -> DHTLookup.key i = k).
  { intros k i Hk. destruct (ex_dinfos_cases k i Hk) as [[-> ->] | [-> ->]]; reflexivity. }
  assert (H3 : length ex_dest3 = publicKeySize) by reflexivity.
  assert (H4 : forall i, i ∈ map snd (map_to_list ex_dinfos) -> length (DHTLookup.key i) = publicKeySize).
  { intros i Hi. apply H1 in Hi as [k Hk].
    destruct (ex_dinfos_cases k i Hk) as [[_ ->] | [_ ->]]; reflexivity. }
  assert (Hc : DHTLookup.choose ex_dinfos (map snd (map_to_list ex_dinfos)) ex_now ex_dest3 = Some ex_dinfo1)
    by (vm_compute; reflexivity).
  split; [exact H1 | split; [exact H2 | split; [exact H3 | split; [exact H4 | split; [exact Hc |]]]]].
  exact (proj1 (proj2 (proj2 (proj2 (dhtLookup_closest ex_dinfos (map snd (map_to_list ex_dinfos))
           [(ex_other, [7%nat])] ex_now ex_dest3 H1 H2 H3 H4))) ex_dinfo1 Hc)).
Defined.

(* ------------------------------------------------------------------ *)
(** ** The legacy tree lookup *)

Module TreeLookup.

(** The fields of a [treeLabel] read by [_treeLookup]. *)
Record treeLabel := { key : publicKey; root : publicKey; rootSeq : Z; path : list Z }.

(** A stored info with its [time]. *)
Definition timedInfo := (DHTree.treeInfo * Z)%type.

(** The copy [tmp] of [_treeLookup] without its last hop; [None] is the
    slice-bounds panic of an info without hops. *)
Definition truncate (info : DHTree.treeInfo) : option DHTree.treeInfo :=
  match DHTree.hops info with
  | [] => None
  | hs => Some {| DHTree.root := DHTree.root info; DHTree.seq := DHTree.seq info;
                  DHTree.hops := take (length hs - 1) hs |}
  end.

(** The [switch] of [_treeLookup] deciding [isBetter]. *)
Definition isBetter (dist distCut bestDist : Z) (info best : timedInfo) : bool :=
  if (dist >=? distCut)%Z then false
  else if (dist <? bestDist)%Z then true
  else if (dist >? bestDist)%Z then false
  else if (snd info <? snd best)%Z then true
  else if (snd best <? snd info)%Z then false
  else less (DHTree.from (fst info)) (DHTree.from (fst best)).

(** One pass of the loop over [t.tinfos]; the state is [best],
    [bestDist] and [bestPeer], and [None] is a panic. *)
Definition lookup_step (dest : treeLabel) (distCut : Z)
    (acc : option (timedInfo * Z * option nat)) (entry : nat * timedInfo)
    : option (timedInfo * Z * option nat) :=
  match acc with
  | None => None
  | Some (best, bestDist, bestPeer) =>
      let '(p, info) := entry in
      if negb (bool_decide (DHTree.root (fst info) = root dest)) ||
         negb (DHTree.seq (fst info) =? rootSeq dest)%Z
      then acc
      else match truncate (fst info) with
           | None => None
           | Some tmp =>
               let dist := DHTree.dist tmp (root dest) (path dest) in
               if isBetter dist distCut bestDist info best
               then Some (info, dist, Some p)
               else acc
           end
  end.

(** [_treeLookup] at the node [selfKey] with info [self]; [tinfos] is
    [t.tinfos] in the order the Go loop visits it. [None] is a panic,
    [Some None] the [nil] peer. *)
Definition treeLookup (selfKey : publicKey) (self : timedInfo) (tinfos : list (nat * timedInfo))
    (dest : treeLabel) : option (option nat) :=
  if bool_decide (selfKey = key dest) then Some None else
  let bestDist := DHTree.dist (fst self) (root dest) (path dest) in
  match fold_left (lookup_step dest bestDist) tinfos (Some (self, bestDist, None)) with
  | None => None
  | Some (best, _, bestPeer) =>
      if negb (bool_decide (DHTree.root (fst best) = root dest)) ||
         negb (DHTree.seq (fst best) =? rootSeq dest)%Z
      then Some None
      else Some bestPeer
  end.

End TreeLookup.

Section TreeLookupLemmas.

Variable tinfos : list (nat * TreeLookup.timedInfo).
Variable dest : TreeLookup.treeLabel.
Variable self : TreeLookup.timedInfo.
Variable distCut : Z.

Definition tl_match (i : TreeLookup.timedInfo) : Prop :=
  DHTree.root (fst i) = TreeLookup.root dest /\ DHTree.seq (fst i) = TreeLookup.rootSeq dest.

Definition tl_dist (tmp : DHTree.treeInfo) : Z :=
  DHTree.dist tmp (TreeLookup.root dest) (TreeLookup.path dest).

Definition tl_inv (seen : list (nat * TreeLookup.timedInfo))
    (acc : option (TreeLookup.timedInfo * Z * option nat)) : Prop :=
  match acc with
  | None => False
  | Some (best, bd, bp) =>
      ((bp = None /\ best = self /\ bd = distCut) \/
       (exists p tmp, bp = Some p /\ In (p, best) tinfos /\ tl_match best /\
          TreeLookup.truncate (fst best) = Some tmp /\ bd = tl_dist tmp /\ (bd < distCut)%Z)) /\
      (forall q i tmp, In (q, i) seen -> tl_match i -> TreeLookup.truncate (fst i) = Some tmp ->
         (bd <= tl_dist tmp)%Z)
  end.

Lemma isBetter_true d bd i b :
  TreeLookup.isBetter d distCut bd i b = true -> (d < distCut)%Z /\ (d <= bd)%Z.
Proof.
  unfold TreeLookup.isBetter.
  destruct (Z.geb_spec d distCut); [discriminate |].
  destruct (Z.ltb_spec d bd); [intros _; lia |].
  destruct (Z.gtb_spec d bd); [discriminate |]. intros _. lia.
Qed.

Lemma isBetter_false d bd i b :
  TreeLookup.isBetter d distCut bd i b = false -> (distCut <= d)%Z \/ (bd <= d)%Z.
Proof.
  unfold TreeLookup.isBetter.
  destruct (Z.geb_spec d distCut); [intros _; lia |].
  destruct (Z.ltb_spec d bd); [discriminate |]. intros _. lia.
Qed.

Lemma tl_fold (es seen : list (nat * TreeLookup.timedInfo)) acc :
  (forall e, In e (seen ++ es) -> In e tinfos) ->
  (forall p i, In (p, i) tinfos -> tl_match i -> DHTree.hops (fst i) <> []) ->
  tl_inv seen acc ->
  tl_inv (seen ++ es) (fold_left (TreeLookup.lookup_step dest distCut) es acc).
Proof.
  revert seen acc. induction es as [| [p i] es IH]; intros seen acc Hin Hne Hinv; simpl.
  - rewrite app_nil_r. exact Hinv.
  - replace (seen ++ (p, i) :: es) with ((seen ++ [(p, i)]) ++ es) in *
      by (rewrite <- app_assoc; reflexivity).
    apply IH; [exact Hin | exact Hne |].
    assert (Hpi : In (p, i) tinfos) by (apply Hin; apply in_or_app; left; apply in_or_app; right; left; reflexivity).
    destruct acc as [[[best bd] bp] |]; [| destruct Hinv].
    destruct Hinv as [Hb Hseen].
    assert (Hbd : (bd <= distCut)%Z) by (destruct Hb as [(_ & _ & ->) | (? & ? & _ & _ & _ & _ & _ & ?)]; lia).
    assert (Hnew : forall q i' tmp, In (q, i') (seen ++ [(p, i)]) -> tl_match i' ->
                     TreeLookup.truncate (fst i') = Some tmp ->
                     (q, i') = (p, i) \/ In (q, i') seen).
    { intros q i' tmp Hq _ _. apply in_app_or in Hq as [Hq | [Hq | []]]; [right; exact Hq | left; symmetry; exact Hq]. }
    unfold TreeLookup.lookup_step.
    destruct (bool_decide (DHTree.root (fst i) = TreeLookup.root dest)) eqn:Er;
      [apply bool_decide_eq_true_1 in Er | apply bool_decide_eq_false_1 in Er];
      destruct (Z.eqb_spec (DHTree.seq (fst i)) (TreeLookup.rootSeq dest)) as [Es | Es]; simpl.
    2, 3, 4:
      (split; [exact Hb |]; intros q i' tmp Hq Hm Ht;
       destruct (Hnew q i' tmp Hq Hm Ht) as [[= <- <-] | Hq']; [destruct Hm; contradiction | exact (Hseen q i' tmp Hq' Hm Ht)]).
    assert (Hm : tl_match i) by (split; assumption).
    destruct (TreeLookup.truncate (fst i)) as [tmp |] eqn:Et.
    2: { exfalso. apply (Hne p i Hpi Hm). unfold TreeLookup.truncate in Et.
         destruct (DHTree.hops (fst i)); [reflexivity | discriminate]. }
    destruct (TreeLookup.isBetter (tl_dist tmp) distCut bd i best) eqn:Eb;
      fold (tl_dist tmp); rewrite Eb; simpl.
    + destruct (isBetter_true _ _ _ _ Eb) as [Hlt Hle]. split.
      * right. exists p, tmp. repeat split; auto; lia.
      * intros q i' tmp' Hq Hm' Ht'. destruct (Hnew q i' tmp' Hq Hm' Ht') as [[= <- <-] | Hq'].
        -- rewrite Et in Ht'. injection Ht' as <-. lia.
        -- pose proof (Hseen q i' tmp' Hq' Hm' Ht'). lia.
    + split; [exact Hb |].
      intros q i' tmp' Hq Hm' Ht'. destruct (Hnew q i' tmp' Hq Hm' Ht') as [[= <- <-] | Hq'].
      * rewrite Et in Ht'. injection Ht' as <-. destruct (isBetter_false _ _ _ _ Eb); lia.
      * exact (Hseen q i' tmp' Hq' Hm' Ht').
Qed.

End TreeLookupLemmas.

(** [_treeLookup] returns [nil] for a label of the node itself. Otherwise,
    when every stored info under the label's root and root seq has a hop
    (as [handleTree] guarantees), it never panics, and with any map
    iteration order either it returns [nil] and no such info, without its
    last hop, is closer to the label than the node's own info, or it
    returns a peer whose such info is strictly closer than the node's own
    and at least as close as every other one. *)
Theorem treeLookup_closest (selfKey : publicKey) (self : TreeLookup.timedInfo)
    (tinfos : list (nat * TreeLookup.timedInfo)) (dest : TreeLookup.treeLabel) :
  (forall p i, In (p, i) tinfos -> tl_match dest i -> DHTree.hops (fst i) <> []) ->
  let sd := tl_dist dest (fst self) in
  let cand q i tmp := In (q, i) tinfos /\ tl_match dest i /\ TreeLookup.truncate (fst i) = Some tmp in
  (selfKey = TreeLookup.key dest -> TreeLookup.treeLookup selfKey self tinfos dest = Some None) /\
  (selfKey <> TreeLookup.key dest ->
     (TreeLookup.treeLookup selfKey self tinfos dest = Some None /\
      forall q i tmp, cand q i tmp -> (sd <= tl_dist dest tmp)%Z) \/
     (exists p i tmp, TreeLookup.treeLookup selfKey self tinfos dest = Some (Some p) /\
        cand p i tmp /\ (tl_dist dest tmp < sd)%Z /\
        forall q i' tmp', cand q i' tmp' -> (tl_dist dest tmp <= tl_dist dest tmp')%Z)).
Proof.
  intros Hne sd cand. unfold TreeLookup.treeLookup. split.
  { intros Hk. rewrite bool_decide_eq_true_2 by exact Hk. reflexivity. }
  intros Hk. rewrite bool_decide_eq_false_2 by exact Hk.
  assert (H0 : tl_inv tinfos dest self sd [] (Some (self, sd, None))).
  { split; [left; auto | intros q i tmp []]. }
  pose proof (tl_fold tinfos dest self sd tinfos [] _ (fun e H => H) Hne H0) as Hf. simpl in Hf.
  change (DHTree.dist (fst self) (TreeLookup.root dest) (TreeLookup.path dest)) with sd.
  destruct (fold_left (TreeLookup.lookup_step dest sd) tinfos (Some (self, sd, None)))
    as [[[best bd] bp] |]; [| destruct Hf].
  destruct Hf as [Hb Hseen].
  destruct Hb as [(-> & -> & ->) | (p & tmp & -> & Hin & [Hr Hs] & Ht & -> & Hlt)].
  - left. split.
    + destruct (negb _ || negb _); reflexivity.
    + intros q i tmp (Hq & Hm & Ht). exact (Hseen q i tmp Hq Hm Ht).
  - right. exists p, best, tmp.
    rewrite bool_decide_eq_true_2 by exact Hr. rewrite Hs, Z.eqb_refl. simpl.
    split; [reflexivity | split; [split; [exact Hin | split; [split; assumption | exact Ht]] | split; [exact Hlt |]]].
    intros q i' tmp' (Hq & Hm & Ht'). exact (Hseen q i' tmp' Hq Hm Ht').
Qed.

(** A node [ex_self] one hop under the root [ex_other] (port 1), and a
    peer 7 whose info, without its last hop, sits at port 2. *)
Definition ex_hop (k : publicKey) (p : Z) : DHTree.treeHop :=
  {| DHTree.next := k; DHTree.port := p; DHTree.sig := repeat 0%Z signatureSize |}.

Definition ex_tself : TreeLookup.timedInfo :=
  ({| DHTree.root := ex_other; DHTree.seq := 5; DHTree.hops := [ex_hop ex_self 1] |}, 0%Z).

Definition ex_tinfos : list (nat * TreeLookup.timedInfo) :=
  [(7%nat, ({| DHTree.root := ex_other; DHTree.seq := 5;
               DHTree.hops := [ex_hop ex_dest3 2; ex_hop ex_self 9] |}, 0%Z))].

Definition ex_label : TreeLookup.treeLabel :=
  {| TreeLookup.key := repeat 4%Z publicKeySize; TreeLookup.root := ex_other;
     TreeLookup.rootSeq := 5; TreeLookup.path := [2; 0]%Z |}.

Lemma treeLookup_closest_witness :
  (forall p i, In (p, i) ex_tinfos -> tl_match ex_label i -> DHTree.hops (fst i) <> []) /\
  ex_self <> TreeLookup.key ex_label /\
  TreeLookup.treeLookup ex_self ex_tself ex_tinfos ex_label = Some (Some 7%nat).
Proof.
  assert (Hne : forall p i, In (p, i) ex_tinfos -> tl_match ex_label i -> DHTree.hops (fst i) <> []).
  { intros p i [[= <- <-] | []] _. discriminate. }
  assert (Hk : ex_self <> TreeLookup.key ex_label) by discriminate.
  split; [exact Hne | split; [exact Hk |]].
  destruct (proj2 (treeLookup_closest ex_self ex_tself ex_tinfos ex_label Hne) Hk) as [[Hn _] | _].
  - exfalso. vm_compute in Hn. discriminate.
  - vm_compute. reflexivity.
Defined.

(* ------------------------------------------------------------------ *)
(** ** The legacy DHT store: [_dhtAdd], [_addBootstrapPath], [_getLabel] *)

Module DHTStore.

(** [treeLabel]; [sig] is the signature over [bytesForSig]. *)
Record treeLabel := { sig : list Z; key : publicKey; root : publicKey;
                      rootSeq : Z; seq : Z; path : list Z }.

(** [dhtInfo]: its [dhtBootstrap], which is a label, its [time] and its
    [sent] flag; its [timer] is kept in [timers] below. *)
Record dhtInfo := { label : treeLabel; time : Z; sent : bool }.

(** The part of [dhtree] these functions use. A pointer to a [dhtInfo]
    is a number: [dinfos] maps a key to the pointer and the info,
    [timers] lists the cleanup timers started and not stopped, as the
    pointer of their info and the key of that info, and [heap] is the
    next fresh pointer. *)
Record dhtree := { dinfos : gmap publicKey (nat * dhtInfo);
                   timers : list (nat * publicKey); heap : nat }.

(** [t.dinfos[info.key] = info] followed by the [time.AfterFunc] of the
    cleanup timer. *)
Definition store (t : dhtree) (ptr : nat) (info : dhtInfo) : dhtree :=
  {| dinfos := <[key (label info) := (ptr, info)]> (dinfos t);
     timers := (ptr, key (label info)) :: timers t; heap := heap t |}.

(** [_dhtAdd] of the info at pointer [ptr]: a stored info with a lower
    seq is replaced (its timer stopped), any other stored info wins. *)
Definition dhtAdd (t : dhtree) (ptr : nat) (info : dhtInfo) : bool * dhtree :=
  match dinfos t !! key (label info) with
  | Some (p0, dinfo) =>
      if (seq (label dinfo) <? seq (label info))%Z then
        let t' := {| dinfos := delete (key (label dinfo)) (dinfos t);
                     timers := List.filter (fun tm => negb (Nat.eqb (fst tm) p0)) (timers t);
                     heap := heap t |} in
        (true, store t' ptr info)
      else (false, t)
  | None => (true, store t ptr info)
  end.

(** The closure run by the cleanup timer of the info at [ptr] with key
    [k]: the entry at [k] is deleted only if it is still that info. *)
Definition cleanup (t : dhtree) (ptr : nat) (k : publicKey) : dhtree :=
  match dinfos t !! k with
  | Some (p, nfo) =>
      if Nat.eqb p ptr
      then {| dinfos := delete (key (label nfo)) (dinfos t); timers := timers t; heap := heap t |}
      else t
  | None => t
  end.

(** [_addBootstrapPath] at time [now]: a fresh [dhtInfo] is allocated
    and handed to [_dhtAdd]; the result is its pointer or [nil]. *)
Definition addBootstrapPath (t : dhtree) (bootstrap : treeLabel) (now : Z) : option nat * dhtree :=
  let ptr := heap t in
  let t0 := {| dinfos := dinfos t; timers := timers t; heap := S ptr |} in
  let '(ok, t') := dhtAdd t0 ptr {| label := bootstrap; time := now; sent := false |} in
  if ok then (Some ptr, t') else (None, t').

(** [_getLabel] at the node [self] whose info is [tself], with the
    counter [t.seq]: the label and the new counter ([t.seq++] on a
    [uint64]). [sign root rootSeq seq path] is the signature of the node
    over [bytesForSig] of a label with these fields (the [wireEncodePath]
    it uses is not in the repository). *)
Definition getLabel (sign : publicKey -> Z -> Z -> list Z -> list Z) (self : publicKey)
    (tself : DHTree.treeInfo) (tseq : Z) : treeLabel * Z :=
  let tseq' := ((tseq + 1) mod 2 ^ 64)%Z in
  let p := map DHTree.port (DHTree.hops tself) ++ [0%Z] in
  ({| sig := sign (DHTree.root tself) (DHTree.seq tself) tseq' p; key := self;
      root := DHTree.root tself; rootSeq := DHTree.seq tself; seq := tseq'; path := p |}, tseq').

(** [t.peers] as one list of peer identities per key, in the order of
    the Go loops; [flood] are the peers other than [prev] that the loops
    of [_handleBootstrap] send to. *)
Definition flood (peers : list (publicKey * list nat)) (prev : option nat) : list nat :=
  List.filter (fun p => negb (bool_decide (Some p = prev))) (concat (map snd peers)).

(** [dinfo.sent = true] on the info at pointer [ptr], stored at [k]. *)
Definition mark_sent (t : dhtree) (k : publicKey) (ptr : nat) : dhtree :=
  match dinfos t !! k with
  | Some (p, i) =>
      if Nat.eqb p ptr
      then {| dinfos := <[k := (p, {| label := label i; time := time i; sent := true |})]> (dinfos t);
              timers := timers t; heap := heap t |}
      else t
  | None => t
  end.

(** [time.Second] in nanoseconds. *)
Definition second : Z := 1000000000%Z.

(** [_handleBootstrap] from the peer [prev] ([None] for [nil]) at time
    [now]: the new store, the bootstraps sent, as peer and label, and the
    closure scheduled one second later, as the key and peer it captures. *)
Definition handleBootstrap (t : dhtree) (prev : option nat) (bootstrap : treeLabel) (now : Z)
    (peers : list (publicKey * list nat))
    : dhtree * list (nat * treeLabel) * option (publicKey * option nat) :=
  let ptr := heap t in
  let t0 := {| dinfos := dinfos t; timers := timers t; heap := S ptr |} in
  let oldInfo := dinfos t !! key bootstrap in
  match dhtAdd t0 ptr {| label := bootstrap; time := now; sent := false |} with
  | (false, t1) => (t1, [], None)
  | (true, t1) =>
      match oldInfo with
      | Some (_, o) =>
          if (now - time o >? second)%Z
          then (mark_sent t1 (key bootstrap) ptr, map (fun p => (p, bootstrap)) (flood peers prev), None)
          else (t1, [], Some (key bootstrap, prev))
      | None => (t1, [], Some (key bootstrap, prev))
      end
  end.

(** The closure [_handleBootstrap] schedules, capturing the key [k] and
    the peer [prev]: the info then stored at [k], if not sent yet, is
    marked sent and its bootstrap goes to every peer but [prev]. *)
Definition delayed (t : dhtree) (k : publicKey) (prev : option nat)
    (peers : list (publicKey * list nat)) : dhtree * list (nat * treeLabel) :=
  match dinfos t !! k with
  | Some (p, dfo) =>
      if negb (sent dfo)
      then ({| dinfos := <[k := (p, {| label := label dfo; time := time dfo; sent := true |})]> (dinfos t);
               timers := timers t; heap := heap t |},
            map (fun q => (q, label dfo)) (flood peers prev))
      else (t, [])
  | None => (t, [])
  end.

(** Every stored info sits at its own key, and every pointer in use,
    stored or held by a timer, is below [heap]. *)
Definition inv (t : dhtree) : Prop :=
  (forall k p d, dinfos t !! k = Some (p, d) -> key (label d) = k /\ (p < heap t)%nat) /\
  (forall p k, In (p, k) (timers t) -> (p < heap t)%nat).

End DHTStore.

Section DHTStoreLemmas.

Lemma store_inv (t : DHTStore.dhtree) (ptr : nat) (info : DHTStore.dhtInfo) :
  DHTStore.inv t -> (ptr < DHTStore.heap t)%nat -> DHTStore.inv (DHTStore.store t ptr info).
Proof.
  intros [Hd Ht] Hp. split; simpl.
  - intros k p d Hk. apply lookup_insert_Some in Hk as [[<- [= <- <-]] | [_ Hk]].
    + split; [reflexivity | exact Hp].
    + exact (Hd k p d Hk).
  - intros p k [[= <- _] | Hk]; [exact Hp | exact (Ht p k Hk)].
Qed.

Lemma cleanup_keeps (t : DHTStore.dhtree) (kb : publicKey) (ptr q : nat) (i : DHTStore.dhtInfo) (k : publicKey) :
  (forall k p d, DHTStore.dinfos t !! k = Some (p, d) -> DHTStore.key (DHTStore.label d) = k) ->
  DHTStore.dinfos t !! kb = Some (ptr, i) -> q <> ptr ->
  DHTStore.dinfos (DHTStore.cleanup t q k) !! kb = Some (ptr, i).
Proof.
  intros Hk Hb Hq. unfold DHTStore.cleanup.
  destruct (DHTStore.dinfos t !! k) as [[p nfo] |] eqn:Ek; [| exact Hb].
  destruct (Nat.eqb_spec p q) as [-> | _]; [| exact Hb]. simpl.
  rewrite (Hk k q nfo Ek).
  destruct (decide (k = kb)) as [-> | Hne].
  - rewrite Hb in Ek. injection Ek as -> _. contradiction.
  - rewrite lookup_delete_ne by congruence. exact Hb.
Qed.

Lemma cleanup_self (t : DHTStore.dhtree) (kb : publicKey) (ptr : nat) (i : DHTStore.dhtInfo) :
  DHTStore.key (DHTStore.label i) = kb -> DHTStore.dinfos t !! kb = Some (ptr, i) ->
  DHTStore.dinfos (DHTStore.cleanup t ptr kb) !! kb = None.
Proof.
  intros Hk Hb. unfold DHTStore.cleanup. rewrite Hb, Nat.eqb_refl. simpl.
  rewrite Hk. apply lookup_delete_eq.
Qed.

(** The common ports of an info and of a path that starts with its
    ports: [lca] ends at the last hop. *)
Lemma lca_prefix (hs : list DHTree.treeHop) (r : list Z) (l i : Z) :
  DHTree.lca hs (map DHTree.port hs ++ r) l i =
  match hs with [] => l | _ => (i + Z.of_nat (length hs) - 1)%Z end.
Proof.
  revert l i. induction hs as [| h hs IH]; intros l i; [reflexivity |].
  simpl. rewrite Z.eqb_refl. simpl. rewrite IH.
  destruct hs; simpl; lia.
Qed.

Lemma dist_label (info : DHTree.treeInfo) :
  DHTree.dist info (DHTree.root info) (map DHTree.port (DHTree.hops info) ++ [0%Z]) = 1%Z.
Proof.
  unfold DHTree.dist. rewrite bool_decide_eq_true_2 by reflexivity. simpl.
  rewrite lca_prefix, length_app, length_map. simpl.
  destruct (Z.ltb_spec (Z.of_nat (length (DHTree.hops info) + 1)) (Z.of_nat (length (DHTree.hops info)))); [lia |].
  destruct (DHTree.hops info); simpl; lia.
Qed.

End DHTStoreLemmas.

(** [_addBootstrapPath], through [_dhtAdd], keeps the store invariant
    (infos at their own key, pointers below the next fresh one). It
    returns [nil] and leaves [t.dinfos] as it was exactly when an info
    with an equal or higher seq is stored at the bootstrap's key.
    Otherwise it stores the new info at that key, touching no other key,
    and the cleanup timer of no earlier info (stopped or not) deletes it,
    while its own cleanup timer does. *)
Theorem dhtAdd_cleanup (t : DHTStore.dhtree) (b : DHTStore.treeLabel) (now : Z)
    (r : option nat) (t' : DHTStore.dhtree) :
  DHTStore.inv t -> DHTStore.addBootstrapPath t b now = (r, t') ->
  let kb := DHTStore.key b in
  DHTStore.inv t' /\ DHTStore.heap t' = S (DHTStore.heap t) /\
  (forall k, k <> kb -> DHTStore.dinfos t' !! k = DHTStore.dinfos t !! k) /\
  match r with
  | None =>
      DHTStore.dinfos t' = DHTStore.dinfos t /\
      exists p d, DHTStore.dinfos t !! kb = Some (p, d) /\
                  (DHTStore.seq b <= DHTStore.seq (DHTStore.label d))%Z
  | Some ptr =>
      ptr = DHTStore.heap t /\
      DHTStore.dinfos t' !! kb = Some (ptr, {| DHTStore.label := b; DHTStore.time := now; DHTStore.sent := false |}) /\
      (forall p d, DHTStore.dinfos t !! kb = Some (p, d) ->
         (DHTStore.seq (DHTStore.label d) < DHTStore.seq b)%Z) /\
      (forall q k, In (q, k) (DHTStore.timers t) ->
         DHTStore.dinfos (DHTStore.cleanup t' q k) !! kb = DHTStore.dinfos t' !! kb) /\
      DHTStore.dinfos (DHTStore.cleanup t' ptr kb) !! kb = None
  end.
Proof.
  intros [Hd Ht] Hadd kb.
  set (info := {| DHTStore.label := b; DHTStore.time := now; DHTStore.sent := false |}).
  assert (Hinv0 : DHTStore.inv {| DHTStore.dinfos := DHTStore.dinfos t; DHTStore.timers := DHTStore.timers t;
                                  DHTStore.heap := S (DHTStore.heap t) |}).
  { split; simpl.
    - intros k p d Hk. destruct (Hd k p d Hk). split; [assumption | lia].
    - intros p k Hk. pose proof (Ht p k Hk). lia. }
  (* the facts about a successful store, shared by the two cases *)
  assert (Hsome : forall t1 : DHTStore.dhtree,
    DHTStore.inv t1 -> DHTStore.heap t1 = S (DHTStore.heap t) ->
    (forall k, k <> kb -> DHTStore.dinfos t1 !! k = DHTStore.dinfos t !! k) ->
    (forall p d, DHTStore.dinfos t !! kb = Some (p, d) ->
       (DHTStore.seq (DHTStore.label d) < DHTStore.seq b)%Z) ->
    let t2 := DHTStore.store t1 (DHTStore.heap t) info in
    DHTStore.inv t2 /\ DHTStore.heap t2 = S (DHTStore.heap t) /\
    (forall k, k <> kb -> DHTStore.dinfos t2 !! k = DHTStore.dinfos t !! k) /\
    (DHTStore.heap t = DHTStore.heap t /\ DHTStore.dinfos t2 !! kb = Some (DHTStore.heap t, info) /\
     (forall p d, DHTStore.dinfos t !! kb = Some (p, d) ->
        (DHTStore.seq (DHTStore.label d) < DHTStore.seq b)%Z) /\
     (forall q k, In (q, k) (DHTStore.timers t) ->
        DHTStore.dinfos (DHTStore.cleanup t2 q k) !! kb = DHTStore.dinfos t2 !! kb) /\
     DHTStore.dinfos (DHTStore.cleanup t2 (DHTStore.heap t) kb) !! kb = None)).
  { intros t1 Hi1 Hh1 Ho1 Hlt t2. subst t2.
    assert (Hi' : DHTStore.inv (DHTStore.store t1 (DHTStore.heap t) info))
      by (apply store_inv; [exact Hi1 | rewrite Hh1; lia]).
    assert (Hat : DHTStore.dinfos (DHTStore.store t1 (DHTStore.heap t) info) !! kb
                  = Some (DHTStore.heap t, info)) by (apply lookup_insert_eq).
    split; [exact Hi' |]. split; [exact Hh1 |]. split.
    { intros k Hk. simpl. rewrite lookup_insert_ne by (intros E; apply Hk; symmetry; exact E). exact (Ho1 k Hk). }
    split; [reflexivity |]. split; [exact Hat |]. split; [exact Hlt |]. split.
    - intros q k Hq. rewrite Hat. apply cleanup_keeps; [intros k' p d H; exact (proj1 (proj1 Hi' k' p d H)) | exact Hat |].
      pose proof (Ht q k Hq). lia.
    - exact (cleanup_self _ kb _ info eq_refl Hat). }
  unfold DHTStore.addBootstrapPath, DHTStore.dhtAdd in Hadd. simpl in Hadd. fold info in Hadd.
  change (DHTStore.key b) with kb in Hadd.
  destruct (DHTStore.dinfos t !! kb) as [[p0 d] |] eqn:E.
  - destruct (Hd kb p0 d E) as [Hkd Hp0].
    destruct (Z.ltb_spec (DHTStore.seq (DHTStore.label d)) (DHTStore.seq b)) as [Hlt | Hge].
    + injection Hadd as <- <-.
      refine (Hsome {| DHTStore.dinfos := delete (DHTStore.key (DHTStore.label d)) (DHTStore.dinfos t);
                       DHTStore.timers := List.filter (fun tm => negb (Nat.eqb (fst tm) p0)) (DHTStore.timers t);
                       DHTStore.heap := S (DHTStore.heap t) |} _ eq_refl _ _).
      * split; simpl.
        -- intros k p d' Hk. destruct (decide (k = kb)) as [-> | Hne].
           ++ rewrite Hkd, lookup_delete_eq in Hk. discriminate.
           ++ rewrite Hkd, lookup_delete_ne in Hk by congruence. exact (proj1 Hinv0 k p d' Hk).
        -- intros p k Hk. apply filter_In in Hk as [Hk _]. exact (proj2 Hinv0 p k Hk).
      * intros k Hk. simpl. rewrite Hkd, lookup_delete_ne by congruence. reflexivity.
      * intros p d' Hpd. injection Hpd as _ <-. exact Hlt.
    + injection Hadd as <- <-. simpl. split; [exact Hinv0 |]. split; [reflexivity |].
      split; [intros; reflexivity |]. split; [reflexivity |].
      exists p0, d. split; [reflexivity | lia].
  - injection Hadd as <- <-.
    refine (Hsome {| DHTStore.dinfos := DHTStore.dinfos t; DHTStore.timers := DHTStore.timers t;
                     DHTStore.heap := S (DHTStore.heap t) |} Hinv0 eq_refl (fun k _ => eq_refl) _).
    intros p d Hpd. discriminate.
Qed.

(** An empty store and the store after a bootstrap of [ex_other] with
    seq 5 arrived at time 0. *)
Definition ex_store0 : DHTStore.dhtree :=
  {| DHTStore.dinfos := ∅; DHTStore.timers := []; DHTStore.heap := 0%nat |}.

Definition ex_blabel (s : Z) : DHTStore.treeLabel :=
  {| DHTStore.sig := repeat 0%Z signatureSize; DHTStore.key := ex_other; DHTStore.root := ex_other;
     DHTStore.rootSeq := 1; DHTStore.seq := s; DHTStore.path := [0%Z] |}.

Definition ex_store1 : DHTStore.dhtree := snd (DHTStore.addBootstrapPath ex_store0 (ex_blabel 5) 0).

(** A bootstrap of [ex_other] with seq 6 replaces the one with seq 5, and
    the cleanup timer of the replaced info leaves the new one in place. *)
Lemma dhtAdd_cleanup_witness :
  DHTStore.inv ex_store1 /\
  DHTStore.addBootstrapPath ex_store1 (ex_blabel 6) 10 =
    (Some 1%nat, snd (DHTStore.addBootstrapPath ex_store1 (ex_blabel 6) 10)) /\
  DHTStore.dinfos (DHTStore.cleanup (snd (DHTStore.addBootstrapPath ex_store1 (ex_blabel 6) 10)) 0 ex_other)
    !! ex_other =
  Some (1%nat, {| DHTStore.label := ex_blabel 6; DHTStore.time := 10; DHTStore.sent := false |}).
Proof.
  assert (H0 : DHTStore.inv ex_store0).
  { split; simpl; [intros k p d H; rewrite lookup_empty in H; discriminate | intros p k []]. }
  assert (H1 : DHTStore.inv ex_store1)
    by exact (proj1 (dhtAdd_cleanup ex_store0 (ex_blabel 5) 0 _ _ H0 (surjective_pairing _))).
  assert (H2 : DHTStore.addBootstrapPath ex_store1 (ex_blabel 6) 10 =
               (Some 1%nat, snd (DHTStore.addBootstrapPath ex_store1 (ex_blabel 6) 10)))
    by (vm_compute; reflexivity).
  split; [exact H1 | split; [exact H2 |]].
  destruct (dhtAdd_cleanup ex_store1 (ex_blabel 6) 10 _ _ H1 H2) as (_ & _ & _ & _ & Hat & _ & Hc & _).
  assert (Hin : In (0%nat, ex_other) (DHTStore.timers ex_store1)) by (vm_compute; left; reflexivity).
  exact (eq_trans (Hc 0%nat ex_other Hin) Hat).
Defined.

(** [_getLabel] labels the node with the ports of its info's hops
    followed by 0, its info's root and seq as root and root seq, and the
    counter [t.seq] plus one (wrapping at 2^64), which it also stores.
    The node's own info is at distance 1 from that label, and so is, at a
    peer, the info the node sent it with [treeInfo.add] once
    [_treeLookup] drops its last hop. *)
Theorem getLabel_dist (sign : publicKey -> Z -> Z -> list Z -> list Z) (self : publicKey)
    (tself : DHTree.treeInfo) (tseq : Z)
    (sign' : publicKey -> list Z -> list Z) (nkey : publicKey) (nport : Z) :
  let '(l, tseq') := DHTStore.getLabel sign self tself tseq in
  DHTStore.path l = map DHTree.port (DHTree.hops tself) ++ [0%Z] /\
  DHTStore.key l = self /\ DHTStore.root l = DHTree.root tself /\
  DHTStore.rootSeq l = DHTree.seq tself /\
  tseq' = ((tseq + 1) mod 2 ^ 64)%Z /\ DHTStore.seq l = tseq' /\
  DHTree.dist tself (DHTStore.root l) (DHTStore.path l) = 1%Z /\
  exists tmp, TreeLookup.truncate (DHTree.add sign' self tself nkey nport) = Some tmp /\
              DHTree.dist tmp (DHTStore.root l) (DHTStore.path l) = 1%Z.
Proof.
  simpl. repeat split; [exact (dist_label tself) |].
  exists tself. split; [| exact (dist_label tself)].
  destruct tself as [r s hs]. unfold TreeLookup.truncate, DHTree.add.
  cbn [DHTree.hops DHTree.root DHTree.seq]. cbv zeta.
  match goal with |- context [hs ++ [?h]] => set (x := h) end.
  assert (E : exists a l, hs ++ [x] = a :: l) by (destruct hs as [| a l]; [exists x, [] | exists a, (l ++ [x])]; reflexivity).
  destruct E as (a & l & E). rewrite E. cbv beta iota. rewrite <- E, length_app.
  cbn [length]. rewrite Nat.add_sub, take_app_length. reflexivity.
Qed.

Section BootstrapLemmas.

Lemma mark_sent_inv (t : DHTStore.dhtree) (k : publicKey) (ptr : nat) :
  DHTStore.inv t -> DHTStore.inv (DHTStore.mark_sent t k ptr).
Proof.
  intros [Hd Ht]. unfold DHTStore.mark_sent.
  destruct (DHTStore.dinfos t !! k) as [[p i] |] eqn:E; [| split; assumption].
  destruct (Nat.eqb_spec p ptr); [| split; assumption].
  split; simpl; [| exact Ht].
  intros k' p' d Hk. apply lookup_insert_Some in Hk as [[<- [= <- <-]] | [_ Hk]].
  - exact (Hd k p i E).
  - exact (Hd k' p' d Hk).
Qed.

Lemma mark_sent_at (t : DHTStore.dhtree) (k : publicKey) (ptr : nat) (i : DHTStore.dhtInfo) :
  DHTStore.dinfos t !! k = Some (ptr, i) ->
  DHTStore.dinfos (DHTStore.mark_sent t k ptr) =
  <[k := (ptr, {| DHTStore.label := DHTStore.label i; DHTStore.time := DHTStore.time i;
                  DHTStore.sent := true |})]> (DHTStore.dinfos t).
Proof.
  intros E. unfold DHTStore.mark_sent. rewrite E, Nat.eqb_refl. reflexivity.
Qed.

(** The closure right after the info at [k] was marked sent sends
    nothing. *)
Lemma delayed_sent (t : DHTStore.dhtree) (k : publicKey) (prev : option nat)
    (peers : list (publicKey * list nat)) (p : nat) (i : DHTStore.dhtInfo) :
  DHTStore.dinfos t !! k = Some (p, i) -> DHTStore.sent i = true ->
  snd (DHTStore.delayed t k prev peers) = [].
Proof.
  intros E Hs. unfold DHTStore.delayed. rewrite E, Hs. reflexivity.
Qed.

End BootstrapLemmas.

(** [_handleBootstrap] keeps the store invariant and touches no key but
    the bootstrap's. It does one of three things. If an info with an
    equal or higher seq is stored at that key, it changes nothing and
    sends nothing. If an older info stored there arrived more than a
    second ago, it stores the new info marked sent and sends the
    bootstrap right away to every peer but [prev]; the closure for that
    key would then send nothing. Otherwise it stores the new info unsent
    and schedules the closure: run next, the closure sends the bootstrap
    to every peer but [prev] and marks the info sent, and run again it
    sends nothing. *)
Theorem handleBootstrap_once (t : DHTStore.dhtree) (prev : option nat) (b : DHTStore.treeLabel)
    (now : Z) (peers : list (publicKey * list nat))
    (t1 : DHTStore.dhtree) (sends : list (nat * DHTStore.treeLabel))
    (later : option (publicKey * option nat)) :
  DHTStore.inv t -> DHTStore.handleBootstrap t prev b now peers = (t1, sends, later) ->
  let kb := DHTStore.key b in
  let nw s := (DHTStore.heap t, {| DHTStore.label := b; DHTStore.time := now; DHTStore.sent := s |}) in
  let fl := map (fun q => (q, b)) (DHTStore.flood peers prev) in
  DHTStore.inv t1 /\
  (forall k, k <> kb -> DHTStore.dinfos t1 !! k = DHTStore.dinfos t !! k) /\
  (((exists p d, DHTStore.dinfos t !! kb = Some (p, d) /\
                 (DHTStore.seq b <= DHTStore.seq (DHTStore.label d))%Z) /\
    DHTStore.dinfos t1 = DHTStore.dinfos t /\ sends = [] /\ later = None) \/
   ((exists p d, DHTStore.dinfos t !! kb = Some (p, d) /\
                 (DHTStore.seq (DHTStore.label d) < DHTStore.seq b)%Z /\
                 (DHTStore.second < now - DHTStore.time d)%Z) /\
    DHTStore.dinfos t1 !! kb = Some (nw true) /\ sends = fl /\ later = None /\
    snd (DHTStore.delayed t1 kb prev peers) = []) \/
   ((forall p d, DHTStore.dinfos t !! kb = Some (p, d) ->
       (DHTStore.seq (DHTStore.label d) < DHTStore.seq b)%Z /\
       (now - DHTStore.time d <= DHTStore.second)%Z) /\
    DHTStore.dinfos t1 !! kb = Some (nw false) /\ sends = [] /\ later = Some (kb, prev) /\
    let '(t2, ds) := DHTStore.delayed t1 kb prev peers in
    ds = fl /\ DHTStore.dinfos t2 !! kb = Some (nw true) /\
    snd (DHTStore.delayed t2 kb prev peers) = [])).
Proof.
  intros [Hd Ht] Hh kb nw fl.
  set (info := {| DHTStore.label := b; DHTStore.time := now; DHTStore.sent := false |}).
  assert (Hinv0 : DHTStore.inv {| DHTStore.dinfos := DHTStore.dinfos t; DHTStore.timers := DHTStore.timers t;
                                  DHTStore.heap := S (DHTStore.heap t) |}).
  { split; simpl.
    - intros k p d Hk. destruct (Hd k p d Hk). split; [assumption | lia].
    - intros p k Hk. pose proof (Ht p k Hk). lia. }
  (* the closure run after a store of the unsent new info *)
  assert (Hlater : forall t2 : DHTStore.dhtree, DHTStore.dinfos t2 !! kb = Some (nw false) ->
    let '(t3, ds) := DHTStore.delayed t2 kb prev peers in
    ds = fl /\ DHTStore.dinfos t3 !! kb = Some (nw true) /\
    snd (DHTStore.delayed t3 kb prev peers) = []).
  { intros t2 E2. unfold DHTStore.delayed at 1. rewrite E2. simpl.
    split; [reflexivity |]. split; [apply lookup_insert_eq |].
    apply (delayed_sent _ kb prev peers (DHTStore.heap t) (snd (nw true))); [apply lookup_insert_eq | reflexivity]. }
  unfold DHTStore.handleBootstrap, DHTStore.dhtAdd in Hh. simpl in Hh. fold info in Hh.
  change (DHTStore.key b) with kb in Hh.
  destruct (DHTStore.dinfos t !! kb) as [[p0 d] |] eqn:E.
  - destruct (Hd kb p0 d E) as [Hkd Hp0].
    set (tA := {| DHTStore.dinfos := delete (DHTStore.key (DHTStore.label d)) (DHTStore.dinfos t);
                  DHTStore.timers := List.filter (fun tm => negb (Nat.eqb (fst tm) p0)) (DHTStore.timers t);
                  DHTStore.heap := S (DHTStore.heap t) |}) in Hh.
    assert (HiA : DHTStore.inv tA).
    { split; simpl.
      - intros k p d' Hk. destruct (decide (k = kb)) as [-> | Hne].
        + rewrite Hkd, lookup_delete_eq in Hk. discriminate.
        + rewrite Hkd, lookup_delete_ne in Hk by congruence. exact (proj1 Hinv0 k p d' Hk).
      - intros p k Hk. apply filter_In in Hk as [Hk _]. exact (proj2 Hinv0 p k Hk). }
    assert (HoA : forall k, k <> kb -> DHTStore.dinfos tA !! k = DHTStore.dinfos t !! k).
    { intros k Hk. simpl. rewrite Hkd, lookup_delete_ne by congruence. reflexivity. }
    set (tS := DHTStore.store tA (DHTStore.heap t) info) in Hh.
    assert (HiS : DHTStore.inv tS) by (apply store_inv; [exact HiA | simpl; lia]).
    assert (HatS : DHTStore.dinfos tS !! kb = Some (nw false)) by (apply lookup_insert_eq).
    assert (HoS : forall k, k <> kb -> DHTStore.dinfos tS !! k = DHTStore.dinfos t !! k).
    { intros k Hk. simpl. rewrite lookup_insert_ne by (intros Q; apply Hk; symmetry; exact Q). exact (HoA k Hk). }
    destruct (Z.ltb_spec (DHTStore.seq (DHTStore.label d)) (DHTStore.seq b)) as [Hlt | Hge].
    + destruct (Z.gtb_spec (now - DHTStore.time d) DHTStore.second) as [Hgt | Hle].
      * injection Hh as <- <- <-.
        pose proof (mark_sent_at tS kb (DHTStore.heap t) info HatS) as Hm.
        split; [exact (mark_sent_inv tS kb _ HiS) |]. split.
        { intros k Hk. rewrite Hm, lookup_insert_ne by (intros Q; apply Hk; symmetry; exact Q). exact (HoS k Hk). }
        right. left. split; [exists p0, d; split; [reflexivity | split; assumption] |].
        assert (Hat : DHTStore.dinfos (DHTStore.mark_sent tS kb (DHTStore.heap t)) !! kb = Some (nw true))
          by (rewrite Hm; apply lookup_insert_eq).
        split; [exact Hat |]. split; [reflexivity |]. split; [reflexivity |].
        exact (delayed_sent _ kb prev peers _ _ Hat eq_refl).
      * injection Hh as <- <- <-.
        split; [exact HiS |]. split; [exact HoS |].
        right. right. split.
        { intros p d' Hpd. injection Hpd as _ <-. split; assumption. }
        split; [exact HatS |]. split; [reflexivity |]. split; [reflexivity |].
        exact (Hlater tS HatS).
    + injection Hh as <- <- <-. split; [exact Hinv0 |]. split; [intros; reflexivity |].
      left. split; [exists p0, d; split; [reflexivity | lia] |]. split; [reflexivity | split; reflexivity].
  - set (tS := DHTStore.store {| DHTStore.dinfos := DHTStore.dinfos t; DHTStore.timers := DHTStore.timers t;
                                 DHTStore.heap := S (DHTStore.heap t) |} (DHTStore.heap t) info) in Hh.
    injection Hh as <- <- <-.
    assert (HatS : DHTStore.dinfos tS !! kb = Some (nw false)) by (apply lookup_insert_eq).
    split; [apply store_inv; [exact Hinv0 | simpl; lia] |]. split.
    { intros k Hk. simpl. rewrite lookup_insert_ne by (intros Q; apply Hk; symmetry; exact Q). reflexivity. }
    right. right. split; [intros p d Hpd; discriminate |].
    split; [exact HatS |]. split; [reflexivity |]. split; [reflexivity |].
    exact (Hlater tS HatS).
Qed.

(** Peers 3 and 4 of key [ex_self]; the bootstrap of [ex_other] with
    seq 6 comes from peer 3 two seconds after the one with seq 5. *)
Definition ex_bpeers : list (publicKey * list nat) := [(ex_self, [3%nat; 4%nat])].

Definition ex_bnow : Z := (2 * DHTStore.second)%Z.

Lemma handleBootstrap_once_witness :
  DHTStore.inv ex_store1 /\
  DHTStore.handleBootstrap ex_store1 (Some 3%nat) (ex_blabel 6) ex_bnow ex_bpeers =
    (fst (fst (DHTStore.handleBootstrap ex_store1 (Some 3%nat) (ex_blabel 6) ex_bnow ex_bpeers)),
     [(4%nat, ex_blabel 6)], None) /\
  snd (DHTStore.delayed (fst (fst (DHTStore.handleBootstrap ex_store1 (Some 3%nat) (ex_blabel 6) ex_bnow ex_bpeers)))
         ex_other (Some 3%nat) ex_bpeers) = [].
Proof.
  assert (H1 : DHTStore.inv ex_store1).
  { change ex_store1 with
      (DHTStore.store {| DHTStore.dinfos := ∅; DHTStore.timers := []; DHTStore.heap := 1%nat |} 0%nat
         {| DHTStore.label := ex_blabel 5; DHTStore.time := 0; DHTStore.sent := false |}).
    apply store_inv; [| simpl; lia].
    split; simpl; [intros k p d H; rewrite lookup_empty in H; discriminate | intros p k []]. }
  assert (H2 : DHTStore.handleBootstrap ex_store1 (Some 3%nat) (ex_blabel 6) ex_bnow ex_bpeers =
    (fst (fst (DHTStore.handleBootstrap ex_store1 (Some 3%nat) (ex_blabel 6) ex_bnow ex_bpeers)),
     [(4%nat, ex_blabel 6)], None)) by (vm_compute; reflexivity).
  split; [exact H1 | split; [exact H2 |]].
  destruct (handleBootstrap_once _ _ _ _ _ _ _ _ H1 H2) as (_ & _ & [(_ & _ & Hs & _) | [(_ & _ & _ & _ & Hd) | (_ & _ & Hs & _)]]).
  - discriminate Hs.
  - exact Hd.
  - discriminate Hs.
Defined.

(* ------------------------------------------------------------------ *)
(** ** Requests and responses of the router: [_sendReqs], [_handleResponse] *)

Module ReqBook.

(** The fields of [router] that [_clearReqs], [_sendReqs] and
    [_handleResponse] update. *)
Record reqs := { requests : gmap publicKey routerSigReq; responses : gmap publicKey routerSigRes;
                 resSeqs : gmap publicKey Z; resSeqCtr : Z }.

(** The zero value of [routerSigReq], read from [r.requests] for a key
    without a request. *)
Definition zeroReq : routerSigReq := {| seq := 0; nonce := 0 |}.

(** [==] on [routerSigReq]. *)
Definition reqEq (a b : routerSigReq) : bool := ((seq a =? seq b) && (nonce a =? nonce b))%Z.

(** [_clearReqs]. *)
Definition clearReqs (b : reqs) : reqs :=
  {| requests := ∅; responses := ∅; resSeqs := ∅; resSeqCtr := 0 |}.

(** [_newReq] when the node's stored info has seq [selfSeq] (0 without
    one) and [crand] draws the nonce [n]. *)
Definition newReq (selfSeq n : Z) : routerSigReq :=
  {| seq := ((selfSeq + 1) mod 2 ^ 64)%Z; nonce := n |}.

(** [_sendReqs]: [peers] is [r.peers] as one list of peer identities per
    key, in the order of the Go loop, and [nonce_of pk] the nonce drawn
    by the [_newReq] for [pk]. The result is the new state and the
    requests sent, as peer and request. *)
Definition sendReqs (b : reqs) (selfSeq : Z) (nonce_of : publicKey -> Z)
    (peers : list (publicKey * list nat)) : reqs * list (nat * routerSigReq) :=
  fold_left (fun acc e =>
      let '(st, out) := acc in
      let '(pk, ps) := e in
      let req := newReq selfSeq (nonce_of pk) in
      ({| requests := <[pk := req]> (requests st); responses := responses st;
          resSeqs := resSeqs st; resSeqCtr := resSeqCtr st |},
       out ++ map (fun p => (p, req)) ps))
    peers (clearReqs b, []).

(** The [if] of [_handleResponse] for [res] from a peer with key [pk]:
    [None] when it is ignored, else the state with the response recorded,
    on which [_fix] then runs. *)
Definition handleResponse (b : reqs) (pk : publicKey) (res : routerSigRes) : option reqs :=
  match responses b !! pk with
  | Some _ => None
  | None =>
      if reqEq (default zeroReq (requests b !! pk)) (res_req res) then
        let ctr := ((resSeqCtr b + 1) mod 2 ^ 64)%Z in
        Some {| requests := requests b; responses := <[pk := res]> (responses b);
                resSeqs := <[pk := ctr]> (resSeqs b); resSeqCtr := ctr |}
      else None
  end.

(** [_handleResponse] in full: [fix_reqs] is what [r._fix()] does to these
    fields ([_useResponse] followed by [_sendReqs], or nothing). *)
Definition handleResponse_fix (fix_reqs : reqs -> reqs) (b : reqs) (pk : publicKey) (res : routerSigRes)
    : reqs :=
  match handleResponse b pk res with
  | Some b' => fix_reqs b'
  | None => b
  end.

End ReqBook.

Section ReqBookLemmas.

Variable selfSeq : Z.
Variable nonce_of : publicKey -> Z.

Definition rb_step (acc : ReqBook.reqs * list (nat * routerSigReq)) (e : publicKey * list nat)
    : ReqBook.reqs * list (nat * routerSigReq) :=
  let '(st, out) := acc in
  let '(pk, ps) := e in
  let req := ReqBook.newReq selfSeq (nonce_of pk) in
  ({| ReqBook.requests := <[pk := req]> (ReqBook.requests st); ReqBook.responses := ReqBook.responses st;
      ReqBook.resSeqs := ReqBook.resSeqs st; ReqBook.resSeqCtr := ReqBook.resSeqCtr st |},
   out ++ map (fun p => (p, req)) ps).

Lemma reqEq_spec (a b : routerSigReq) : ReqBook.reqEq a b = true <-> a = b.
Proof.
  destruct a as [s1 n1], b as [s2 n2]. unfold ReqBook.reqEq. simpl.
  rewrite andb_true_iff, !Z.eqb_eq. split; [intros [-> ->]; reflexivity | intros [= -> ->]; split; reflexivity].
Qed.

Lemma rb_fold (es : list (publicKey * list nat)) (st : ReqBook.reqs) (out : list (nat * routerSigReq)) :
  let '(st', out') := fold_left rb_step es (st, out) in
  ReqBook.responses st' = ReqBook.responses st /\ ReqBook.resSeqs st' = ReqBook.resSeqs st /\
  ReqBook.resSeqCtr st' = ReqBook.resSeqCtr st /\
  (forall pk, ReqBook.requests st' !! pk =
     if bool_decide (pk ∈ map fst es) then Some (ReqBook.newReq selfSeq (nonce_of pk))
     else ReqBook.requests st !! pk) /\
  (forall x, In x out' <-> In x out \/
     exists pk ps q, In (pk, ps) es /\ In q ps /\ x = (q, ReqBook.newReq selfSeq (nonce_of pk))).
Proof.
  revert st out. induction es as [| [pk ps] es IH]; intros st out; simpl.
  - split; [reflexivity | split; [reflexivity | split; [reflexivity | split]]].
    + intros k. first [reflexivity | case_bool_decide as Hk; [inversion Hk | reflexivity]].
    + intros x. split; [left; exact H | intros [H | (? & ? & ? & [] & _)]; exact H].
  - specialize (IH {| ReqBook.requests := <[pk := ReqBook.newReq selfSeq (nonce_of pk)]> (ReqBook.requests st);
                      ReqBook.responses := ReqBook.responses st; ReqBook.resSeqs := ReqBook.resSeqs st;
                      ReqBook.resSeqCtr := ReqBook.resSeqCtr st |}
                   (out ++ map (fun p => (p, ReqBook.newReq selfSeq (nonce_of pk))) ps)).
    destruct (fold_left rb_step es _) as [st' out'].
    destruct IH as (H1 & H2 & H3 & H4 & H5). simpl in H1, H2, H3.
    split; [exact H1 | split; [exact H2 | split; [exact H3 | split]]].
    + intros k. rewrite H4. simpl.
      destruct (bool_decide_reflect (k ∈ map fst es)) as [Hk | Hk].
      * rewrite bool_decide_eq_true_2 by (apply elem_of_cons; right; exact Hk). reflexivity.
      * destruct (decide (k = pk)) as [-> | Hne].
        -- rewrite bool_decide_eq_true_2 by (apply elem_of_cons; left; reflexivity).
           apply lookup_insert_eq.
        -- rewrite bool_decide_eq_false_2 by (intros Hc; apply elem_of_cons in Hc as [Hc | Hc]; contradiction).
           rewrite lookup_insert_ne by congruence. reflexivity.
    + intros x. rewrite H5, in_app_iff. split.
      * intros [[Hx | Hx] | (pk' & ps' & q & Hin & Hq & ->)].
        -- left. exact Hx.
        -- right. apply in_map_iff in Hx as (q & <- & Hq). exists pk, ps, q. split; [left; reflexivity | split; [exact Hq | reflexivity]].
        -- right. exists pk', ps', q. split; [right; exact Hin | split; [exact Hq | reflexivity]].
      * intros [Hx | (pk' & ps' & q & [[= <- <-] | Hin] & Hq & ->)].
        -- left. left. exact Hx.
        -- left. right. apply in_map_iff. exists q. split; [reflexivity | exact Hq].
        -- right. exists pk', ps', q. split; [exact Hin | split; [exact Hq | reflexivity]].
Qed.

End ReqBookLemmas.

(** After [_sendReqs], every link of every peer key has been sent the
    request stored for its key, with the node's seq plus one, and nothing
    else was sent. [_handleResponse] then records a response from a key
    exactly when it echoes that key's request, or, for a key that is not
    a peer, the zero request (seq 0, nonce 0). [_fix] then runs on a
    state holding that response alone, with resSeq 1 and counter 1, the
    requests unchanged; an ignored response leaves the state as it is
    and [_fix] does not run. *)
Theorem sendReqs_handleResponse (b0 : ReqBook.reqs) (selfSeq : Z) (nonce_of : publicKey -> Z)
    (peers : list (publicKey * list nat)) :
  let '(st, sends) := ReqBook.sendReqs b0 selfSeq nonce_of peers in
  let expected pk := if bool_decide (pk ∈ map fst peers) then ReqBook.newReq selfSeq (nonce_of pk)
                     else ReqBook.zeroReq in
  (forall x, In x sends <->
     exists pk ps q, In (pk, ps) peers /\ In q ps /\ x = (q, ReqBook.newReq selfSeq (nonce_of pk))) /\
  (forall pk res, (exists st', ReqBook.handleResponse st pk res = Some st') <-> res_req res = expected pk) /\
  (forall fix_reqs pk res, ReqBook.handleResponse_fix fix_reqs st pk res =
     if ReqBook.reqEq (expected pk) (res_req res)
     then fix_reqs {| ReqBook.requests := ReqBook.requests st; ReqBook.responses := <[pk := res]> ∅;
                 ReqBook.resSeqs := <[pk := 1%Z]> ∅; ReqBook.resSeqCtr := 1%Z |}
     else st).
Proof.
  unfold ReqBook.sendReqs.
  change (fun acc e => _) with (rb_step selfSeq nonce_of).
  pose proof (rb_fold selfSeq nonce_of peers (ReqBook.clearReqs b0) []) as Hf.
  destruct (fold_left (rb_step selfSeq nonce_of) peers _) as [st sends].
  destruct Hf as (Hr & Hs & Hc & Hq & Ho). simpl in Hr, Hs, Hc.
  set (expected := fun pk => if bool_decide (pk ∈ map fst peers) then ReqBook.newReq selfSeq (nonce_of pk)
                             else ReqBook.zeroReq).
  assert (Hacc : forall pk res, ReqBook.handleResponse st pk res =
    if ReqBook.reqEq (expected pk) (res_req res) then
      Some {| ReqBook.requests := ReqBook.requests st; ReqBook.responses := <[pk := res]> ∅;
              ReqBook.resSeqs := <[pk := 1%Z]> ∅; ReqBook.resSeqCtr := 1%Z |}
    else None).
  { intros pk res. unfold ReqBook.handleResponse. rewrite Hr, lookup_empty, Hq, Hs, Hc.
    unfold expected. destruct (bool_decide _); reflexivity. }
  split; [| split].
  - intros x. rewrite Ho. split; [intros [[] | H]; exact H | intros H; right; exact H].
  - intros pk res. rewrite Hacc. destruct (ReqBook.reqEq (expected pk) (res_req res)) eqn:E.
    + apply reqEq_spec in E. split; [intros _; symmetry; exact E | intros _; eexists; reflexivity].
    + split; [intros [st' H]; discriminate |].
      intros H. assert (ReqBook.reqEq (expected pk) (res_req res) = true) by (apply reqEq_spec; symmetry; exact H).
      congruence.
  - intros fix_reqs pk res. unfold ReqBook.handleResponse_fix. rewrite Hacc.
    unfold expected. cbv beta. destruct (ReqBook.reqEq _ (res_req res)); reflexivity.
Qed.

(* ------------------------------------------------------------------ *)
(** ** Parent selection of the router: [_fix] *)

Module RouterFix.

(** What the [switch] of [_fix] does: adopt the response of a peer
    ([_useResponse]), [_becomeRoot], arm the one-second timer, or
    nothing. *)
Inductive action := UseResponse (pk : publicKey) (res : routerSigRes) | BecomeRoot | ArmTimer | NoOp.

(** [r.infos[self].parent]: the zero key when there is no info. *)
Definition selfParent (st : router) (self : publicKey) : publicKey :=
  match infos st !! self with Some i => parent i | None => zero_key end.

(** [r.resSeqs[pk]], 0 when absent. *)
Definition resSeq (resSeqs : gmap publicKey Z) (pk : publicKey) : Z :=
  match resSeqs !! pk with Some s => s | None => 0%Z end.

(** One pass of the loop of [_fix] over the keys of [r.responses]. *)
Definition fix_step (st : router) (self : publicKey) (resSeqs : gmap publicKey Z) (refresh : bool)
    (acc : publicKey * publicKey) (pk : publicKey) : publicKey * publicKey :=
  match infos st !! pk with
  | None => acc
  | Some _ =>
      let '(pRoot, pDists) := getRootAndDists st pk in
      if bool_decide (is_Some (pDists !! self)) then acc else
      let '(bestRoot, bestParent) := if less pRoot (fst acc) then (pRoot, pk) else acc in
      if refresh || negb (bool_decide (bestParent = selfParent st self)) then
        if bool_decide (pRoot = bestRoot) && (resSeq resSeqs pk <? resSeq resSeqs bestParent)%Z
        then (pRoot, pk) else (bestRoot, bestParent)
      else (bestRoot, bestParent)
  end.

(** The choice of [bestRoot] and [bestParent] in [_fix]; [peerKeys] are
    the keys of [r.peers] and [rks] those of [r.responses] in the order of
    the Go loop. *)
Definition fix_select (st : router) (self : publicKey) (peerKeys rks : list publicKey)
    (resSeqs : gmap publicKey Z) (refresh : bool) : publicKey * publicKey :=
  let sp := selfParent st self in
  let init :=
    if bool_decide (sp ∈ peerKeys) then
      let '(root, _) := getRootAndDists st self in
      if less root self then (root, sp) else (self, self)
    else (self, self) in
  fold_left (fix_step st self resSeqs refresh) rks init.

(** The decision of [_fix] on [bestRoot] and [bestParent]. *)
Definition fix_action (st : router) (self : publicKey) (resps : gmap publicKey routerSigRes)
    (refresh doRoot1 doRoot2 : bool) (best : publicKey * publicKey) : action :=
  let '(bestRoot, bestParent) := best in
  if refresh || doRoot1 || doRoot2 || negb (bool_decide (selfParent st self = bestParent)) then
    let use := match resps !! bestParent with
               | Some res => if bool_decide (bestRoot = self) then None else Some res
               | None => None
               end in
    match use with
    | Some res => UseResponse bestParent res
    | None => if doRoot2 then BecomeRoot else if negb doRoot1 then ArmTimer else NoOp
    end
  else NoOp.

End RouterFix.

Section RouterFixLemmas.

Lemma less_zero_key_l (k : publicKey) : key_wf k -> k <> zero_key -> less zero_key k = true.
Proof.
  unfold key_wf, zero_key. intros [Hl Hb]. revert Hl. generalize publicKeySize as n.
  induction Hb as [| b k Hb Hk IH]; intros n Hl Hne; destruct n as [| n]; try discriminate.
  - contradiction.
  - simpl in Hl |- *. injection Hl as Hl.
    destruct (Z.ltb_spec 0 b); [reflexivity |].
    destruct (Z.ltb_spec b 0); [lia |].
    assert (b = 0%Z) as -> by lia.
    apply (IH n Hl). intros ->. apply Hne. reflexivity.
Qed.

(** The root of a walk is the root it started with or a stored key. *)
Lemma dists_walk_root (m : gmap publicKey routerInfo) (P : publicKey -> Prop) f next root dists dist :
  P root -> (forall k i, m !! k = Some i -> P k) -> P (fst (dists_walk m f next root dists dist)).
Proof.
  revert next root dists dist. induction f as [| f IH]; intros next root dists dist Hr Hm; simpl; [exact Hr |].
  destruct (bool_decide _); [exact Hr |].
  destruct (m !! next) as [info |] eqn:E; [| exact Hr].
  destruct (expired info); [exact Hr |].
  apply IH; [exact (Hm next info E) | exact Hm].
Qed.

(** A stored info that has expired stops the walk at once. *)
Lemma getRootAndDists_expired (st : router) (k : publicKey) (i : routerInfo) :
  infos st !! k = Some i -> expired i = true -> getRootAndDists st k = (zero_key, ∅).
Proof.
  intros E Hx. unfold getRootAndDists. simpl.
  rewrite bool_decide_eq_false_2 by (rewrite lookup_empty; intros [? H]; discriminate).
  rewrite E, Hx. reflexivity.
Qed.

Variable st : router.
Variable self : publicKey.
Variable resSeqs : gmap publicKey Z.
Variable refresh : bool.
Variable rks : list publicKey.

Hypothesis Hstored : forall k i, infos st !! k = Some i -> key_wf k /\ k <> zero_key.

Definition rf_inv (acc : publicKey * publicKey) : Prop :=
  key_wf (fst acc) /\ (fst acc = zero_key -> snd acc ∈ rks).

Lemma zero_key_wf : key_wf zero_key.
Proof. split; [reflexivity | repeat constructor; lia]. Qed.

Lemma rf_root_wf (k : publicKey) : key_wf (fst (getRootAndDists st k)).
Proof.
  unfold getRootAndDists. apply dists_walk_root; [exact zero_key_wf |]. intros k' i E. exact (proj1 (Hstored k' i E)).
Qed.

Lemma rf_step (acc : publicKey * publicKey) (pk : publicKey) :
  pk ∈ rks -> rf_inv acc ->
  rf_inv (RouterFix.fix_step st self resSeqs refresh acc pk) /\
  (fst acc = zero_key -> fst (RouterFix.fix_step st self resSeqs refresh acc pk) = zero_key).
Proof.
  intros Hpk [Hw Hz]. unfold RouterFix.fix_step.
  destruct (infos st !! pk) as [i |]; [| split; [split; assumption | auto]].
  pose proof (rf_root_wf pk) as Hrw.
  destruct (getRootAndDists st pk) as [pRoot pDists]. simpl in Hrw.
  destruct (bool_decide _); [split; [split; assumption | auto] |].
  destruct acc as [bestRoot bestParent]. simpl in Hw, Hz |- *.
  destruct (less pRoot bestRoot) eqn:El.
  - assert (Hnz : bestRoot <> zero_key).
    { intros ->. rewrite less_zero_key in El; [discriminate | apply Forall_impl with (1 := proj2 Hrw); lia]. }
    destruct (_ || _); [destruct (bool_decide _ && _)|];
      (split; [split; [exact Hrw | intros _; exact Hpk] | intros Hc; contradiction]).
  - destruct (_ || _); [destruct (bool_decide (pRoot = bestRoot)) eqn:Eq; [destruct (_ <? _)%Z |] |]; simpl;
      try (split; [split; assumption | auto]; fail).
    apply bool_decide_eq_true_1 in Eq. subst pRoot.
    split; [split; [exact Hw | intros _; exact Hpk] | auto].
Qed.

Lemma rf_fold (ks : list publicKey) (acc : publicKey * publicKey) :
  (forall k, k ∈ ks -> k ∈ rks) -> rf_inv acc ->
  rf_inv (fold_left (RouterFix.fix_step st self resSeqs refresh) ks acc) /\
  (fst acc = zero_key -> fst (fold_left (RouterFix.fix_step st self resSeqs refresh) ks acc) = zero_key).
Proof.
  revert acc. induction ks as [| k ks IH]; intros acc Hks Hinv; simpl; [split; auto |].
  destruct (rf_step acc k) as [Hi Hz]; [apply Hks; apply elem_of_cons; left; reflexivity | exact Hinv |].
  destruct (IH _ (fun k' H => Hks k' (proj2 (elem_of_cons _ _ _) (or_intror H))) Hi) as [Hi' Hz'].
  split; [exact Hi' | intros H; exact (Hz' (Hz H))].
Qed.

(** After the expired responder [pk], the best root is the zero key. *)
Lemma rf_fold_expired (ks : list publicKey) (acc : publicKey * publicKey) (pk : publicKey) (i : routerInfo) :
  (forall k, k ∈ ks -> k ∈ rks) -> rf_inv acc -> pk ∈ ks ->
  infos st !! pk = Some i -> expired i = true ->
  fst (fold_left (RouterFix.fix_step st self resSeqs refresh) ks acc) = zero_key.
Proof.
  intros Hks Hinv Hin E Hx. revert acc Hinv. induction ks as [| k ks IH]; intros acc Hinv;
    [inversion Hin |].
  simpl. apply elem_of_cons in Hin as [<- | Hin].
  - destruct (rf_step acc pk) as [Hi _]; [apply Hks; apply elem_of_cons; left; reflexivity | exact Hinv |].
    apply (rf_fold ks); [intros k' H; apply Hks; apply elem_of_cons; right; exact H | exact Hi |].
    unfold RouterFix.fix_step. rewrite E, (getRootAndDists_expired st pk i E Hx).
    rewrite bool_decide_eq_false_2 by (rewrite lookup_empty; intros [? H]; discriminate).
    destruct acc as [bestRoot bestParent]. destruct Hinv as [Hw _]. cbn [fst snd] in Hw |- *.
    destruct (decide (bestRoot = zero_key)) as [-> | Hnz].
    + rewrite less_irrefl.
      destruct (_ || _); [destruct (bool_decide _ && _) |]; reflexivity.
    + rewrite (less_zero_key_l bestRoot Hw Hnz).
      destruct (_ || _); [destruct (bool_decide _ && _) |]; reflexivity.
  - destruct (rf_step acc k) as [Hi _]; [apply Hks; apply elem_of_cons; left; reflexivity | exact Hinv |].
    exact (IH (fun k' H => Hks k' (proj2 (elem_of_cons _ _ _) (or_intror H))) Hin _ Hi).
Qed.

End RouterFixLemmas.

(** In [_fix], a responding peer whose stored info has expired counts as
    leading to the zero key as root, since [_getRootAndDists] stops at
    once on it, and that root is below every real one. So when the node's
    own info is live and no info is stored under the zero key, [_fix]
    ends with the zero key as best root and a responding peer as best
    parent. It then adopts that peer's response with [_useResponse],
    unless that peer already is the node's parent and no flag is set. *)
Theorem fix_expired_parent (st : router) (self : publicKey) (peerKeys rks : list publicKey)
    (resps : gmap publicKey routerSigRes) (resSeqs : gmap publicKey Z)
    (refresh doRoot1 doRoot2 : bool) (pk : publicKey) (i si : routerInfo) :
  key_wf self -> self <> zero_key ->
  (forall k i, infos st !! k = Some i -> key_wf k /\ k <> zero_key) ->
  (forall k, k ∈ rks <-> is_Some (resps !! k)) ->
  infos st !! self = Some si -> expired si = false ->
  pk ∈ rks -> infos st !! pk = Some i -> expired i = true ->
  let best := RouterFix.fix_select st self peerKeys rks resSeqs refresh in
  fst best = zero_key /\
  exists res, resps !! snd best = Some res /\
    (RouterFix.fix_action st self resps refresh doRoot1 doRoot2 best = RouterFix.UseResponse (snd best) res \/
     (RouterFix.fix_action st self resps refresh doRoot1 doRoot2 best = RouterFix.NoOp /\
      refresh = false /\ doRoot1 = false /\ doRoot2 = false /\ RouterFix.selfParent st self = snd best)).
Proof.
  intros Hself Hnz Hstored Hrks Es Hsx Hpk Ep Hx best.
  set (init := if bool_decide (RouterFix.selfParent st self ∈ peerKeys) then
                 let '(root, _) := getRootAndDists st self in
                 if less root self then (root, RouterFix.selfParent st self) else (self, self)
               else (self, self)).
  assert (Hinit : rf_inv rks init).
  { assert (Hss : rf_inv rks (self, self)) by (split; [exact Hself | intros H; contradiction]).
    unfold init. destruct (bool_decide _); [| exact Hss].
    assert (Hr : key_wf (fst (getRootAndDists st self)) /\ fst (getRootAndDists st self) <> zero_key).
    { unfold getRootAndDists. simpl.
      rewrite bool_decide_eq_false_2 by (rewrite lookup_empty; intros [? H]; discriminate).
      rewrite Es, Hsx. apply dists_walk_root; [split; assumption | exact Hstored]. }
    destruct (getRootAndDists st self) as [root ds]. simpl in Hr.
    destruct (less root self); [| exact Hss].
    split; [exact (proj1 Hr) | intros H; destruct Hr as [_ Hr]; contradiction]. }
  assert (Hsub : forall k, k ∈ rks -> k ∈ rks) by auto.
  assert (Eb : best = fold_left (RouterFix.fix_step st self resSeqs refresh) rks init) by reflexivity.
  clearbody best.
  assert (Hz : fst best = zero_key)
    by (rewrite Eb; exact (rf_fold_expired st self resSeqs refresh rks Hstored rks init pk i Hsub Hinit Hpk Ep Hx)).
  destruct (rf_fold st self resSeqs refresh rks Hstored rks init Hsub Hinit) as [[_ Hin] _].
  rewrite <- Eb in Hin. specialize (Hin Hz).
  apply Hrks in Hin as [res Hres].
  split; [exact Hz |]. exists res. split; [exact Hres |].
  destruct best as [bR bP]. simpl in Hz, Hres |- *. subst bR.
  unfold RouterFix.fix_action. rewrite Hres.
  rewrite (bool_decide_eq_false_2 (zero_key = self)) by (intros H; apply Hnz; symmetry; exact H).
  destruct refresh, doRoot1, doRoot2; simpl; try (left; reflexivity).
  destruct (bool_decide (RouterFix.selfParent st self = bP)) eqn:E; simpl; [| left; reflexivity].
  right. apply bool_decide_eq_true_1 in E. repeat split; exact E.
Qed.

(** [ex_self] is its own root and [ex_other], whose key is greater, has
    answered its request but its info has expired. *)
Definition ex_fix_state : router :=
  {| infos := {[ex_self := ex_info_self;
               ex_other := {| parent := ex_other; info_res := ex_res 1 0 0;
                              info_sig := repeat 0%Z signatureSize; expired := true |}]};
     timers := ∅; cache := ∅; peers := []; refresh := false; now := 0; next_tid := 0 |}.

Definition ex_resps : gmap publicKey routerSigRes := {[ex_other := ex_res 2 5 1]}.

Lemma fix_expired_parent_witness :
  RouterFix.fix_action ex_fix_state ex_self ex_resps false false false
    (RouterFix.fix_select ex_fix_state ex_self [ex_other] [ex_other] ∅ false) =
  RouterFix.UseResponse ex_other (ex_res 2 5 1).
Proof.
  assert (Hw1 : key_wf ex_self) by (split; [reflexivity | repeat constructor; lia]).
  assert (Hw2 : key_wf ex_other) by (split; [reflexivity | repeat constructor; lia]).
  assert (Hn1 : ex_self <> zero_key) by discriminate.
  assert (Hstored : forall k i, infos ex_fix_state !! k = Some i -> key_wf k /\ k <> zero_key).
  { intros k i E. simpl in E. apply lookup_insert_Some in E as [[<- _] | [_ E]]; [split; assumption |].
    apply lookup_singleton_Some in E as [<- _]. split; [exact Hw2 | discriminate]. }
  assert (Hrks : forall k, k ∈ [ex_other] <-> is_Some (ex_resps !! k)).
  { intros k. rewrite list_elem_of_singleton. unfold ex_resps. rewrite lookup_singleton_is_Some. split; congruence. }
  destruct (fix_expired_parent ex_fix_state ex_self [ex_other] [ex_other] ex_resps ∅ false false false ex_other
              {| parent := ex_other; info_res := ex_res 1 0 0; info_sig := repeat 0%Z signatureSize; expired := true |}
              ex_info_self Hw1 Hn1 Hstored Hrks (eq_refl _) eq_refl
              ltac:(apply list_elem_of_singleton; reflexivity) (eq_refl _) eq_refl)
    as [_ (res & Hres & [Ha | (Ha & _)])].
  - rewrite Ha. vm_compute in Hres |- *. injection Hres as <-. reflexivity.
  - exfalso. vm_compute in Ha. discriminate.
Defined.

(** The request part of [router.addPeer] for a link of the peer key
    [pk]: unless a response from [pk] is recorded, the request stored for
    [pk] (a new one from [_newReq] if there is none) is sent on the link.
    The other effects of [addPeer] (the peer and port maps, Merkle trees
    and bloom filters) leave these fields alone. *)
Definition addPeer_req (b : ReqBook.reqs) (selfSeq nonce : Z) (pk : publicKey)
    : ReqBook.reqs * option routerSigReq :=
  match ReqBook.responses b !! pk with
  | Some _ => (b, None)
  | None =>
      let b' := match ReqBook.requests b !! pk with
                | Some _ => b
                | None => {| ReqBook.requests := <[pk := ReqBook.newReq selfSeq nonce]> (ReqBook.requests b);
                             ReqBook.responses := ReqBook.responses b; ReqBook.resSeqs := ReqBook.resSeqs b;
                             ReqBook.resSeqCtr := ReqBook.resSeqCtr b |}
                end in
      (b', Some (default ReqBook.zeroReq (ReqBook.requests b' !! pk)))
  end.

(** A new link of a key with a recorded response is sent no request and
    changes nothing here. A link of a key without one is sent the request
    already pending for the key, the one its other links got, or a new
    request with seq one above the node's own if none is pending. Either
    way [_handleResponse] records the response that echoes it. *)
Theorem addPeer_request (b : ReqBook.reqs) (selfSeq nonce : Z) (pk : publicKey) (res : routerSigRes) :
  let '(b', sent) := addPeer_req b selfSeq nonce pk in
  (is_Some (ReqBook.responses b !! pk) -> b' = b /\ sent = None) /\
  (ReqBook.responses b !! pk = None ->
     exists req, sent = Some req /\ ReqBook.requests b' !! pk = Some req /\
       (ReqBook.requests b !! pk = Some req \/
        (ReqBook.requests b !! pk = None /\ req = ReqBook.newReq selfSeq nonce)) /\
       (forall k, k <> pk -> ReqBook.requests b' !! k = ReqBook.requests b !! k) /\
       (res_req res = req -> is_Some (ReqBook.handleResponse b' pk res))).
Proof.
  unfold addPeer_req.
  destruct (ReqBook.responses b !! pk) as [r |] eqn:Er.
  - split; [intros _; split; reflexivity | intros H; discriminate].
  - split; [intros [? H]; discriminate |]. intros _.
    destruct (ReqBook.requests b !! pk) as [req |] eqn:Eq.
    + exists req. rewrite Eq. split; [reflexivity |]. split; [reflexivity |].
      split; [left; reflexivity |]. split; [intros; reflexivity |].
      intros Hr. unfold ReqBook.handleResponse. rewrite Er, Eq. simpl.
      rewrite (proj2 (reqEq_spec req (res_req res)) (eq_sym Hr)). eexists; reflexivity.
    + exists (ReqBook.newReq selfSeq nonce). simpl. rewrite lookup_insert_eq.
      split; [reflexivity |]. split; [reflexivity |].
      split; [right; split; reflexivity |]. split.
      * intros k Hk. rewrite lookup_insert_ne by congruence. reflexivity.
      * intros Hr. unfold ReqBook.handleResponse. simpl. rewrite Er, lookup_insert_eq. simpl.
        rewrite (proj2 (reqEq_spec _ (res_req res)) (eq_sym Hr)). eexists; reflexivity.
Qed.
